(** * sBayes: cluster sampler (sbayes/sampling/sbayes_sampling.py) and
      operator-weight verification (sbayes/experiment_setup.py)

    A shallow embedding of the initialisation code of [ClusterMCMC], of the
    candidate-pool and rejection logic of [gibbsish_sample_clusters], of
    [get_operators] / [normalize_operator_weights], of the warm-up schedule
    of [ClusterMCMCWarmup] and of the operator part of
    [Experiment.verify_config].

    Conventions.
    - A numpy boolean vector is a [list bool]; a boolean matrix a list of rows.
    - numpy floats that hold probabilities, counts or weights are exact
      rationals ([Q], compared with [==]): the statements over [Q] describe
      the code up to rounding. Where rounding decides, module [Double]
      repeats the arithmetic in binary64 floats.
    - Python's random module is an explicit source of draws ([Rand]): every
      statement is quantified over all sources, so it holds for whatever the
      generator returns.
    - An exception is a value of [exn] carried by [outcome]. *)

From stdpp Require Import base list strings gmap.
From Stdlib Require Import ZArith QArith Lia Lqa Floats.

Set Default Proof Using "Type".
Local Open Scope nat_scope.

(** ** Exceptions and the random source *)

Inductive exn : Set :=
| ClusterError | ValueError | IndexError | KeyError | ZeroDivisionError
| AssertionError.

Inductive outcome (A : Type) : Type :=
| Ok (a : A)
| Raise (e : exn).
Arguments Ok {A} a.
Arguments Raise {A} e.

#[global] Instance outcome_ret : MRet outcome := λ A a, Ok a.
#[global] Instance outcome_bind : MBind outcome := λ A B f m,
  match m with Ok a => f a | Raise e => Raise e end.

(** The generator: an infinite tape of draws and a read position. *)
Record Rand : Type := mkRand { tape : nat → nat; pos : nat }.

Definition draw (g : Rand) : nat * Rand :=
  (tape g (pos g), mkRand (tape g) (S (pos g))).

(** [random.choice(seq)] and [random.sample(seq, 1)[0]]: one element of a
    non-empty sequence; [None] stands for the exception on an empty one. *)
Definition choice {A} (l : list A) (g : Rand) : option (A * Rand) :=
  let '(r, g') := draw g in
  match l !! (r mod length l) with
  | Some x => Some (x, g')
  | None => None
  end.

(** ** numpy helpers on boolean vectors *)

Fixpoint nonzero_from (i : nat) (v : list bool) : list nat :=
  match v with
  | [] => []
  | b :: v' => (if b then [i] else []) ++ nonzero_from (S i) v'
  end.

(** [np.nonzero(v)[0]] *)
Definition nonzero (v : list bool) : list nat := nonzero_from 0 v.

(** [np.any(v)] *)
Definition np_any (v : list bool) : bool := existsb id v.

(** [np.count_nonzero(v)], [np.sum(v)] on a boolean vector *)
Definition count_nonzero (v : list bool) : nat := length (nonzero v).

(** [np.zeros(n, bool)] *)
Definition zeros (n : nat) : list bool := replicate n false.

(** [v[i] = 1], with Python's bounds check. *)
Definition set_site (v : list bool) (i : nat) : outcome (list bool) :=
  if i <? length v then Ok (<[i := true]> v) else Raise IndexError.

(** Elementwise [|] of two vectors. *)
Definition vor (a b : list bool) : list bool := zip_with orb a b.

(** ** The adjacency graph *)

(** [adj !! i !! j]: entry (i, j) of the adjacency matrix. *)
Definition adjacent (adj : list (list bool)) (i j : nat) : Prop :=
  ∃ row, adj !! i = Some row ∧ row !! j = Some true.

(** Row [i] of [adj_mat.dot(cluster)] over booleans. *)
Definition dot_row (row cluster : list bool) : bool :=
  existsb (λ p : bool * bool, p.1 && p.2) (zip row cluster).

(** Modelled from the spec: [get_neighbours] of sbayes.util, which is not
    part of the sources at hand. Section 4.2 extends a cluster by an
    "adjacent (graph-neighbor) unoccupied site, using the provided adjacency
    matrix": site [i] is a neighbour when some cluster site [j] has
    [adj[i][j]] set and [i] is not yet in any cluster. *)
Definition get_neighbours (cluster already_in_cluster : list bool)
    (adj_mat : list (list bool)) : list bool :=
  zip_with andb ((λ row, dot_row row cluster) <$> adj_mat)
           (negb <$> already_in_cluster).

(** The order in which a cluster was built: the newest site first, the seed
    last, every later site adjacent to one that was already there. *)
Inductive grown_from (adj : list (list bool)) (seed : nat) : list nat → Prop :=
| grown_seed : grown_from adj seed [seed]
| grown_add s l :
    grown_from adj seed l →
    (∃ j, j ∈ l ∧ adjacent adj s j) →
    grown_from adj seed (s :: l).

(** An edge of the graph between two sites of [l], in either direction. *)
Definition linked (adj : list (list bool)) (l : list nat) (a b : nat) : Prop :=
  a ∈ l ∧ b ∈ l ∧ (adjacent adj a b ∨ adjacent adj b a).

(** [l] is connected: any two of its sites are joined by a path inside [l]. *)
Definition connected (adj : list (list bool)) (l : list nat) : Prop :=
  ∀ a b, a ∈ l → b ∈ l → rtc (linked adj l) a b.

(** Site [i] is set in the boolean vector [v]. *)
Definition on (v : list bool) (i : nat) : Prop := v !! i = Some true.

(** The loop invariant of the growth: [c] is the cluster built so far, in the
    order [order]; [a] is the caller's array [a0] with the cluster written
    into it, and the cluster avoids the sites [a0] excluded. *)
Definition grow_inv (adj : list (list bool)) (seed : nat)
    (a0 c a : list bool) (order : list nat) : Prop :=
  NoDup order ∧ grown_from adj seed order ∧
  (∀ i, on c i ↔ i ∈ order) ∧
  (∀ i, on a i ↔ on a0 i ∨ on c i) ∧
  (∀ i, on a0 i → ¬ on c i) ∧
  length a = length a0.

(** ** Cluster growth *)

Section Growth.

Variable n_sites : nat.
Variable adj_mat : list (list bool).

(** Result of a call that mutates its argument array: the outcome, the array
    as the call leaves it (also when it raises) and the generator. *)
Definition grown : Type := outcome (list bool) * list bool * Rand.

Definition result_of (r : grown) : outcome (list bool) := r.1.1.

(** Lines 276-285: pick the seed among the free sites. *)
Definition sites_free (already_in_cluster : list bool) : list nat :=
  let sites_occupied := nonzero already_in_cluster in
  filter (λ i, i ∉ sites_occupied) (seq 0 n_sites).

Definition seed_cluster (already_in_cluster : list bool) (g : Rand) : grown :=
  let cluster := zeros n_sites in
  match choice (sites_free already_in_cluster) g with
  | None => (Raise ClusterError, already_in_cluster, g)
  | Some (i, g') =>
      match set_site cluster i with
      | Raise e => (Raise e, already_in_cluster, g')
      | Ok cluster' =>
          match set_site already_in_cluster i with
          | Raise e => (Raise e, already_in_cluster, g')
          | Ok already' => (Ok cluster', already', g')
          end
      end
  end.

(** Lines 288-295: [n] iterations of the growth loop. *)
Fixpoint grow_steps (n : nat) (cluster already_in_cluster : list bool)
    (g : Rand) : grown :=
  match n with
  | 0 => (Ok cluster, already_in_cluster, g)
  | S n' =>
      let neighbours := get_neighbours cluster already_in_cluster adj_mat in
      if negb (np_any neighbours)
      then (Raise ClusterError, already_in_cluster, g)
      else
        match choice (nonzero neighbours) g with
        | None => (Raise IndexError, already_in_cluster, g)
        | Some (site_new, g') =>
            match set_site cluster site_new with
            | Raise e => (Raise e, already_in_cluster, g')
            | Ok cluster' =>
                match set_site already_in_cluster site_new with
                | Raise e => (Raise e, already_in_cluster, g')
                | Ok already' => grow_steps n' cluster' already' g'
                end
            end
        end
  end.

(** [grow_cluster_of_size_k(k, already_in_cluster)]; [range(k - 1)] is empty
    for [k <= 1]. The second component is the caller's array after the
    in-place writes; on success it is also the second returned value. *)
Definition grow_cluster_of_size_k (k : Z) (already_in_cluster : option (list bool))
    (g : Rand) : grown :=
  let already := default (zeros n_sites) already_in_cluster in
  match seed_cluster already g with
  | (Ok cluster, already', g') => grow_steps (Z.to_nat (k - 1)) cluster already' g'
  | r => r
  end.

End Growth.

(** The 5-site chain 0-1-2-3-4. *)
Definition chain5 : list (list bool) :=
  [ [false; true; false; false; false];
    [true; false; true; false; false];
    [false; true; false; true; false];
    [false; false; true; false; true];
    [false; false; false; true; false] ].

(** Two sites without any edge. *)
Definition isolated2 : list (list bool) := [ [false; false]; [false; false] ].

(** ** The chain state and the sampler object *)

(** A (groups x features x states) array of probabilities. *)
Abbreviation tensor := (list (list (list Q))).

(** Modelled from the spec: class [Sample] of sbayes.sampling.state, which is
    not part of the sources at hand; section 3 lists its fields and calls it
    "cheaply copyable (copy-on-propose)". [mkSample] stands for
    [Sample.from_numpy_arrays]; a Rocq value is its own [copy()]. *)
Record Sample : Type := mkSample {
  clusters : list (list bool);
  weights : list (list Q);
  cluster_effect : tensor;
  confounding_effects : gmap string tensor;
  source : option (list (list (list bool)));
  chain : nat
}.

(** [sample_new.update_cluster(i, new_cluster)] *)
Definition update_cluster (s : Sample) (i : nat) (c : list bool) : Sample :=
  mkSample (<[i := c]> (clusters s)) (weights s) (cluster_effect s)
           (confounding_effects s) (source s) (chain s).

(** [sample.source.set_value(v)] *)
Definition set_source (s : Sample) (v : list (list (list bool))) : Sample :=
  mkSample (clusters s) (weights s) (cluster_effect s)
           (confounding_effects s) (Some v) (chain s).

(** One cell of the feature array: [None] is NaN (a missing observation),
    [Some b] the one-hot indicator of the state. *)
Definition obs : Type := option bool.

(** The attributes [ClusterMCMC.__init__] stores on [self]. *)
Record ClusterMCMC : Type := mkClusterMCMC {
  features : list (list (list obs));      (* sites x features x states *)
  applicable_states : list (list bool);   (* features x states *)
  n_features : nat;
  n_sites : nat;
  n_states : nat;                         (* features.shape[2] *)
  adj_mat : list (list bool);
  p_grow_connected : Q;
  n_clusters : nat;
  min_size : Z;
  max_size : Z;
  initial_size : Z;
  confounders : list (string * list string);          (* model.confounders *)
  data_confounders : gmap string (list (list bool));  (* data.confounders[k]['values'] *)
  sample_source : bool;                               (* model.sample_source *)
  initial_sample : option Sample;
  n_chains : nat
}.

Definition n_sources (self : ClusterMCMC) : nat := 1 + length (confounders self).

(** [get_groups_per_confounder] *)
Definition get_groups_per_confounder (self : ClusterMCMC) : gmap string nat :=
  foldl (λ n_groups kv, <[kv.1 := length kv.2]> n_groups) ∅ (confounders self).

(** [get_source_index]: the ['confounding_effects'] part; the cluster effect
    has index 0. *)
Definition get_source_index (self : ClusterMCMC) : gmap string nat :=
  foldl (λ idx ik, <[ik.2.1 := S ik.1]> idx) ∅
        (zip (seq 0 (length (confounders self))) (confounders self)).

(** [M[i, :] = v] with the bounds check on [i] and the shape check on [v]
    (numpy's broadcasting of a smaller [v] is not modelled). *)
Definition assign_row {A} (shape_ok : A → bool) (M : list A) (i : nat) (v : A)
    : outcome (list A) :=
  if i <? length M
  then (if shape_ok v then Ok (<[i := v]> M) else Raise ValueError)
  else Raise IndexError.

Definition vector_shape (n : nat) (v : list bool) : bool := length v =? n.

Definition matrix_shape {A} (r c : nat) (m : list (list A)) : bool :=
  (length m =? r) && forallb (λ row, length row =? c) m.

(** ** Initial clusters *)

Definition max_attempts : nat := 1000.

(** The local variables of [generate_initial_clusters]. [occupied] is the
    array handed to [grow_cluster_of_size_k], which writes into it. *)
Record gen_state : Type := mkGen {
  n_generated : nat;
  initial_clusters : list (list bool);
  occupied : list bool;
  attempts : nat;
  rand : Rand
}.

(** How the [for] loop over [not_initialized] ends. *)
Inductive for_exit : Set :=
| Completed
| Broke
| Raised (e : exn).

Section InitialClusters.

Variable self : ClusterMCMC.

(** Lines 221-225: copy the clusters of the previous run. *)
Fixpoint copy_previous (prev : list (list bool)) (st : gen_state)
    : outcome gen_state :=
  match prev with
  | [] => Ok st
  | v :: prev' =>
      ic ← assign_row (vector_shape (n_sites self)) (initial_clusters st)
                      (n_generated st) v;
      copy_previous prev'
        (mkGen (S (n_generated st)) ic (vor (occupied st) v) (attempts st) (rand st))
  end.

(** Lines 236-254: the [for] loop, started at the indices [idx]. *)
Fixpoint grow_remaining (idx : list nat) (st : gen_state) : for_exit * gen_state :=
  match idx with
  | [] => (Completed, st)
  | i :: idx' =>
      match grow_cluster_of_size_k (n_sites self) (adj_mat self)
              (initial_size self) (Some (occupied st)) (rand st) with
      | (Ok cl, in_cl, g') =>
          match assign_row (vector_shape (n_sites self)) (initial_clusters st) i cl with
          | Ok ic =>
              grow_remaining idx'
                (mkGen (S (n_generated st)) ic in_cl (attempts st) g')
          | Raise e =>
              (Raised e, mkGen (S (n_generated st)) (initial_clusters st)
                               in_cl (attempts st) g')
          end
      | (Raise ClusterError, occ', g') =>
          if attempts st <? max_attempts
          then (Broke, mkGen (n_generated st) (initial_clusters st) occ'
                             (S (attempts st)) g')
          else (Raised ValueError,
                mkGen (n_generated st) (initial_clusters st) occ' (attempts st) g')
      | (Raise e, occ', g') =>
          (Raised e, mkGen (n_generated st) (initial_clusters st) occ' (attempts st) g')
      end
  end.

(** Shape invariant of the local state. *)
Definition gen_wf (st : gen_state) : Prop :=
  length (initial_clusters st) = n_clusters self ∧
  length (occupied st) = n_sites self ∧
  n_generated st ≤ n_clusters self ∧
  attempts st ≤ max_attempts.

(** The clusters generated so far are marked in [occupied] and do not share
    a site. *)
Definition gen_disjoint (st : gen_state) : Prop :=
  (∀ i ci s, i < n_generated st → initial_clusters st !! i = Some ci →
             on ci s → on (occupied st) s) ∧
  (∀ i j ci cj s, i < n_generated st → j < n_generated st → i ≠ j →
                  initial_clusters st !! i = Some ci →
                  initial_clusters st !! j = Some cj →
                  ¬ (on ci s ∧ on cj s)).

(** What the [while True] loop yields; [OutOfFuel] is not a Python result,
    it marks a run cut short by the iteration budget of the model. *)
Inductive loop_result : Type :=
| Returned (cl : list (list bool)) (st : gen_state)
| Failed (e : exn) (st : gen_state)
| OutOfFuel.

(** Lines 235-257: the [while True] loop. *)
Fixpoint generate_loop (fuel : nat) (st : gen_state) : loop_result :=
  match fuel with
  | 0 => OutOfFuel
  | S fuel' =>
      let not_initialized :=
        seq (n_generated st) (n_clusters self - n_generated st) in
      match grow_remaining not_initialized st with
      | (Raised e, st') => Failed e st'
      | (_, st') =>
          if n_generated st' =? n_clusters self
          then Returned (initial_clusters st') st'
          else generate_loop fuel' st'
      end
  end.

(** [generate_initial_clusters] *)
Definition generate_initial_clusters (fuel : nat) (g : Rand) : loop_result :=
  let st0 := mkGen 0 (replicate (n_clusters self) (zeros (n_sites self)))
                   (zeros (n_sites self)) 0 g in
  if n_clusters self =? 0 then Returned [] st0
  else
    match
      match initial_sample self with
      | Some prev => copy_previous (clusters prev) st0
      | None => Ok st0
      end
    with
    | Raise e => Failed e st0
    | Ok st => generate_loop fuel st
    end.

End InitialClusters.

(** ** The cluster proposal of [gibbsish_sample_clusters] *)

(** [np.random.choice(n, k, replace=False)] draws from the pool without
    putting back (numpy raises when [k] exceeds the pool; the one call below
    has more than 10 sites to choose 10 from). *)
Fixpoint choice_no_replace (pool : list nat) (k : nat) (g : Rand) : list nat * Rand :=
  match k with
  | 0 => ([], g)
  | S k' =>
      let '(r, g') := draw g in
      let j := r mod length pool in
      match pool !! j with
      | None => ([], g')
      | Some x =>
          let '(rest, g'') := choice_no_replace (delete j pool) k' g' in
          (x :: rest, g'')
      end
  end.

(** The local function [random_subset(n, k)] of lines 128-132. *)
Definition random_subset (n k : nat) (g : Rand) : list bool * Rand :=
  let x := zeros n in
  let '(s, g') := choice_no_replace (seq 0 n) k g in
  (foldr (λ i x, <[i := true]> x) x s, g').

(** [a[mask] &= vals]: the cells of [a] selected by [mask], in order, are
    and-ed with the values. *)
Fixpoint mask_and (a mask vals : list bool) : list bool :=
  match a, mask with
  | x :: a', true :: mask' =>
      match vals with
      | v :: vals' => (x && v) :: mask_and a' mask' vals'
      | [] => x :: mask_and a' mask' []
      end
  | x :: a', false :: mask' => x :: mask_and a' mask' vals
  | _, _ => a
  end.

(** [a[mask] = vals] *)
Fixpoint mask_set (a mask vals : list bool) : list bool :=
  match a, mask with
  | x :: a', true :: mask' =>
      match vals with
      | v :: vals' => v :: mask_set a' mask' vals'
      | [] => x :: mask_set a' mask' []
      end
  | x :: a', false :: mask' => x :: mask_set a' mask' vals
  | _, _ => a
  end.

(** [x[mask]] *)
Fixpoint select {A} (mask : list bool) (x : list A) : list A :=
  match mask, x with
  | true :: mask', a :: x' => a :: select mask' x'
  | false :: mask', _ :: x' => select mask' x'
  | _, _ => []
  end.

(** [np.any(clusters, axis=0)] for a matrix with [n] columns. *)
Definition np_any_axis0 (n : nat) (rows : list (list bool)) : list bool :=
  foldr vor (zeros n) rows.

(** Lines 118-146: the candidate pool [available] of the chosen cluster. *)
Definition candidate_pool (occupied cluster : list bool) (max_size : Z) (g : Rand)
    : list bool * Rand :=
  let available := vor (negb <$> occupied) cluster in
  let n_available := count_nonzero available in
  if (max_size <? Z.of_nat n_available)%Z then
    let newly_available := negb <$> occupied in
    let n_newly_available := count_nonzero newly_available in
    if 10 <? n_newly_available then
      let '(sub, g') := random_subset n_newly_available 10 g in
      (mask_and available newly_available sub, g')
    else (available, g)
  else (available, g).

(** The unoccupied sites that are in the pool. *)
Definition unoccupied_in (pool occupied : list bool) : list bool :=
  zip_with andb pool (negb <$> occupied).

Definition of_bool (b : bool) : Q := if b then 1 else 0.

(** [x < y] on floats *)
Definition Qlt_bool (x y : Q) : bool := negb (Qle_bool y x).

(** Lines 187 and 189: the probability of the drawn value at one site. *)
Definition q_site (p : Q) (b : bool) : Q :=
  p * of_bool b + (1 - p) * (1 - of_bool b).

Definition q_per_site (posterior : list Q) (cluster available : list bool) : list Q :=
  zip_with q_site posterior (select available cluster).

(** [np.any(q == 0)] *)
Definition any_zero (q : list Q) : bool := existsb (λ x, Qeq_bool x 0) q.

(** What lines 107-180 hand to the checks that follow. *)
Record proposal : Type := mkProposal {
  p_max_size : Z;
  p_i_cluster : nat;
  p_cluster : list bool;
  p_available : list bool;
  p_posterior : list Q;
  p_new_cluster : list bool;
  p_sample_new : Sample
}.

Section Gibbsish.

Variable self : ClusterMCMC.

(** [IS_WARMUP], and [self.max_size] of the warm-up class (a list). *)
Variable is_warmup : bool.
Variable warmup_max_size : list Z.

(** Log-probabilities, and the two constants of class [MCMC]
    (sbayes.sampling.mcmc, not part of the sources at hand). *)
Variable logp : Type.
Variables Q_REJECT Q_BACK_REJECT : logp.

(** [np.sum(np.log(q))] and [+] on log-probabilities. *)
Variable log_sum : list Q → logp.
Variable logp_add : logp → logp → logp.

(** Lines 160-177: the posterior probability of membership at every site of
    the pool; it is computed by the likelihood object, which is not part of
    the sources at hand. *)
Variable posterior_cluster : Sample → nat → list bool → list Q.

(** Lines 152-156 and [gibbs_sample_sources]: the source part of the move. *)
Variable source_log_q_back : Sample → list bool → logp.
Variable gibbs_sample_sources : Sample → list bool → Rand → Sample * logp * Rand.

(** [np.random.random(n)] *)
Variable random_random : nat → Rand → list Q * Rand.

(** Line 107 *)
Definition resolve_max_size (c : option nat) : outcome Z :=
  if is_warmup then
    match c with
    | None => Raise KeyError
    | Some c =>
        match warmup_max_size !! c with
        | Some m => Ok m
        | None => Raise IndexError
        end
    end
  else Ok (max_size self).

(** Lines 107-180: choose a cluster, build the pool, draw the new
    membership. [None] is the early return of line 149 (empty pool). *)
Definition propose (sample : Sample) (c : option nat) (g : Rand)
    : outcome (option proposal) * Rand :=
  match resolve_max_size c with
  | Raise e => (Raise e, g)
  | Ok max_size =>
      let occupied := np_any_axis0 (n_sites self) (clusters sample) in
      match choice (seq 0 (length (clusters sample))) g with
      | None => (Raise ValueError, g)
      | Some (i_cluster, g1) =>
          match clusters sample !! i_cluster with
          | None => (Raise IndexError, g1)
          | Some cluster =>
              let '(available, g2) := candidate_pool occupied cluster max_size g1 in
              let n_available := count_nonzero available in
              if n_available =? 0 then (Ok None, g2)
              else
                let posterior := posterior_cluster sample i_cluster available in
                let '(u, g3) := random_random n_available g2 in
                let new_cluster :=
                  mask_set cluster available
                           (zip_with Qlt_bool u posterior) in
                let sample_new := update_cluster sample i_cluster new_cluster in
                (Ok (Some (mkProposal max_size i_cluster cluster available
                                      posterior new_cluster sample_new)), g3)
          end
      end
  end.

(** [np.sum(sample_new.clusters[i_cluster])] *)
Definition new_cluster_size (p : proposal) : Z :=
  Z.of_nat (count_nonzero (default [] (clusters (p_sample_new p) !! p_i_cluster p))).

Definition size_in_range (p : proposal) : bool :=
  ((min_size self <=? new_cluster_size p) && (new_cluster_size p <=? p_max_size p))%Z.

Definition q_back_per_site (p : proposal) : list Q :=
  q_per_site (p_posterior p) (p_cluster p) (p_available p).

(** [gibbsish_sample_clusters(sample, resample_source, c=...)] *)
Definition gibbsish_sample_clusters (sample : Sample) (resample_source : bool)
    (c : option nat) (g : Rand) : outcome (Sample * logp * logp) * Rand :=
  match propose sample c g with
  | (Raise e, g') => (Raise e, g')
  | (Ok None, g') => (Ok (sample, Q_REJECT, Q_BACK_REJECT), g')
  | (Ok (Some p), g') =>
      let log_q_back_s := source_log_q_back sample (p_available p) in
      if negb (size_in_range p)
      then (Ok (sample, Q_REJECT, Q_BACK_REJECT), g')
      else
        let log_q :=
          log_sum (q_per_site (p_posterior p) (p_new_cluster p) (p_available p)) in
        if any_zero (q_back_per_site p)
        then (Ok (sample, Q_REJECT, Q_BACK_REJECT), g')
        else
          let log_q_back := log_sum (q_back_per_site p) in
          if sample_source self && resample_source then
            let '(sample_new, log_q_s, g'') :=
              gibbs_sample_sources (p_sample_new p) (p_available p) g' in
            (Ok (sample_new, logp_add log_q log_q_s, logp_add log_q_back log_q_back_s), g'')
          else (Ok (p_sample_new p, log_q, log_q_back), g')
  end.

End Gibbsish.

(** ** Operators and their weights *)

(** [OperatorsConfig] of sbayes.config: the weight table of the run. *)
Module OperatorsConfig.

Record t : Type := mk {
  clusters : Q;
  weights : Q;
  cluster_effect : Q;
  confounding_effects : Q;
  source : Q
}.

End OperatorsConfig.

(** The operator classes [get_operators] instantiates, with the arguments
    that tell them apart. *)
Inductive operator_kind : Type :=
| AlterCluster (resample_source : bool)
| GibbsSampleSource
| GibbsSampleWeights
| GibbsSampleClusterEffect
| GibbsSampleConfoundingEffects (confounder : string) (source_index : nat)
| AlterWeights
| AlterClusterEffect
| AlterConfoundingEffects (confounder : string).

Record Operator : Type := mkOperator { kind : operator_kind; weight : Q }.

(** An operator that reads or redraws the source assignment: the Gibbs
    operators, and [AlterCluster] when it resamples the source. *)
Definition source_dependent (k : operator_kind) : bool :=
  match k with
  | AlterCluster resample_source => resample_source
  | GibbsSampleSource | GibbsSampleWeights | GibbsSampleClusterEffect
  | GibbsSampleConfoundingEffects _ _ => true
  | AlterWeights | AlterClusterEffect | AlterConfoundingEffects _ => false
  end.


(** A Python [dict] with string keys, in insertion order. *)
Definition dict (V : Type) : Type := list (string * V).

(** [d[k] = v] *)
Fixpoint dict_set {V} (k : string) (v : V) (d : dict V) : dict V :=
  match d with
  | [] => [(k, v)]
  | (k', v') :: d' =>
      if decide (k = k') then (k, v) :: d' else (k', v') :: dict_set k v d'
  end.

(** [d.update({k1: v1, ...})] *)
Definition dict_update {V} (d : dict V) (kvs : list (string * V)) : dict V :=
  foldl (λ d kv, dict_set kv.1 kv.2 d) d kvs.

Local Open Scope Q_scope.

(** [a / b] on Python numbers *)
Definition py_div (a b : Q) : outcome Q :=
  if Qeq_bool b 0 then Raise ZeroDivisionError else Ok (a / b).

(** [sum(op['weight'] for op in operators.values())] *)
Definition total_weight (operators : dict Operator) : Q :=
  foldl (λ acc kv, acc + weight kv.2) 0 operators.

(** [normalize_operator_weights(operators)]; the result is the dictionary
    after the in-place division. *)
Definition normalize_operator_weights (operators : dict Operator)
    : outcome (dict Operator) :=
  let total := total_weight operators in
  match operators with
  | [] => Ok []
  | _ =>
      if Qeq_bool total 0 then Raise ZeroDivisionError
      else Ok ((λ kv, (kv.1, mkOperator (kind kv.2) (weight kv.2 / total))) <$> operators)
  end.

Section Operators.

Variable self : ClusterMCMC.
Variable operators_config : OperatorsConfig.t.

Definition confounder_fraction : outcome Q :=
  py_div 1 (inject_Z (Z.of_nat (length (confounders self)))).

(** Lines 524-533: the body of the loop over the confounders when the source
    is sampled. *)
Definition add_gibbs_confounding (r : Q) (operators : dict Operator)
    (kv : string * list string) : outcome (dict Operator) :=
  match get_source_index self !! kv.1 with
  | None => Raise KeyError
  | Some idx =>
      Ok (dict_set ("gibbs_sample_confounding_effects_" +:+ kv.1)
            (mkOperator (GibbsSampleConfoundingEffects kv.1 idx)
               (r * OperatorsConfig.confounding_effects operators_config))
            operators)
  end.

(** Lines 545-553: the body of the loop when it is not. *)
Definition add_alter_confounding (r : Q) (operators : dict Operator)
    (kv : string * list string) : dict Operator :=
  dict_update operators
    [("alter_confounding_effects_" +:+ kv.1,
      mkOperator (AlterConfoundingEffects kv.1)
         (OperatorsConfig.confounding_effects operators_config * r))].

(** Lines 484-553: the operators before normalisation. *)
Definition build_operators : outcome (dict Operator) :=
  let operators :=
    [("sample_cluster",
      mkOperator (AlterCluster (sample_source self))
                 (OperatorsConfig.clusters operators_config))] in
  if sample_source self then
    let operators := dict_update operators
      [("gibbs_sample_sources",
        mkOperator GibbsSampleSource (OperatorsConfig.source operators_config));
       ("gibbs_sample_weights",
        mkOperator GibbsSampleWeights (OperatorsConfig.weights operators_config));
       ("gibbs_sample_cluster_effect",
        mkOperator GibbsSampleClusterEffect
                   (OperatorsConfig.cluster_effect operators_config))] in
    r ← confounder_fraction;
    foldl (λ acc kv, operators ← acc; add_gibbs_confounding r operators kv)
          (Ok operators) (confounders self)
  else
    let operators := dict_update operators
      [("alter_weights",
        mkOperator AlterWeights (OperatorsConfig.weights operators_config));
       ("alter_cluster_effect",
        mkOperator AlterClusterEffect
                   (OperatorsConfig.cluster_effect operators_config))] in
    r ← confounder_fraction;
    Ok (foldl (add_alter_confounding r) operators (confounders self)).

(** The operators [build_operators] can put into the dictionary, for the
    fraction [r] = 1 / number of confounders. *)
Inductive built_operator (r : Q) : Operator → Prop :=
| built_sample_cluster b :
    b = sample_source self →
    built_operator r (mkOperator (AlterCluster b)
                                 (OperatorsConfig.clusters operators_config))
| built_gibbs_source :
    sample_source self = true →
    built_operator r (mkOperator GibbsSampleSource
                                 (OperatorsConfig.source operators_config))
| built_gibbs_weights :
    sample_source self = true →
    built_operator r (mkOperator GibbsSampleWeights
                                 (OperatorsConfig.weights operators_config))
| built_gibbs_cluster_effect :
    sample_source self = true →
    built_operator r (mkOperator GibbsSampleClusterEffect
                                 (OperatorsConfig.cluster_effect operators_config))
| built_gibbs_confounding k idx :
    sample_source self = true →
    built_operator r (mkOperator (GibbsSampleConfoundingEffects k idx)
                        (r * OperatorsConfig.confounding_effects operators_config))
| built_alter_weights :
    sample_source self = false →
    built_operator r (mkOperator AlterWeights
                                 (OperatorsConfig.weights operators_config))
| built_alter_cluster_effect :
    sample_source self = false →
    built_operator r (mkOperator AlterClusterEffect
                                 (OperatorsConfig.cluster_effect operators_config))
| built_alter_confounding k :
    sample_source self = false →
    built_operator r (mkOperator (AlterConfoundingEffects k)
                        (OperatorsConfig.confounding_effects operators_config * r)).

(** [get_operators(operators_config)] *)
Definition get_operators : outcome (dict Operator) :=
  operators ← build_operators;
  normalize_operator_weights operators.

End Operators.

(** The names and the weights (in lowest terms) of a result. *)
Definition weight_table (r : outcome (dict Operator)) : option (list (string * Q)) :=
  match r with
  | Ok ops => Some ((λ kv : string * Operator, (kv.1, Qred (weight kv.2))) <$> ops)
  | Raise _ => None
  end.

(** ** The operator table of the configuration file *)

(** The two entries of [self.config] that lines 197-207 of [verify_config]
    read and write: [config['model']['sample_source']] and
    [config['mcmc']['operators']]. *)
Record Config : Type := mkConfig {
  model_sample_source : bool;
  mcmc_operators : gmap string Q
}.

(** Lines 197-201: no source operator when the source is not sampled. *)
Definition force_source_zero (cfg : Config) : Config :=
  if negb (model_sample_source cfg)
  then mkConfig (model_sample_source cfg) (<["source" := 0%Q]> (mcmc_operators cfg))
  else cfg.

(** [sum(self.config['mcmc']['operators'].values())] *)
Definition weights_sum (cfg : Config) : Q :=
  map_fold (λ _ w acc, acc + w) 0 (mcmc_operators cfg).

(** Lines 203-207: divide every weight by the sum. *)
Definition renormalize_operators (cfg : Config) : outcome Config :=
  let s := weights_sum cfg in
  if decide (mcmc_operators cfg = ∅) then Ok cfg
  else if Qeq_bool s 0 then Raise ZeroDivisionError
  else Ok (mkConfig (model_sample_source cfg) ((λ w, w / s) <$> mcmc_operators cfg)).

(** The operator part of [Experiment.verify_config], for a configuration
    that passed the checks of lines 162-195. *)
Definition verify_config (cfg : Config) : outcome Config :=
  renormalize_operators (force_source_zero cfg).

Local Close Scope Q_scope.

(** ** Initial weights and effects *)

Local Open Scope Q_scope.

(** [np.sum(row)] *)
Definition row_sum (row : list Q) : Q := foldr Qplus 0 row.

(** [m / np.sum(m, axis=1)[:, np.newaxis]]: every row divided by its sum. *)
Definition divide_by_row_sums (m : list (list Q)) : list (list Q) :=
  (λ row, (λ v, v / row_sum row) <$> row) <$> m.

(** Modelled from the spec: [normalize] of sbayes.util, which is not part of
    the sources at hand. Section 3 asks that "each feature's weight row sums
    to 1": the rows (the last axis) are divided by their sums. *)
Definition normalize (x : list (list Q)) : list (list Q) := divide_by_row_sums x.

(** A division that yields NaN: 0 / 0. *)
Definition has_nan (x : list (list Q)) : bool :=
  existsb (λ row, Qeq_bool (row_sum row) 0 && existsb (λ v, Qeq_bool v 0) row) x.

(** The value [np.nansum] adds for one cell. *)
Definition obs_value (o : obs) : Q :=
  match o with Some true => 1 | _ => 0 end.

(** [np.nansum(selected, axis=0)]: the number of selected sites per feature
    and state. *)
Definition nansum_sites (nf ns : nat) (selected : list (list (list obs)))
    : list (list Q) :=
  foldr (λ (site : list (list obs)) acc,
           zip_with (zip_with Qplus)
                    ((λ row : list obs, obs_value <$> row) <$> site) acc)
        (replicate nf (replicate ns 0)) selected.

(** [features[idx, :, :]] *)
Fixpoint take_sites (feats : list (list (list obs))) (idx : list nat)
    : outcome (list (list (list obs))) :=
  match idx with
  | [] => Ok []
  | i :: idx' =>
      match feats !! i with
      | None => Raise IndexError
      | Some site => rest ← take_sites feats idx'; Ok (site :: rest)
      end
  end.

(** [counts[applicable_states] += 1] *)
Definition add_one_applicable (counts : list (list Q)) (applicable : list (list bool))
    : list (list Q) :=
  zip_with (zip_with (λ x (a : bool), if a then x + 1 else x)) counts applicable.

(** [prev[j]] copied to [M[i + j]] for every [j]; returns the array and the
    number of rows copied. *)
Fixpoint copy_rows {A} (shape_ok : A → bool) (prev : list A) (M : list A) (i : nat)
    : outcome (list A * nat) :=
  match prev with
  | [] => Ok (M, i)
  | v :: prev' => M' ← assign_row shape_ok M i v; copy_rows shape_ok prev' M' (S i)
  end.

Section InitialSample.

Variable self : ClusterMCMC.

(** [generate_initial_weights] *)
Definition generate_initial_weights : list (list Q) :=
  let initial_weights :=
    match initial_sample self with
    | Some prev => weights prev
    | None => replicate (n_features self) (replicate (n_sources self) 1)
    end in
  normalize initial_weights.

(** Lines 346-360 and 392-407: the smoothed estimate for the sites [idx]. *)
Definition smoothed_mle (idx : list nat) : outcome (list (list Q)) :=
  features_sel ← take_sites (features self) idx;
  let sites_per_state := nansum_sites (n_features self) (n_states self) features_sel in
  let sites_per_state := add_one_applicable sites_per_state (applicable_states self) in
  Ok (divide_by_row_sums sites_per_state).

Definition zero_tensor (groups : nat) : tensor :=
  replicate groups (replicate (n_features self) (replicate (n_states self) 0)).

Definition effect_shape : list (list Q) → bool :=
  matrix_shape (n_features self) (n_states self).

(** Lines 345-362: the loop over the clusters (or groups) [todo] whose
    membership vectors are the rows of [members]. *)
Fixpoint fill_effects (members : list (list bool)) (todo : list nat) (eff : tensor)
    : outcome tensor :=
  match todo with
  | [] => Ok eff
  | i :: todo' =>
      match members !! i with
      | None => Raise IndexError
      | Some row =>
          e ← smoothed_mle (nonzero row);
          eff' ← assign_row effect_shape eff i e;
          fill_effects members todo' eff'
      end
  end.

(** [generate_initial_cluster_effect(initial_clusters)] *)
Definition generate_initial_cluster_effect (initial_clusters : list (list bool))
    : outcome tensor :=
  let initial_cluster_effect := zero_tensor (n_clusters self) in
  '(initial_cluster_effect, n_generated) ←
    match initial_sample self with
    | Some prev => copy_rows effect_shape (cluster_effect prev) initial_cluster_effect 0%nat
    | None => Ok (initial_cluster_effect, 0%nat)
    end;
  let not_initialized := seq n_generated (n_clusters self - n_generated) in
  fill_effects initial_clusters not_initialized initial_cluster_effect.

(** The number of clusters whose effect is taken from a previous run. *)
Definition n_resumed : nat :=
  match initial_sample self with
  | Some prev => length (cluster_effect prev)
  | None => 0%nat
  end.

(** [d[k]] with its [KeyError] *)
Definition getitem {V} (d : gmap string V) (k : string) : outcome V :=
  match d !! k with Some v => Ok v | None => Raise KeyError end.

(** [generate_initial_confounding_effect(conf)] *)
Definition generate_initial_confounding_effect (conf : string) : outcome tensor :=
  n_groups ← getitem (get_groups_per_confounder self) conf;
  groups ← getitem (data_confounders self) conf;
  let initial_confounding_effect := zero_tensor n_groups in
  match initial_sample self with
  | Some prev =>
      previous ← getitem (confounding_effects prev) conf;
      r ← copy_rows effect_shape previous initial_confounding_effect 0%nat;
      Ok r.1
  | None => fill_effects groups (seq 0 n_groups) initial_confounding_effect
  end.

(** [m] is the effect of a cluster, or of a group of a confounder, that the
    sampler initialised from scratch. *)
Definition initialized_from_scratch (m : list (list Q)) : Prop :=
  (∃ initial_clusters eff i,
     generate_initial_cluster_effect initial_clusters = Ok eff ∧
     (n_resumed ≤ i)%nat ∧ eff !! i = Some m) ∨
  (initial_sample self = None ∧
   ∃ conf eff g,
     generate_initial_confounding_effect conf = Ok eff ∧ eff !! g = Some m).

(** The smoothed counts of one feature: [counts] with 1 added at the
    applicable states, divided by their sum. *)
Definition smoothed_row (counts : list Q) (applicable : list bool) : list Q :=
  let raw := zip_with (λ x (a : bool), if a then x + 1 else x) counts applicable in
  (λ v, v / row_sum raw) <$> raw.


(** Lines 429-431: one array per confounder. *)
Fixpoint generate_initial_confounding_effects (confs : list (string * list string))
    (acc : gmap string tensor) : outcome (gmap string tensor) :=
  match confs with
  | [] => Ok acc
  | kv :: confs' =>
      e ← generate_initial_confounding_effect kv.1;
      generate_initial_confounding_effects confs' (<[kv.1 := e]> acc)
  end.

(** The Gibbs step for the source (operator [gibbs_sample_sources], not part
    of the sources at hand). *)
Variable gibbs_sample_sources_value :
  Sample → Rand → list (list (list bool)) * Rand.

(** [generate_initial_sample(c)]; [None] when the cluster loop is cut short
    by the budget [fuel]. *)
Definition generate_initial_sample (c : nat) (fuel : nat) (g : Rand)
    : option (outcome Sample * Rand) :=
  match generate_initial_clusters self fuel g with
  | OutOfFuel => None
  | Failed e st => Some (Raise e, rand st)
  | Returned initial_clusters st =>
      let initial_weights := generate_initial_weights in
      match
        initial_cluster_effect ← generate_initial_cluster_effect initial_clusters;
        initial_confounding_effects ←
          generate_initial_confounding_effects (confounders self) ∅;
        Ok (initial_cluster_effect, initial_confounding_effects)
      with
      | Raise e => Some (Raise e, rand st)
      | Ok (initial_cluster_effect, initial_confounding_effects) =>
          let sample :=
            mkSample initial_clusters initial_weights initial_cluster_effect
                     initial_confounding_effects
                     (if sample_source self then Some [] else None) c in
          if has_nan (match initial_sample self with
                      | Some prev => weights prev
                      | None => replicate (n_features self) (replicate (n_sources self) 1)
                      end)
          then Some (Raise AssertionError, rand st)
          else if sample_source self then
            let '(v, g') := gibbs_sample_sources_value sample (rand st) in
            Some (Ok (set_source sample v), g')
          else Some (Ok sample, rand st)
      end
  end.

(** A sample of a previous run that fits this run: as many clusters,
    confounder groups, features (and sites and states) as the run has. *)
Definition fits_run (prev : Sample) : Prop :=
  length (clusters prev) = n_clusters self ∧
  Forall (λ v, length v = n_sites self) (clusters prev) ∧
  length (cluster_effect prev) = n_clusters self ∧
  Forall (λ e, effect_shape e = true) (cluster_effect prev) ∧
  (∀ kv, kv ∈ confounders self →
     ∃ t, confounding_effects prev !! kv.1 = Some t ∧
          get_groups_per_confounder self !! kv.1 = Some (length t) ∧
          Forall (λ e, effect_shape e = true) t ∧
          is_Some (data_confounders self !! kv.1)) ∧
  (∀ k, is_Some (confounding_effects prev !! k) → k ∈ (confounders self).*1).

End InitialSample.

Local Close Scope Q_scope.

(** ** Warm-up chains *)

(** [np.linspace(start, stop, num, endpoint=False, dtype=int)]: [num] evenly
    spaced values from [start] (included) towards [stop] (excluded), rounded
    down to integers. *)
Definition linspace_int (start stop : Z) (num : nat) : list Z :=
  (λ i : nat, start + (Z.of_nat i * (stop - start)) / Z.of_nat num)%Z <$> seq 0 num.

(** Modelled from the spec: [get_max_size_list] of sbayes.util, which is not
    part of the sources at hand. Section 4.5 describes "a staged schedule
    between" [start] and [end], with the "chains partitioned into groups with
    shared schedule values": [k_groups] stages evenly spaced from [start],
    each repeated for the ceil(n_total / k_groups) chains of its group, cut
    to [n_total] entries. *)
Definition get_max_size_list (start end_ : Z) (n_total k_groups : nat) : list Z :=
  let n_per_group := ((n_total + k_groups - 1) / k_groups)%nat in
  let max_sizes := linspace_int start end_ k_groups in
  take n_total (flat_map (replicate n_per_group) max_sizes).

(** [random.choices(population, k=k)] *)
Fixpoint choices {A} (population : list A) (k : nat) (g : Rand) : list A * Rand :=
  match k with
  | 0 => ([], g)
  | S k' =>
      match choice population g with
      | None => ([], g)
      | Some (x, g') =>
          let '(rest, g'') := choices population k' g' in (x :: rest, g'')
      end
  end.

(** The two attributes [ClusterMCMCWarmup.__init__] replaces by lists. *)
Record ClusterMCMCWarmup : Type := mkWarmup {
  base : ClusterMCMC;
  max_size_per_chain : list Z;
  p_grow_connected_per_chain : list Q
}.

(** [int((initial_size + max_size) / 2)] and [int(1.5 * max_size)]; [int]
    rounds towards zero. *)
Definition warmup_start (self : ClusterMCMC) : Z :=
  (initial_size self + max_size self) ÷ 2.

Definition warmup_end (self : ClusterMCMC) : Z := (3 * max_size self) ÷ 2.

(** [ClusterMCMCWarmup.__init__] *)
Definition warmup_init (self : ClusterMCMC) (g : Rand) : ClusterMCMCWarmup * Rand :=
  let max_size := get_max_size_list (warmup_start self) (warmup_end self)
                                    (n_chains self) 4 in
  let '(p, g') := choices [(95 # 100)%Q; p_grow_connected self] (n_chains self) g in
  (mkWarmup self max_size p, g').

(** The number of chains in one group of the schedule. *)
Definition chains_per_group (self : ClusterMCMC) : nat := (n_chains self + 4 - 1) / 4.

(** One cluster holding site 0 out of 13 sites. *)
Definition one_of_13 : list (list bool) := [ true :: replicate 12 false ].

(** A sampler over 3 sites whose clusters must have exactly one site, and a
    state with the single cluster {0}. *)
Definition tiny_sampler : ClusterMCMC :=
  mkClusterMCMC [] [] 0 3 0 [] 1 1 1 1 1 [] ∅ false None 1.

Definition tiny_sample : Sample :=
  mkSample [[true; false; false]] [] [] ∅ None 0.

(** A model with two confounders, with and without source sampling, and a
    weight table. *)
Definition with_confounders (sample_source : bool) : ClusterMCMC :=
  mkClusterMCMC [] [] 0 3 0 [] 1 1 1 3 1
    [("family", ["f1"; "f2"]); ("area", ["a1"])]%string ∅ sample_source None 1.

Definition some_weights : OperatorsConfig.t :=
  OperatorsConfig.mk 45 15 5 20 15.

(** A configuration file that asks for a source operator although the
    source is not sampled. *)
Definition source_off_config : Config :=
  mkConfig false
    (<["clusters" := 45%Q]> (<["weights" := 15%Q]> (<["source" := 10%Q]> ∅))).

(** Ten warm-up chains, initial size 5, nominal maximum 20. *)
Definition ten_chains : ClusterMCMC :=
  mkClusterMCMC [] [] 0 30 0 [] (7 # 10) 3 3 20 5 [] ∅ false None 10.

(** One site and two features: feature 0 has two applicable states, feature
    1 a single one (its second column is padding); one cluster. *)
Definition single_state_sampler : ClusterMCMC :=
  mkClusterMCMC [[[Some true; Some false]; [Some true; Some false]]]
                [[true; true]; [true; false]] 2 1 2 [[false]]
                1 1 1 1 1 [] ∅ false None 1.

(** Two sites, one feature with two applicable states, both sites in state
    0; one cluster. *)
Definition two_state_sampler : ClusterMCMC :=
  mkClusterMCMC [[[Some true; Some false]]; [[Some true; Some false]]]
                [[true; true]] 1 2 2 [[false; true]; [true; false]]
                1 1 1 2 2 [] ∅ false None 1.

(** The last sample of a run on the 5-site chain with two clusters, one
    feature of two states and one confounder of one group, and a sampler
    resuming from it. *)
Definition previous_sample : Sample :=
  mkSample [[true; true; false; false; false]; [false; false; false; true; true]]
           [[(1 # 4)%Q; (3 # 4)%Q]]
           [[[(1 # 3)%Q; (2 # 3)%Q]]; [[(1 # 2)%Q; (1 # 2)%Q]]]
           {[ "family"%string := [[[(2 # 5)%Q; (3 # 5)%Q]]] ]}
           None 0.

Definition resuming_sampler : ClusterMCMC :=
  mkClusterMCMC (replicate 5 [[Some true; Some false]]) [[true; true]] 1 5 2 chain5
                1 2 1 3 2 [("family"%string, ["f1"%string])]
                {[ "family"%string := [[true; true; true; true; true]] ]}
                false (Some previous_sample) 1.

(** A sampler on a graph [adj] of [n] sites that grows [nc] clusters of
    size [k] from scratch; the data play no role in the growth. *)
Definition growth_only (n : nat) (adj : list (list bool)) (nc : nat) (k : Z)
    : ClusterMCMC :=
  mkClusterMCMC [] [] 0 n 0 adj 1 nc 1 k k [] ∅ false None 1.


(** ** Further invariants of the initial clusters *)

(** The number of sites of a cluster grown with target size [k]:
    [range(k - 1)] adds [k - 1] sites to the seed, none for [k <= 1]. *)
Definition grown_size (k : Z) : nat := S (Z.to_nat (k - 1)).

(** A cluster as [grow_cluster_of_size_k] returns it on [n] sites: of
    [grown_size k] sites, built from a seed along edges of the graph. *)
Definition grown_cluster (n : nat) (adj : list (list bool)) (k : Z)
    (c : list bool) : Prop :=
  length c = n ∧ count_nonzero c = grown_size k ∧
  ∃ seed order,
    NoDup order ∧ (∀ i, on c i ↔ i ∈ order) ∧
    grown_from adj seed order ∧ connected adj order.

(** The invariant of [generate_initial_clusters] when the first [m] clusters
    are the rows [prev] of a previous run and [base] sites are occupied by
    them: the rows of [prev] stay in place, the later clusters are grown
    clusters, every cluster generated so far is marked in [occupied], a grown
    cluster shares no site with any cluster before it, and every grown
    cluster took [grown_size] fresh sites. *)
Definition gen_inv (self : ClusterMCMC) (prev : list (list bool)) (base : nat)
    (st : gen_state) : Prop :=
  gen_wf self st ∧
  length prev ≤ n_generated st ∧
  (∀ i ci, prev !! i = Some ci → initial_clusters st !! i = Some ci) ∧
  (∀ i ci, length prev ≤ i < n_generated st → initial_clusters st !! i = Some ci →
           grown_cluster (n_sites self) (adj_mat self) (initial_size self) ci) ∧
  (∀ i ci s, i < n_generated st → initial_clusters st !! i = Some ci →
             on ci s → on (occupied st) s) ∧
  (∀ i j ci cj s, i < j < n_generated st → length prev ≤ j →
                  initial_clusters st !! i = Some ci →
                  initial_clusters st !! j = Some cj →
                  ¬ (on ci s ∧ on cj s)) ∧
  base + (n_generated st - length prev) * grown_size (initial_size self)
  ≤ count_nonzero (occupied st).


(** A previous sample with the single cluster {0, 1} on the 5-site chain,
    resumed by a model with two clusters of initial size 2, and the previous
    sample of two clusters resumed by a model with one cluster. *)
Definition one_cluster_sample : Sample :=
  mkSample [[true; true; false; false; false]] [] [] ∅ None 0.

Definition growing_sampler : ClusterMCMC :=
  mkClusterMCMC [] [] 0 5 0 chain5 1 2 1 3 2 [] ∅ false (Some one_cluster_sample) 1.

Definition shrunk_sampler : ClusterMCMC :=
  mkClusterMCMC [] [] 0 5 0 chain5 1 1 1 3 2 [] ∅ false (Some previous_sample) 1.

(** ** The local variant of the cluster proposal *)

Section GibbsishLocal.

Variable self : ClusterMCMC.
Variable is_warmup : bool.
Variable warmup_max_size : list Z.
Variable logp : Type.
Variables Q_REJECT Q_BACK_REJECT : logp.
Variable log_sum : list Q → logp.
Variable logp_add : logp → logp → logp.
Variable posterior_cluster : Sample → nat → list bool → list Q.
Variable source_log_q_back : Sample → list bool → logp.
Variable gibbs_sample_sources : Sample → list bool → Rand → Sample * logp * Rand.
Variable random_random : nat → Rand → list Q * Rand.

(** [gibbsish_sample_clusters_local(sample, resample_source)]: the call
    passes [site_subset=get_neighbours] as its only keyword argument, which
    the callee does not read, and no chain index [c]. *)
Definition gibbsish_sample_clusters_local (sample : Sample) (resample_source : bool)
    (g : Rand) : outcome (Sample * logp * logp) * Rand :=
  gibbsish_sample_clusters self is_warmup warmup_max_size logp Q_REJECT Q_BACK_REJECT
    log_sum logp_add posterior_cluster source_log_q_back gibbs_sample_sources
    random_random sample resample_source None g.

End GibbsishLocal.

(** A sampler over 3 sites whose clusters may hold one to three sites. *)
Definition roomy_sampler : ClusterMCMC :=
  mkClusterMCMC [] [] 0 3 0 [] 1 1 1 3 1 [] ∅ false None 1.

(** ** The operator built for one confounder *)

Local Open Scope Q_scope.

(** Lines 524-533: the entry the loop adds for confounder [kv] when the
    source is sampled, for the fraction [r]. *)
Definition gibbs_entry (self : ClusterMCMC) (cfg : OperatorsConfig.t) (r : Q)
    (kv : string * list string) : string * Operator :=
  (("gibbs_sample_confounding_effects_" +:+ kv.1)%string,
   mkOperator (GibbsSampleConfoundingEffects kv.1
                 (default 0%nat (get_source_index self !! kv.1)))
              (r * OperatorsConfig.confounding_effects cfg)).

(** Lines 545-553: the entry it adds when the source is not sampled. *)
Definition alter_entry (cfg : OperatorsConfig.t) (r : Q)
    (kv : string * list string) : string * Operator :=
  (("alter_confounding_effects_" +:+ kv.1)%string,
   mkOperator (AlterConfoundingEffects kv.1)
              (OperatorsConfig.confounding_effects cfg * r)).

Local Close Scope Q_scope.

(** ** Nested configuration dictionaries (experiment_setup.py) *)

(** A value of the parsed configuration file: a dictionary (keys in
    insertion order) or anything else. *)
Local Unset Elimination Schemes.

Inductive value (A : Type) : Type :=
| Leaf (a : A)
| Dict (items : list (string * value A)).

Local Set Elimination Schemes.

Arguments Leaf {A} a.
Arguments Dict {A} items.

(** [d.get(k)]: [None] when [k not in d]. *)
Fixpoint dict_get {V} (k : string) (d : dict V) : option V :=
  match d with
  | [] => None
  | (k', v) :: d' => if decide (k = k') then Some v else dict_get k d'
  end.

(** [set_defaults(cfg, default_cfg)], by recursion on the defaults; the
    dictionary [cfg] is updated in place and returned, which the result
    stands for. The argument [default] is [Dict default_cfg]. *)
Fixpoint set_defaults_into {A} (default : value A) : dict (value A) → dict (value A) :=
  match default with
  | Leaf _ => λ cfg, cfg
  | Dict default_cfg =>
      (fix loop (default_cfg : list (string * value A)) (cfg : dict (value A))
         : dict (value A) :=
         match default_cfg with
         | [] => cfg
         | (key, dv) :: rest =>
             loop rest
               match dict_get key cfg with
               | None => dict_set key dv cfg
               | Some cv =>
                   match dv, cv with
                   | Dict _, Dict sub =>
                       dict_set key (Dict (set_defaults_into dv sub)) cfg
                   | _, _ => cfg
                   end
               end
         end) default_cfg
  end.

Definition set_defaults {A} (cfg default_cfg : dict (value A)) : dict (value A) :=
  set_defaults_into (Dict default_cfg) cfg.

(** [update_recursive(cfg, new_cfg)] *)
Fixpoint update_recursive_into {A} (new : value A) : dict (value A) → dict (value A) :=
  match new with
  | Leaf _ => λ cfg, cfg
  | Dict new_cfg =>
      (fix loop (new_cfg : list (string * value A)) (cfg : dict (value A))
         : dict (value A) :=
         match new_cfg with
         | [] => cfg
         | (key, nv) :: rest =>
             loop rest
               match dict_get key cfg, nv with
               | Some (Dict sub), Dict _ =>
                   dict_set key (Dict (update_recursive_into nv sub)) cfg
               | _, _ => dict_set key nv cfg
               end
         end) new_cfg
  end.

Definition update_recursive {A} (cfg new_cfg : dict (value A)) : dict (value A) :=
  update_recursive_into (Dict new_cfg) cfg.

(** [list(iter_items_recursive(cfg, loc))]: the triples (key, value, loc) of
    the entries that are not dictionaries, at every depth; [v] is [Dict cfg]. *)
Fixpoint iter_items_of {A} (v : value A) (loc : list string)
    : list (string * A * list string) :=
  match v with
  | Leaf _ => []
  | Dict cfg =>
      (fix loop (cfg : list (string * value A)) : list (string * A * list string) :=
         match cfg with
         | [] => []
         | (key, Leaf a) :: rest => (key, a, loc) :: loop rest
         | (key, (Dict _) as sub) :: rest => iter_items_of sub (loc ++ [key]) ++ loop rest
         end) cfg
  end.

Definition iter_items_recursive {A} (cfg : dict (value A)) (loc : list string)
    : list (string * A * list string) :=
  iter_items_of (Dict cfg) loc.

(** The outcome of a check of [verify_config]: [NameError] carries the keys
    [loc + (key,)] that the message lists. *)
Inductive checked : Type :=
| Passed
| NameError (where_ : list string)
| SpacingError
| DivisionByZero.

(** Lines 162-166 of [verify_config]: the first entry whose value is
    [REQUIRED] raises [NameError]; [is_required v] is [v == REQUIRED]. *)
Definition required_check {A} (is_required : A → bool) (cfg : dict (value A)) : checked :=
  match find (λ item : string * A * list string, is_required item.1.2)
             (iter_items_recursive cfg []) with
  | Some (key, _, loc) => NameError (loc ++ [key])
  | None => Passed
  end.

(** Lines 191-195: [steps % samples] on integers, which raises
    [ZeroDivisionError] for [samples = 0]; Python's [%] takes the sign of the
    divisor, as [Z.modulo] does. *)
Definition spacing_check (steps samples : Z) : checked :=
  if (samples =? 0)%Z then DivisionByZero
  else if (steps mod samples =? 0)%Z then Passed else SpacingError.

(** The path [loc + (key,)] is not defined in [cfg]: a key on the way is not
    in its dictionary. *)
Fixpoint undefined_in {A} (path : list string) (cfg : dict (value A)) : Prop :=
  match path with
  | [] => False
  | key :: path' =>
      match dict_get key cfg with
      | None => True
      | Some (Dict sub) => undefined_in path' sub
      | Some (Leaf _) => False
      end
  end.

(** [cfg[k1][k2]...[kn]] for the keys of [path], read from [v]; [None]
    when a key is missing or a value on the way is not a dictionary. *)
Fixpoint lookup_path {A} (path : list string) (v : value A) : option (value A) :=
  match path with
  | [] => Some v
  | key :: path' =>
      match v with
      | Leaf _ => None
      | Dict items =>
          match dict_get key items with
          | None => None
          | Some v' => lookup_path path' v'
          end
      end
  end.

Local Unset Elimination Schemes.

(** The dictionaries of a parsed file have no key twice, at any depth. *)
Inductive unique_keys {A} : value A → Prop :=
| unique_keys_leaf a : unique_keys (Leaf a)
| unique_keys_dict items :
    NoDup (fst <$> items) →
    Forall (λ kv, unique_keys kv.2) items →
    unique_keys (Dict items).

Local Set Elimination Schemes.

(** The dictionaries of the doctests, with the keys 0, 1, 2 as strings. *)
Definition doctest_cfg : dict (value nat) :=
  [("0", Leaf 0); ("1", Dict [("1", Leaf 0)]); ("2", Dict [("2", Leaf 1)])]%string.

Definition doctest_flat_cfg : dict (value nat) :=
  [("0", Leaf 0); ("1", Leaf 1); ("2", Leaf 2)]%string.

Definition doctest_other : dict (value nat) :=
  [("1", Dict [("1", Leaf 1)]); ("2", Dict [("1", Leaf 1); ("2", Leaf 2)])]%string.

(** A sampler for three clusters that resumes from the two clusters of
    [previous_sample]. *)
Definition extended_sampler : ClusterMCMC :=
  mkClusterMCMC (replicate 5 [[Some true; Some false]]) [[true; true]] 1 5 2 chain5
                1 3 1 3 1 [("family"%string, ["f1"%string])]
                {[ "family"%string := [[true; true; true; true; true]] ]}
                false (Some previous_sample) 1.


(** ** The program's doubles *)

(** Python's [float] and numpy's [float64] are IEEE 754 binary64 numbers with
    rounding to nearest, which is what the primitive floats compute. The
    definitions of this module follow the lines of their namesakes above
    with these numbers in place of exact fractions, for the statements that
    rounding decides. *)
Module Double.

Record Operator : Type := mkOperator { kind : operator_kind; weight : float }.

(** [OperatorsConfig] of sbayes.config *)
Record OperatorsConfig : Type := mkOperatorsConfig {
  clusters : float;
  weights : float;
  cluster_effect : float;
  confounding_effects : float;
  source : float
}.

Local Open Scope float_scope.

(** [a / b] on Python floats *)
Definition py_div (a b : float) : outcome float :=
  if b =? 0 then Raise ZeroDivisionError else Ok (a / b).

(** [sum(op['weight'] for op in operators.values())]: Python's [sum] starts
    from 0 and adds from left to right. *)
Definition total_weight (operators : dict Operator) : float :=
  foldl (λ acc kv, acc + weight kv.2) 0 operators.

(** [normalize_operator_weights(operators)] *)
Definition normalize_operator_weights (operators : dict Operator)
    : outcome (dict Operator) :=
  let total := total_weight operators in
  match operators with
  | [] => Ok []
  | _ =>
      if total =? 0 then Raise ZeroDivisionError
      else Ok ((λ kv, (kv.1, mkOperator (kind kv.2) (weight kv.2 / total))) <$> operators)
  end.

Section Operators.

Variable self : ClusterMCMC.
Variable operators_config : OperatorsConfig.

(** [float(1 / len(self.model.confounders))] *)
Definition confounder_fraction : outcome float :=
  py_div 1 (of_uint63 (Uint63.of_Z (Z.of_nat (length (confounders self))))).

Definition add_gibbs_confounding (r : float) (operators : dict Operator)
    (kv : string * list string) : outcome (dict Operator) :=
  match get_source_index self !! kv.1 with
  | None => Raise KeyError
  | Some idx =>
      Ok (dict_set ("gibbs_sample_confounding_effects_" +:+ kv.1)%string
            (mkOperator (GibbsSampleConfoundingEffects kv.1 idx)
               (r * confounding_effects operators_config))
            operators)
  end.

Definition add_alter_confounding (r : float) (operators : dict Operator)
    (kv : string * list string) : dict Operator :=
  dict_update operators
    [(("alter_confounding_effects_" +:+ kv.1)%string,
      mkOperator (AlterConfoundingEffects kv.1)
         (confounding_effects operators_config * r))].

(** Lines 484-553 *)
Definition build_operators : outcome (dict Operator) :=
  let operators :=
    [("sample_cluster"%string,
      mkOperator (AlterCluster (sample_source self)) (clusters operators_config))] in
  if sample_source self then
    let operators := dict_update operators
      [("gibbs_sample_sources"%string,
        mkOperator GibbsSampleSource (source operators_config));
       ("gibbs_sample_weights"%string,
        mkOperator GibbsSampleWeights (weights operators_config));
       ("gibbs_sample_cluster_effect"%string,
        mkOperator GibbsSampleClusterEffect (cluster_effect operators_config))] in
    r ← confounder_fraction;
    foldl (λ acc kv, operators ← acc; add_gibbs_confounding r operators kv)
          (Ok operators) (confounders self)
  else
    let operators := dict_update operators
      [("alter_weights"%string,
        mkOperator AlterWeights (weights operators_config));
       ("alter_cluster_effect"%string,
        mkOperator AlterClusterEffect (cluster_effect operators_config))] in
    r ← confounder_fraction;
    Ok (foldl (add_alter_confounding r) operators (confounders self)).

(** [get_operators(operators_config)] *)
Definition get_operators : outcome (dict Operator) :=
  operators ← build_operators;
  normalize_operator_weights operators.

End Operators.

(** [np.sum(row)] for a row of fewer than 8 entries: the entries are added
    one after the other. *)
Definition row_sum (row : list float) : float := foldl PrimFloat.add 0 row.

(** Modelled from the spec: [normalize] of sbayes.util, which is not part of
    the sources at hand: every row divided by its sum. *)
Definition normalize (x : list (list float)) : list (list float) :=
  (λ row, (λ v, v / row_sum row) <$> row) <$> x.

(** [generate_initial_weights]; [previous] is
    [self.initial_sample.weights.value] when there is an initial sample. *)
Definition generate_initial_weights (previous : option (list (list float)))
    (n_features n_sources : nat) : list (list float) :=
  normalize match previous with
            | Some w => w
            | None => replicate n_features (replicate n_sources 1)
            end.

End Double.




(** Four warm-up chains whose initial size, 14, is above the nominal
    maximum, 10. *)
Definition oversized_start : ClusterMCMC :=
  mkClusterMCMC [] [] 0 30 0 [] (7 # 10) 3 3 10 14 [] ∅ false None 4.

(** ** Effects computed from scratch *)




(** Three sites: site 0 has no neighbour, sites 1 and 2 are linked. *)
Definition isolated_and_edge : list (list bool) :=
  [ [false; false; false];
    [false; false; true];
    [false; true; false] ].

(** ** The draws of [np.random.choice(n, k, replace=False)] *)

(** The positions that [k] draws select in the shrinking pool: draw [i]
    reads one number of the tape and reduces it modulo the [n - i] elements
    that are left. *)
Fixpoint tape_indices (n k : nat) (g : Rand) : list nat :=
  match k with
  | 0 => []
  | S k' => let '(r, g') := draw g in (r mod n) :: tape_indices (n - 1) k' g'
  end.

(** The elements taken out of a pool at given positions, one after the
    other, each position counted in what is left of the pool. *)
Fixpoint pick (pool : list nat) (js : list nat) : list nat :=
  match js with
  | [] => []
  | j :: js' =>
      match pool !! j with
      | None => []
      | Some x => x :: pick (delete j pool) js'
      end
  end.

(** All sequences of [k] positions for a pool of [n] elements: position [i]
    is below [n - i]. A generator that draws uniformly makes them equally
    likely. *)
Fixpoint index_vectors (n k : nat) : list (list nat) :=
  match k with
  | 0 => [[]]
  | S k' => j ← seq 0 n; (cons j) <$> index_vectors (n - 1) k'
  end.

(** Lines 134-138 with the positions [js] in place of the generator: the
    pool that is left when [np.random.choice] selects at these positions. *)
Definition pool_of_draws (occupied cluster : list bool) (js : list nat) : list bool :=
  let available := vor (negb <$> occupied) cluster in
  let newly_available := negb <$> occupied in
  let n_newly_available := count_nonzero newly_available in
  mask_and available newly_available
    (foldr (λ i x, <[i := true]> x) (zeros n_newly_available)
           (pick (seq 0 n_newly_available) js)).

(** The unoccupied sites of a pool, as a set. *)
Definition kept_unoccupied (pool occupied : list bool) : gset nat :=
  list_to_set (nonzero (unoccupied_in pool occupied)).

(** A generator whose draws are 1, 4, 7, ... *)
Definition stride_tape : Rand := mkRand (λ p, 3 * p + 1) 0.


(** * Proofs *)

(** ** Boolean vectors *)

Lemma elem_of_nonzero_from (v : list bool) (i j : nat) :
  j ∈ nonzero_from i v ↔ ∃ k, j = i + k ∧ v !! k = Some true.
Proof.
  revert i. induction v as [|b v IH]; intros i; simpl.
  - split; [intros H; inversion H | intros (k & _ & H); discriminate].
  - rewrite elem_of_app, IH. split.
    + intros [H | (k & -> & H)].
      * destruct b; [|inversion H]. apply list_elem_of_singleton in H as ->.
        exists 0. split; [lia | done].
      * exists (S k). split; [lia | done].
    + intros (k & -> & H). destruct k as [|k]; simpl in H.
      * left. injection H as ->. rewrite Nat.add_0_r. apply list_elem_of_singleton. done.
      * right. exists k. split; [lia | done].
Qed.

Lemma elem_of_nonzero (v : list bool) (j : nat) : j ∈ nonzero v ↔ on v j.
Proof.
  unfold nonzero, on. rewrite elem_of_nonzero_from. split.
  - intros (k & -> & H). done.
  - intros H. exists j. done.
Qed.

Lemma NoDup_nonzero_from (v : list bool) (i : nat) : NoDup (nonzero_from i v).
Proof.
  revert i. induction v as [|b v IH]; intros i; simpl; [constructor|].
  destruct b; simpl; [|apply IH]. constructor; [|apply IH].
  rewrite elem_of_nonzero_from. intros (k & Hk & _). lia.
Qed.

Lemma NoDup_nonzero (v : list bool) : NoDup (nonzero v).
Proof. apply NoDup_nonzero_from. Qed.

(** The number of set sites is the length of any duplicate-free listing. *)
Lemma count_nonzero_members (v : list bool) (l : list nat) :
  NoDup l → (∀ i, on v i ↔ i ∈ l) → count_nonzero v = length l.
Proof.
  intros Hnd Hmem. unfold count_nonzero. apply Permutation_length.
  apply NoDup_Permutation; [apply NoDup_nonzero | done |].
  intros i. rewrite elem_of_nonzero. apply Hmem.
Qed.

Lemma np_any_true (v : list bool) : np_any v = true ↔ ∃ i, on v i.
Proof.
  unfold np_any, on. rewrite existsb_exists. split.
  - intros (b & Hin & Hb). unfold id in Hb. subst b.
    apply list_elem_of_In, list_elem_of_lookup in Hin. done.
  - intros (i & Hi). exists true. split; [|done].
    apply list_elem_of_In. eapply list_elem_of_lookup_2. done.
Qed.

Lemma on_zeros (n i : nat) : ¬ on (zeros n) i.
Proof.
  unfold on, zeros. intros H. apply lookup_replicate in H as [? _]. done.
Qed.

Lemma length_zeros (n : nat) : length (zeros n) = n.
Proof. apply length_replicate. Qed.

Lemma on_insert (v : list bool) (s i : nat) :
  s < length v → on (<[s := true]> v) i ↔ i = s ∨ on v i.
Proof.
  intros Hs. unfold on. destruct (decide (i = s)) as [->|Hne].
  - rewrite list_lookup_insert_eq by done. tauto.
  - rewrite list_lookup_insert_ne by done. split; [tauto | intros [?|?]; done].
Qed.

Lemma set_site_Ok (v v' : list bool) (s : nat) :
  set_site v s = Ok v' → s < length v ∧ v' = <[s := true]> v.
Proof.
  unfold set_site. destruct (Nat.ltb_spec s (length v)); [|done].
  intros [= <-]. done.
Qed.


(** ** The random source *)

Lemma choice_Some {A} (l : list A) (g g' : Rand) (x : A) :
  choice l g = Some (x, g') → x ∈ l ∧ g' = mkRand (tape g) (S (pos g)).
Proof.
  unfold choice, draw. destruct (l !! _) eqn:E; [|done].
  intros [= <- <-]. split; [|done]. eapply list_elem_of_lookup_2. done.
Qed.

Lemma choice_None {A} (l : list A) (g : Rand) : choice l g = None ↔ l = [].
Proof.
  unfold choice, draw. split.
  - destruct (l !! _) eqn:E; [done|]. intros _.
    apply lookup_ge_None in E. destruct l; [done|]. simpl in E.
    pose proof (Nat.mod_upper_bound (tape g (pos g)) (S (length l))). lia.
  - intros ->. done.
Qed.

(** ** Neighbours *)

Lemma dot_row_true (row cluster : list bool) :
  dot_row row cluster = true ↔ ∃ j, row !! j = Some true ∧ on cluster j.
Proof.
  unfold dot_row, on. rewrite existsb_exists. split.
  - intros ([a b] & Hin & Hab). simpl in Hab.
    apply andb_true_iff in Hab as [-> ->].
    apply list_elem_of_In, list_elem_of_lookup in Hin as [j Hj].
    exists j. apply lookup_zip_with_Some in Hj as (x & y & [= <- <-] & ? & ?). done.
  - intros (j & Hr & Hc). exists (true, true). split; [|done].
    apply list_elem_of_In. apply list_elem_of_lookup. exists j.
    apply lookup_zip_with_Some. exists true, true. done.
Qed.

Lemma on_get_neighbours (cluster already : list bool) (adj : list (list bool)) (i : nat) :
  on (get_neighbours cluster already adj) i ↔
  already !! i = Some false ∧ ∃ j, adjacent adj i j ∧ on cluster j.
Proof.
  unfold get_neighbours, on at 1. rewrite lookup_zip_with_Some. split.
  - intros (x & y & Hxy & Hx & Hy).
    symmetry in Hxy. apply andb_true_iff in Hxy as [-> ->].
    rewrite list_lookup_fmap in Hx. rewrite list_lookup_fmap in Hy.
    destruct (adj !! i) as [row|] eqn:Er; [|done]. simpl in Hx. injection Hx as Hx.
    destruct (already !! i) as [b|] eqn:Ea; [|done]. simpl in Hy. injection Hy as Hy.
    destruct b; [done|]. split; [done|].
    apply dot_row_true in Hx as (j & ? & ?). exists j. split; [|done]. exists row. done.
  - intros (Ha & j & (row & Hr & Hj) & Hc). exists true, true.
    rewrite !list_lookup_fmap, Hr, Ha. simpl. split; [done|]. split; [|done].
    f_equal. apply dot_row_true. exists j. done.
Qed.

(** ** Growth keeps the invariant *)

Section GrowthProofs.

Variable n_sites : nat.
Variable adj : list (list bool).

Lemma grown_from_connected (seed : nat) (l : list nat) :
  grown_from adj seed l → connected adj l.
Proof.
  intros Hg.
  assert (Hseed : seed ∈ l ∧ ∀ a, a ∈ l → rtc (linked adj l) seed a).
  { induction Hg as [|s l Hg [Hin IH] (j & Hj & Hadj)].
    - split; [apply list_elem_of_singleton; done|].
      intros a Ha. apply list_elem_of_singleton in Ha as ->. apply rtc_refl.
    - split; [apply elem_of_cons; right; done|].
      assert (Hmono : ∀ x y, rtc (linked adj l) x y → rtc (linked adj (s :: l)) x y).
      { intros x y Hxy. eapply rtc_subrel; [|exact Hxy].
        intros u v (? & ? & ?). split_and!; [apply elem_of_cons; by right..|done]. }
      intros a Ha. apply elem_of_cons in Ha as [->|Ha]; [|by apply Hmono, IH].
      eapply rtc_r; [apply Hmono, IH, Hj|].
      split_and!; [apply elem_of_cons; by right | apply elem_of_cons; by left | by right]. }
  destruct Hseed as [_ Hreach]. intros a b Ha Hb.
  transitivity seed; [|by apply Hreach].
  assert (Hsym : ∀ x y, linked adj l x y → linked adj l y x).
  { intros x y (? & ? & ?). split_and!; [done..|tauto]. }
  specialize (Hreach a Ha).
  clear -Hreach Hsym. induction Hreach as [|x y z Hxy _ IH]; [apply rtc_refl|].
  eapply rtc_r; [exact IH | by apply Hsym].
Qed.

Lemma seed_cluster_Ok (a0 c a : list bool) (g g' : Rand) :
  seed_cluster n_sites a0 g = (Ok c, a, g') →
  ∃ seed, seed < n_sites ∧ ¬ on a0 seed ∧ grow_inv adj seed a0 c a [seed] ∧
          length c = n_sites.
Proof.
  unfold seed_cluster. destruct (choice _ g) as [[i g1]|] eqn:Ec; [|done].
  destruct (set_site (zeros n_sites) i) as [c1|] eqn:E1; [|done].
  destruct (set_site a0 i) as [a1|] eqn:E2; [|done].
  intros [= <- <- <-].
  apply choice_Some in Ec as [Hi _]. unfold sites_free in Hi.
  apply list_elem_of_filter in Hi as [Hfree Hseq].
  rewrite elem_of_nonzero in Hfree.
  apply set_site_Ok in E1 as [Hlt ->]. apply set_site_Ok in E2 as [Hlt2 ->].
  rewrite length_zeros in Hlt.
  exists i. split_and!; [done | done | | by rewrite length_insert, length_zeros].
  unfold grow_inv. split_and!.
  - apply NoDup_singleton.
  - constructor.
  - intros j. rewrite on_insert by (by rewrite length_zeros).
    rewrite list_elem_of_singleton. pose proof (on_zeros n_sites j). tauto.
  - intros j. rewrite !on_insert by (done || by rewrite length_zeros).
    pose proof (on_zeros n_sites j). tauto.
  - intros j Hj. rewrite on_insert by (by rewrite length_zeros).
    pose proof (on_zeros n_sites j). intros [->|?]; tauto.
  - by rewrite length_insert.
Qed.

Lemma grow_inv_step (seed s : nat) (a0 c a : list bool) (order : list nat) :
  grow_inv adj seed a0 c a order →
  on (get_neighbours c a adj) s → s < length c → s < length a →
  grow_inv adj seed a0 (<[s := true]> c) (<[s := true]> a) (s :: order).
Proof.
  intros (Hnd & Hg & Hmem & Hocc & Hdisj & Hlen) Hs Hlc Hla.
  apply on_get_neighbours in Hs as (Hfree & j & Hadj & Hj).
  assert (Hnot : ¬ on a s) by (unfold on; rewrite Hfree; done).
  unfold grow_inv. split_and!.
  - constructor; [|done]. rewrite <- Hmem. intros Hc. apply Hnot, Hocc. by right.
  - constructor; [done|]. exists j. split; [by apply Hmem | done].
  - intros i. rewrite on_insert, elem_of_cons, Hmem by done. done.
  - intros i. rewrite !on_insert, Hocc by done. tauto.
  - intros i Hi. rewrite on_insert by done. intros [->|Hc]; [|by eapply Hdisj].
    apply Hnot, Hocc. by left.
  - by rewrite length_insert.
Qed.

Lemma grow_steps_Ok (n : nat) (seed : nat) (a0 c a cl occ : list bool)
    (order : list nat) (g g' : Rand) :
  grow_inv adj seed a0 c a order →
  grow_steps adj n c a g = (Ok cl, occ, g') →
  ∃ order', length order' = n + length order ∧ grow_inv adj seed a0 cl occ order' ∧
            length cl = length c.
Proof.
  revert c a order g. induction n as [|n IH]; intros c a order g Hinv; simpl.
  - intros [= <- <- <-]. exists order. done.
  - destruct (np_any _) eqn:Eany; simpl; [|done].
    destruct (choice _ g) as [[s g1]|] eqn:Ec; [|done].
    destruct (set_site c s) as [c1|] eqn:E1; [|done].
    destruct (set_site a s) as [a1|] eqn:E2; [|done].
    apply choice_Some in Ec as [Hs _]. apply elem_of_nonzero in Hs.
    apply set_site_Ok in E1 as [Hlt ->]. apply set_site_Ok in E2 as [Hlt2 ->].
    intros Hrun. eapply IH in Hrun as (order' & Hlen & Hinv' & Hl);
      [|by apply grow_inv_step].
    exists order'. split_and!; [simpl in Hlen; lia | done |].
    by rewrite Hl, length_insert.
Qed.

(** ** When growth raises [ClusterError] *)

Lemma seed_cluster_ClusterError (a0 : list bool) (g : Rand) :
  result_of (seed_cluster n_sites a0 g) = Raise ClusterError ↔ sites_free n_sites a0 = [].
Proof.
  unfold seed_cluster, result_of. destruct (choice _ g) as [[i g1]|] eqn:Ec.
  - assert (Hne : sites_free n_sites a0 ≠ []).
    { intros Hnil. apply (choice_None _ g) in Hnil. congruence. }
    apply choice_Some in Ec as [Hi _]. apply list_elem_of_filter in Hi as [_ Hi].
    apply elem_of_seq in Hi.
    unfold set_site at 1. rewrite length_zeros.
    destruct (Nat.ltb_spec i n_sites); [|lia].
    unfold set_site. destruct (_ <? _); simpl; split; done.
  - apply choice_None in Ec. simpl. done.
Qed.


(** A call never clears a site of the caller's array, whatever its outcome. *)
Lemma grow_steps_mono (n : nat) (c a : list bool) (g : Rand) (i : nat) :
  on a i → on (grow_steps adj n c a g).1.2 i.
Proof.
  revert c a g. induction n as [|n IH]; intros c a g Ha; simpl; [done|].
  destruct (np_any _); simpl; [|done].
  destruct (choice _ g) as [[s g1]|]; [|done].
  destruct (set_site c s) as [c1|]; [|done].
  destruct (set_site a s) as [a1|] eqn:E2; [|done].
  apply set_site_Ok in E2 as [Hlt ->]. apply IH, on_insert; [done | by right].
Qed.

Lemma seed_cluster_mono (a0 : list bool) (g : Rand) (i : nat) :
  on a0 i → on (seed_cluster n_sites a0 g).1.2 i.
Proof.
  intros Ha. unfold seed_cluster. destruct (choice _ g) as [[s g1]|]; [|done].
  destruct (set_site (zeros n_sites) s) as [c1|]; [|done].
  destruct (set_site a0 s) as [a1|] eqn:E2; [|done].
  apply set_site_Ok in E2 as [Hlt ->]. simpl. apply on_insert; [done | by right].
Qed.

Lemma grow_steps_length (n : nat) (c a : list bool) (g : Rand) :
  length (grow_steps adj n c a g).1.2 = length a.
Proof.
  revert c a g. induction n as [|n IH]; intros c a g; simpl; [done|].
  destruct (np_any _); simpl; [|done].
  destruct (choice _ g) as [[s g1]|]; [|done].
  destruct (set_site c s) as [c1|]; [|done].
  destruct (set_site a s) as [a1|] eqn:E2; [|done].
  apply set_site_Ok in E2 as [Hlt ->]. by rewrite IH, length_insert.
Qed.

Lemma seed_cluster_length (a0 : list bool) (g : Rand) :
  length (seed_cluster n_sites a0 g).1.2 = length a0.
Proof.
  unfold seed_cluster. destruct (choice _ g) as [[s g1]|]; [|done].
  destruct (set_site (zeros n_sites) s) as [c1|]; [|done].
  destruct (set_site a0 s) as [a1|] eqn:E2; [|done].
  apply set_site_Ok in E2 as [Hlt ->]. simpl. by rewrite length_insert.
Qed.

(** With arrays of the right length the only exception is [ClusterError]. *)
Lemma grow_steps_only_ClusterError (n : nat) (c a : list bool) (g : Rand) (e : exn) :
  length c = length a →
  result_of (grow_steps adj n c a g) = Raise e → e = ClusterError.
Proof.
  revert c a g. induction n as [|n IH]; intros c a g Hlen; simpl; [done|].
  destruct (np_any _) eqn:Eany; simpl; [|by intros [= <-]].
  destruct (choice _ g) as [[s g1]|] eqn:Ec.
  - apply choice_Some in Ec as [Hs _]. apply elem_of_nonzero in Hs.
    apply on_get_neighbours in Hs as [Hs _]. apply lookup_lt_Some in Hs.
    unfold set_site. destruct (Nat.ltb_spec s (length c)); [|lia].
    destruct (Nat.ltb_spec s (length a)); [|lia].
    apply IH. by rewrite !length_insert.
  - apply choice_None in Ec. apply np_any_true in Eany as [i Hi].
    apply elem_of_nonzero in Hi. rewrite Ec in Hi. inversion Hi.
Qed.

(** *** The whole call *)

Lemma grow_cluster_Ok (k : Z) (already : option (list bool)) (g g' : Rand)
    (cl occ : list bool) :
  grow_cluster_of_size_k n_sites adj k already g = (Ok cl, occ, g') →
  ∃ seed order,
    length order = S (Z.to_nat (k - 1)) ∧
    grow_inv adj seed (default (zeros n_sites) already) cl occ order ∧
    length cl = n_sites.
Proof.
  unfold grow_cluster_of_size_k.
  destruct (seed_cluster _ _ g) as [[[c|e] a] g1] eqn:Es; [|done].
  apply seed_cluster_Ok in Es as (seed & _ & _ & Hinv & Hlc).
  intros Hrun. eapply grow_steps_Ok in Hrun as (order & Hlen & Hinv' & Hl); [|done].
  exists seed, order. split_and!; [simpl in Hlen; lia | done | congruence].
Qed.

Lemma grow_cluster_mono (k : Z) (already : option (list bool)) (g : Rand) (i : nat) :
  on (default (zeros n_sites) already) i →
  on (grow_cluster_of_size_k n_sites adj k already g).1.2 i.
Proof.
  intros Ha. unfold grow_cluster_of_size_k.
  pose proof (seed_cluster_mono _ g i Ha) as Hs.
  destruct (seed_cluster _ _ g) as [[[c|e] a] g1]; [|done].
  by apply grow_steps_mono.
Qed.

Lemma grow_cluster_length (k : Z) (already : option (list bool)) (g : Rand) :
  length (grow_cluster_of_size_k n_sites adj k already g).1.2 =
  length (default (zeros n_sites) already).
Proof.
  unfold grow_cluster_of_size_k.
  pose proof (seed_cluster_length (default (zeros n_sites) already) g) as Hs.
  destruct (seed_cluster _ _ g) as [[[c|e] a] g1]; [|done].
  by rewrite grow_steps_length.
Qed.

Lemma grow_cluster_only_ClusterError (k : Z) (already : option (list bool))
    (g : Rand) (e : exn) :
  length (default (zeros n_sites) already) = n_sites →
  result_of (grow_cluster_of_size_k n_sites adj k already g) = Raise e →
  e = ClusterError.
Proof.
  intros Hlen. unfold grow_cluster_of_size_k.
  destruct (seed_cluster _ _ g) as [[[c|e'] a] g1] eqn:Es.
  - pose proof (seed_cluster_length (default (zeros n_sites) already) g) as Hs.
    rewrite Es in Hs. simpl in Hs.
    apply seed_cluster_Ok in Es as (_ & _ & _ & _ & Hlc).
    apply grow_steps_only_ClusterError. congruence.
  - unfold result_of. simpl. intros [= ->]. revert Es. unfold seed_cluster.
    destruct (choice _ g) as [[i g2]|] eqn:Ec; [|by intros [= <-]].
    apply choice_Some in Ec as [Hi _]. apply list_elem_of_filter in Hi as [_ Hi].
    apply elem_of_seq in Hi. unfold set_site. rewrite length_zeros, Hlen.
    destruct (Nat.ltb_spec i n_sites); [done | lia].
Qed.


End GrowthProofs.

(** C1. For every [k >= 1] and every excluded-site vector, a call of
    [grow_cluster_of_size_k] that returns yields a membership vector with
    exactly [k] sites, and these sites are connected in the adjacency graph:
    they are the seed followed by [k - 1] sites, each adjacent to a site that
    was already in the cluster when it was added. *)
Theorem grow_cluster_size_connected (n_sites : nat) (adj : list (list bool))
    (k : Z) (already : option (list bool)) (g g' : Rand) (cl occ : list bool) :
  (1 ≤ k)%Z →
  grow_cluster_of_size_k n_sites adj k already g = (Ok cl, occ, g') →
  Z.of_nat (count_nonzero cl) = k ∧
  ∃ seed order,
    NoDup order ∧ Z.of_nat (length order) = k ∧ (∀ i, on cl i ↔ i ∈ order) ∧
    grown_from adj seed order ∧ connected adj order.
Proof.
  intros Hk Hrun.
  apply grow_cluster_Ok in Hrun as (seed & order & Hlen & Hinv & _).
  destruct Hinv as (Hnd & Hg & Hmem & _).
  split.
  - rewrite (count_nonzero_members cl order) by done. lia.
  - exists seed, order. split_and!; [done | lia | done | done |].
    by eapply grown_from_connected.
Qed.

(** The 5-site chain 0-1-2-3-4 of the spec's scenario. *)
Lemma grow_cluster_size_connected_witness :
  Z.of_nat (count_nonzero [true; true; true; false; false]) = 3%Z ∧
  ∃ seed order,
    NoDup order ∧ Z.of_nat (length order) = 3%Z ∧
    (∀ i, on [true; true; true; false; false] i ↔ i ∈ order) ∧
    grown_from chain5 seed order ∧ connected chain5 order.
Proof.
  apply (grow_cluster_size_connected 5 chain5 3 None (mkRand (λ _, 2) 0)
           (mkRand (λ _, 2) 3) _ [true; true; true; false; false]).
  - lia.
  - vm_compute. reflexivity.
Defined.


(** ** Initial clusters: the retry loop *)

Section InitialClustersProofs.

Variable self : ClusterMCMC.

Lemma assign_row_Ok {A} (ok : A → bool) (M : list A) (i : nat) (v : A) :
  i < length M → ok v = true → assign_row ok M i v = Ok (<[i := v]> M).
Proof.
  intros Hi Hv. unfold assign_row. rewrite Hv.
  destruct (Nat.ltb_spec i (length M)); [done | lia].
Qed.

Lemma assign_row_inv {A} (ok : A → bool) (M M' : list A) (i : nat) (v : A) :
  assign_row ok M i v = Ok M' → i < length M ∧ ok v = true ∧ M' = <[i := v]> M.
Proof.
  unfold assign_row. destruct (Nat.ltb_spec i (length M)); [|done].
  destruct (ok v); [|done]. intros [= <-]. done.
Qed.

(** What one pass of the [for] loop does to the state. *)
Lemma grow_remaining_spec (m : nat) (st st' : gen_state) (ex : for_exit) :
  gen_wf self st → n_generated st + m ≤ n_clusters self →
  grow_remaining self (seq (n_generated st) m) st = (ex, st') →
  gen_wf self st' ∧
  (gen_disjoint st → gen_disjoint st') ∧
  match ex with
  | Completed => n_generated st' = n_generated st + m ∧ attempts st' = attempts st
  | Broke => attempts st' = S (attempts st)
  | Raised e => e = ValueError ∧ attempts st' = max_attempts
  end.
Proof.
  revert st. induction m as [|m IH]; intros st Hwf Hm; simpl.
  - intros [= <- <-]. split; [|split]; [done | done | lia].
  - destruct Hwf as (Hlic & Hlocc & Hng & Hatt).
    destruct (grow_cluster_of_size_k _ _ _ _ _) as [[[cl|e] occ'] g'] eqn:Eg.
    + pose proof (grow_cluster_length (n_sites self) (adj_mat self) (initial_size self)
                    (Some (occupied st)) (rand st)) as Hlen.
      rewrite Eg in Hlen. simpl in Hlen.
      apply grow_cluster_Ok in Eg as (seed & order & _ & Hinv & Hlcl).
      destruct Hinv as (_ & _ & _ & Hocc & Hdisj & _). simpl in Hocc, Hdisj.
      rewrite assign_row_Ok;
        [| lia | unfold vector_shape; by apply Nat.eqb_eq].
      intros Hrun.
      apply (IH (mkGen (S (n_generated st)) _ occ' (attempts st) g')) in Hrun
        as (Hwf' & Hd' & Hex).
      * split; [|split]; [done | | ].
        -- intros [Hsub Hpair]. apply Hd'. split; simpl.
           ++ intros i ci s Hi Hci Hs. apply Hocc.
              destruct (decide (i = n_generated st)) as [->|Hne].
              ** rewrite list_lookup_insert_eq in Hci by lia.
                 injection Hci as <-. by right.
              ** rewrite list_lookup_insert_ne in Hci by done.
                 left. eapply Hsub; [|done..]. lia.
           ++ intros i j ci cj s Hi Hj Hij Hci Hcj [Hsi Hsj].
              destruct (decide (i = n_generated st)) as [->|Hni];
                destruct (decide (j = n_generated st)) as [->|Hnj]; [done | | | ].
              ** rewrite list_lookup_insert_eq in Hci by lia. injection Hci as <-.
                 rewrite list_lookup_insert_ne in Hcj by done.
                 eapply Hdisj; [|exact Hsi]. eapply Hsub; [|done..]. lia.
              ** rewrite list_lookup_insert_eq in Hcj by lia. injection Hcj as <-.
                 rewrite list_lookup_insert_ne in Hci by done.
                 eapply Hdisj; [|exact Hsj]. eapply Hsub; [|done..]. lia.
              ** rewrite list_lookup_insert_ne in Hci, Hcj by done.
                 eapply (Hpair i j); [| | done..]; lia.
        -- destruct ex; simpl in Hex; [lia | done | done].
      * split_and!; simpl; [by rewrite length_insert | lia | lia | done].
      * simpl. lia.
    + pose proof (grow_cluster_length (n_sites self) (adj_mat self) (initial_size self)
                    (Some (occupied st)) (rand st)) as Hlen.
      pose proof (λ i, grow_cluster_mono (n_sites self) (adj_mat self)
                    (initial_size self) (Some (occupied st)) (rand st) i) as Hmono.
      pose proof (grow_cluster_only_ClusterError (n_sites self) (adj_mat self)
                    (initial_size self) (Some (occupied st)) (rand st) e Hlocc) as He.
      rewrite Eg in Hlen, Hmono, He. simpl in Hlen, Hmono. unfold result_of in He.
      simpl in He. specialize (He eq_refl). subst e.
      assert (Hkeep : ∀ ng att,
        gen_disjoint st →
        ng = n_generated st →
        gen_disjoint (mkGen ng (initial_clusters st) occ' att g')).
      { intros ng att [Hsub Hpair] ->. split; simpl.
        - intros i ci s Hi Hci Hs. apply Hmono. by eapply Hsub.
        - done. }
      destruct (Nat.ltb_spec (attempts st) max_attempts); intros [= <- <-].
      * split; [|split]; [split_and!; simpl; [done | lia | lia | lia] | by eauto | done].
      * split; [|split]; [split_and!; simpl; [done | lia | lia | lia] | by eauto | ].
        split; [done | simpl; lia].
Qed.

(** What the [while True] loop returns, whatever the budget. *)
Lemma generate_loop_result (fuel : nat) (st : gen_state) :
  gen_wf self st →
  match generate_loop self fuel st with
  | Returned cls st' =>
      cls = initial_clusters st' ∧ gen_wf self st' ∧
      n_generated st' = n_clusters self ∧ (gen_disjoint st → gen_disjoint st')
  | Failed e st' => e = ValueError ∧ attempts st' = max_attempts
  | OutOfFuel => True
  end.
Proof.
  revert st. induction fuel as [|fuel IH]; intros st Hwf; [done|]. simpl.
  destruct (grow_remaining _ _ st) as [ex st'] eqn:Er.
  apply grow_remaining_spec in Er as (Hwf' & Hd & Hex);
    [| done | destruct Hwf as (_ & _ & ? & _); lia].
  assert (Hrec : match ex with Raised _ => True | _ =>
    match (if n_generated st' =? n_clusters self
           then Returned (initial_clusters st') st'
           else generate_loop self fuel st') with
    | Returned cls st2 =>
        cls = initial_clusters st2 ∧ gen_wf self st2 ∧
        n_generated st2 = n_clusters self ∧ (gen_disjoint st → gen_disjoint st2)
    | Failed e st2 => e = ValueError ∧ attempts st2 = max_attempts
    | OutOfFuel => True
    end end).
  { destruct (Nat.eqb_spec (n_generated st') (n_clusters self)); [by destruct ex|].
    specialize (IH st' Hwf').
    destruct (generate_loop self fuel st') as [cls st2|e st2|]; destruct ex; try done.
    all: destruct IH as (? & ? & ? & Hd2); split_and!; [done..|]; eauto. }
  destruct ex; done.
Qed.

(** The [while True] loop ends within [max_attempts + 1] passes. *)
Lemma generate_loop_terminates (fuel : nat) (st : gen_state) :
  gen_wf self st → max_attempts - attempts st < fuel →
  generate_loop self fuel st ≠ OutOfFuel.
Proof.
  revert st. induction fuel as [|fuel IH]; intros st Hwf Hfuel; [lia|]. simpl.
  destruct (grow_remaining _ _ st) as [ex st'] eqn:Er.
  apply grow_remaining_spec in Er as (Hwf' & _ & Hex);
    [| done | destruct Hwf as (_ & _ & ? & _); lia].
  destruct ex; [| |done].
  - destruct Hex as [Hn _]. destruct Hwf as (_ & _ & ? & _).
    destruct (Nat.eqb_spec (n_generated st') (n_clusters self)); [done | lia].
  - destruct (Nat.eqb_spec (n_generated st') (n_clusters self)); [done|].
    assert (Hatt : attempts st' ≤ max_attempts) by (by destruct Hwf' as (_ & _ & _ & ?)).
    apply IH; [done | lia].
Qed.



Lemma gen_wf_initial (g : Rand) :
  gen_wf self (mkGen 0 (replicate (n_clusters self) (zeros (n_sites self)))
                     (zeros (n_sites self)) 0 g).
Proof.
  split_and!; simpl; [by rewrite length_replicate | by rewrite length_zeros | lia | lia].
Qed.

End InitialClustersProofs.

(** Two isolated sites and a cluster of size 2: every attempt fails, and the
    run ends in the fatal error after exactly 1000 retries. *)
Example generate_initial_clusters_gives_up :
  ∃ st, generate_initial_clusters (growth_only 2 isolated2 1 2) 1001 (mkRand (λ _, 0) 0)
        = Failed ValueError st ∧ attempts st = 1000.
Proof. eexists. split; vm_compute; reflexivity. Qed.

(** A seed without neighbour raises [ClusterError]. *)
Example grow_isolated_seed :
  result_of (grow_cluster_of_size_k 2 isolated2 2 None (mkRand (λ _, 0) 0))
  = Raise ClusterError.
Proof. vm_compute. reflexivity. Qed.

(** C10. The cluster returned by [grow_cluster_of_size_k] shares no site with
    the excluded vector it was given, and the second returned vector is the
    union of that vector and the new cluster. Hence the clusters that
    [generate_initial_clusters] grows from scratch are pairwise disjoint. *)
Theorem grown_clusters_disjoint (n : nat) (adj : list (list bool))
    (k : Z) (already : option (list bool)) (g g' : Rand) (cl occ : list bool)
    (self : ClusterMCMC) (fuel : nat) (g2 : Rand)
    (cls : list (list bool)) (st : gen_state) :
  (grow_cluster_of_size_k n adj k already g = (Ok cl, occ, g') →
   (∀ i, ¬ (on (default (zeros n) already) i ∧ on cl i)) ∧
   (∀ i, on occ i ↔ on (default (zeros n) already) i ∨ on cl i) ∧
   length occ = length (default (zeros n) already) ∧
   (length (default (zeros n) already) = n → occ = vor (default (zeros n) already) cl)) ∧
  (initial_sample self = None →
   generate_initial_clusters self fuel g2 = Returned cls st →
   ∀ i j ci cj s, i ≠ j → cls !! i = Some ci → cls !! j = Some cj →
                  ¬ (on ci s ∧ on cj s)).
Proof.
  split.
  - intros Hrun. apply grow_cluster_Ok in Hrun as (seed & order & _ & Hinv & Hlcl).
    destruct Hinv as (_ & _ & _ & Hocc & Hdisj & Hlen).
    split_and!; [intros i [? ?]; by eapply Hdisj | done | done |].
    intros Hn. apply list_eq. intros i. unfold vor. rewrite lookup_zip_with.
    specialize (Hocc i). specialize (Hdisj i). unfold on in *.
    destruct (default (zeros n) already !! i) as [x|] eqn:Ex; simpl.
    + destruct (cl !! i) as [y|] eqn:Ey; simpl.
      * destruct (occ !! i) as [z|] eqn:Ez.
        -- f_equal. clear -Hocc. destruct Hocc as [H1 H2].
           destruct z.
           ++ destruct H1 as [[= ->]|[= ->]]; [done.. | by destruct x].
           ++ destruct x; [by discriminate H2; left|].
              destruct y; [by discriminate H2; right | done].
        -- apply lookup_ge_None in Ez. apply lookup_lt_Some in Ex. lia.
      * apply lookup_ge_None in Ey. apply lookup_lt_Some in Ex. lia.
    + apply lookup_ge_None in Ex. apply lookup_ge_None. lia.
  - intros Hnone. unfold generate_initial_clusters. rewrite Hnone.
    destruct (n_clusters self =? 0).
    { intros [= <- <-]. intros i j ci cj s _ Hci. by rewrite lookup_nil in Hci. }
    pose proof (gen_wf_initial self g2) as Hwf0.
    set (st0 := mkGen 0 _ _ 0 g2) in *.
    intros Hrun.
    pose proof (generate_loop_result self fuel st0 Hwf0) as Hspec.
    rewrite Hrun in Hspec. destruct Hspec as (-> & (Hlen & _) & Hng & Hd).
    destruct Hd as [_ Hpair]; [split; simpl; intros; lia|].
    intros i j ci cj s Hij Hci Hcj.
    apply (Hpair i j ci cj s); [| | done..].
    + apply lookup_lt_Some in Hci. lia.
    + apply lookup_lt_Some in Hcj. lia.
Qed.

(** On the 5-site chain with sites 1 and 2 excluded, and for two clusters of
    size 2 grown from scratch. *)
Lemma grown_clusters_disjoint_witness :
  ((∀ i, ¬ (on [false; true; true; false; false] i ∧
            on [false; false; false; true; true] i)) ∧
   (∀ i, on [false; true; true; true; true] i ↔
         on [false; true; true; false; false] i ∨
         on [false; false; false; true; true] i) ∧
   length [false; true; true; true; true] = length [false; true; true; false; false] ∧
   (length [false; true; true; false; false] = 5 →
    [false; true; true; true; true] =
    vor [false; true; true; false; false] [false; false; false; true; true])) ∧
  (∀ i j ci cj s, i ≠ j →
     [[false; true; true; false; false]; [false; false; false; true; true]] !! i = Some ci →
     [[false; true; true; false; false]; [false; false; false; true; true]] !! j = Some cj →
     ¬ (on ci s ∧ on cj s)).
Proof.
  pose proof (grown_clusters_disjoint 5 chain5 2
                (Some [false; true; true; false; false])
                (mkRand (λ _, 2) 0) (mkRand (λ _, 2) 2)
                [false; false; false; true; true] [false; true; true; true; true]
                (growth_only 5 chain5 2 2) 5 (mkRand (λ _, 2) 0)
                [[false; true; true; false; false]; [false; false; false; true; true]]
                (mkGen 2 [[false; true; true; false; false]; [false; false; false; true; true]]
                       [false; true; true; true; true] 0 (mkRand (λ _, 2) 4)))
    as [H1 H2].
  split.
  - apply H1. vm_compute. reflexivity.
  - apply H2; [reflexivity | vm_compute; reflexivity].
Defined.


(** ** The candidate pool *)

Lemma nonzero_from_length (v : list bool) (i j : nat) :
  length (nonzero_from i v) = length (nonzero_from j v).
Proof.
  revert i j. induction v as [|b v IH]; intros i j; simpl; [done|].
  rewrite !length_app, (IH (S i) (S j)). by destruct b.
Qed.

Lemma count_nonzero_cons (b : bool) (v : list bool) :
  count_nonzero (b :: v) = (if b then 1 else 0) + count_nonzero v.
Proof.
  unfold count_nonzero, nonzero. simpl.
  rewrite length_app, (nonzero_from_length v 1 0). by destruct b.
Qed.

Lemma choice_no_replace_spec (k : nat) (pool : list nat) (g : Rand) :
  NoDup pool → k ≤ length pool →
  NoDup (choice_no_replace pool k g).1 ∧
  length (choice_no_replace pool k g).1 = k ∧
  (∀ x, x ∈ (choice_no_replace pool k g).1 → x ∈ pool).
Proof.
  revert pool g. induction k as [|k IH]; intros pool g Hnd Hk; simpl.
  - split_and!; [constructor | done | intros x Hx; inversion Hx].
  - set (j := tape g (pos g) mod length pool).
    assert (Hj : j < length pool) by (apply Nat.mod_upper_bound; lia).
    destruct (lookup_lt_is_Some_2 pool j Hj) as [x Hx]. rewrite Hx.
    assert (Hsplit : pool = take j pool ++ x :: drop (S j) pool)
      by (symmetry; by apply take_drop_middle).
    assert (Hdel : delete j pool = take j pool ++ drop (S j) pool)
      by apply delete_take_drop.
    assert (Hnd' : NoDup (delete j pool) ∧ x ∉ delete j pool).
    { rewrite Hsplit in Hnd. apply NoDup_app in Hnd as (H1 & H2 & H3).
      apply NoDup_cons in H3 as [H3 H4]. rewrite Hdel. split.
      - apply NoDup_app. split_and!; [done | | done].
        intros y Hy1 Hy2. apply (H2 y Hy1). by right.
      - rewrite elem_of_app. intros [Hin|Hin]; [|done]. apply (H2 x Hin). by left. }
    destruct Hnd' as [Hnd1 Hnx].
    assert (Hlen : length (delete j pool) = length pool - 1)
      by (apply length_delete; by eexists).
    specialize (IH (delete j pool) (mkRand (tape g) (S (pos g))) Hnd1 ltac:(lia)).
    destruct (choice_no_replace (delete j pool) k _) as [rest g2]. simpl in *.
    destruct IH as (IH1 & IH2 & IH3).
    assert (Hsub : ∀ y, y ∈ delete j pool → y ∈ pool).
    { intros y. apply list_elem_of_delete_inv. }
    split_and!.
    + constructor; [|done]. intros Hin. by apply Hnx, IH3.
    + lia.
    + intros y Hy. apply elem_of_cons in Hy as [->|Hy].
      * by eapply list_elem_of_lookup_2.
      * by apply Hsub, IH3.
Qed.

Lemma indicator_spec (n : nat) (s : list nat) :
  length (foldr (λ i x, <[i := true]> x) (zeros n) s) = n ∧
  ∀ j, on (foldr (λ i x, <[i := true]> x) (zeros n) s) j ↔ j ∈ s ∧ j < n.
Proof.
  induction s as [|i s [IHl IH]]; simpl.
  - split; [apply length_zeros|]. intros j. split.
    + intros H. by apply on_zeros in H.
    + intros [H _]. inversion H.
  - split; [by rewrite length_insert|]. intros j.
    destruct (decide (i < n)) as [Hi|Hi].
    + rewrite on_insert by lia. rewrite IH, elem_of_cons. split; [|tauto].
      intros [->|?]; tauto.
    + rewrite list_insert_ge by lia. rewrite IH, elem_of_cons. split; [tauto|].
      intros [[->|?] ?]; [lia | done].
Qed.

Lemma random_subset_spec (n k : nat) (g : Rand) :
  k ≤ n →
  length (random_subset n k g).1 = n ∧ count_nonzero (random_subset n k g).1 = k.
Proof.
  intros Hk. unfold random_subset.
  pose proof (choice_no_replace_spec k (seq 0 n) g (NoDup_seq 0 n)
                ltac:(by rewrite length_seq)) as (Hnd & Hlen & Hin).
  destruct (choice_no_replace (seq 0 n) k g) as [s g']. simpl in *.
  destruct (indicator_spec n s) as [Hl Hon]. split; [done|].
  rewrite (count_nonzero_members _ s); [done | done |].
  intros j. rewrite Hon. split; [tauto|]. intros Hj. split; [done|].
  apply Hin, elem_of_seq in Hj. lia.
Qed.

Lemma mask_and_keep (a m v : list bool) (s : nat) :
  m !! s ≠ Some true → mask_and a m v !! s = a !! s.
Proof.
  revert m v s. induction a as [|x a IH]; intros m v s Hs; [done|].
  destruct m as [|[] m]; [done| |]; destruct s as [|s]; simpl in *; try done.
  - destruct v; simpl; by apply IH.
  - by apply IH.
Qed.

Lemma mask_and_on (a m v : list bool) (s : nat) : on (mask_and a m v) s → on a s.
Proof.
  unfold on. revert m v s. induction a as [|x a IH]; intros m v s; [done|].
  destruct m as [|[] m]; [done| |].
  - destruct v as [|v0 v]; destruct s as [|s]; simpl; try done; try apply IH.
    intros [= H]. apply andb_true_iff in H as [-> _]. done.
  - destruct s as [|s]; simpl; [done | apply IH].
Qed.

Lemma mask_and_count (a m v : list bool) :
  Forall2 (λ x y, y = true → x = true) a m →
  length v = count_nonzero m →
  count_nonzero (zip_with andb (mask_and a m v) m) = count_nonzero v.
Proof.
  intros Hall. revert v. induction Hall as [|x y a m Hxy Hall IH]; intros v Hv.
  - simpl. destruct v; [done | discriminate Hv].
  - rewrite count_nonzero_cons in Hv. destruct y; simpl.
    + rewrite Hxy by done. destruct v as [|v0 v]; [simpl in Hv; lia|].
      simpl in Hv. simpl. rewrite !count_nonzero_cons, IH by lia.
      by destruct v0.
    + rewrite count_nonzero_cons, andb_false_r. simpl. by apply IH.
Qed.

Lemma zip_with_andb_self_count (a m : list bool) :
  Forall2 (λ x y, y = true → x = true) a m →
  count_nonzero (zip_with andb a m) = count_nonzero m.
Proof.
  induction 1 as [|x y a m Hxy Hall IH]; [done|]. simpl.
  rewrite !count_nonzero_cons, IH. destruct y; [by rewrite Hxy | by rewrite andb_false_r].
Qed.

(** Every row of a rectangular cluster matrix is below [np.any(., axis=0)]. *)
Lemma np_any_axis0_spec (n : nat) (rows : list (list bool)) :
  Forall (λ r, length r = n) rows →
  length (np_any_axis0 n rows) = n ∧
  ∀ i row s, rows !! i = Some row → on row s → on (np_any_axis0 n rows) s.
Proof.
  induction 1 as [|r rows Hr Hall [IHl IH]]; simpl.
  - split; [apply length_zeros | done].
  - split; [unfold vor; rewrite length_zip_with; lia|].
    intros i row s Hi Hs. unfold on, vor. rewrite lookup_zip_with.
    destruct (lookup_lt_is_Some_2 (np_any_axis0 n rows) s) as [y Hy].
    { destruct i; simpl in Hi.
      - injection Hi as <-. apply lookup_lt_Some in Hs. lia.
      - specialize (IH i row s Hi Hs). apply lookup_lt_Some in IH. lia. }
    destruct i as [|i]; simpl in Hi.
    + injection Hi as <-. unfold on in Hs. rewrite Hs, Hy. done.
    + specialize (IH i row s Hi Hs). unfold on in IH.
      rewrite IH in Hy. injection Hy as <-.
      destruct (lookup_lt_is_Some_2 r s) as [x Hx]; [apply lookup_lt_Some in IH; lia|].
      rewrite Hx, IH. simpl. by rewrite orb_true_r.
Qed.

Lemma mask_and_length (a m v : list bool) : length (mask_and a m v) = length a.
Proof.
  revert m v. induction a as [|x a IH]; intros m v; [done|].
  destruct m as [|[] m]; [done| |]; [destruct v|]; simpl; by rewrite IH.
Qed.

Lemma on_vor (a b : list bool) (s : nat) :
  length a = length b → on (vor a b) s ↔ on a s ∨ on b s.
Proof.
  intros Hlen. unfold on, vor. rewrite lookup_zip_with_Some. split.
  - intros (x & y & Hxy & Hx & Hy). symmetry in Hxy.
    apply orb_true_iff in Hxy as [->| ->]; tauto.
  - intros [Ha|Hb].
    + destruct (lookup_lt_is_Some_2 b s) as [y Hy]; [apply lookup_lt_Some in Ha; lia|].
      exists true, y. done.
    + destruct (lookup_lt_is_Some_2 a s) as [x Hx]; [apply lookup_lt_Some in Hb; lia|].
      exists x, true. split_and!; [by rewrite orb_true_r | done | done].
Qed.

Lemma vor_covers (m c : list bool) :
  length m = length c → Forall2 (λ x y, y = true → x = true) (vor m c) m.
Proof.
  intros Hlen. apply Forall2_same_length_lookup_2.
  - unfold vor. rewrite length_zip_with. lia.
  - intros s x y Hx Hy ->. unfold vor in Hx.
    apply lookup_zip_with_Some in Hx as (x' & c' & -> & Hx' & _).
    rewrite Hy in Hx'. by injection Hx' as <-.
Qed.

Lemma on_negb (v : list bool) (s : nat) : on (negb <$> v) s ↔ v !! s = Some false.
Proof.
  unfold on. rewrite list_lookup_fmap. destruct (v !! s) as [[]|]; simpl; split; done.
Qed.

(** With a generator that always draws 0: site 0 of the cluster and the
    first 10 of the 12 free sites. *)
Example candidate_pool_13 :
  (candidate_pool (np_any_axis0 13 one_of_13) (true :: replicate 12 false) 2
                  (mkRand (λ _, 0) 0)).1
  = [true; true; true; true; true; true; true; true; true; true; true; false; false].
Proof. vm_compute. reflexivity. Qed.

(** ** Rejection of a proposal *)

Section GibbsishProofs.

Variable self : ClusterMCMC.
Variable is_warmup : bool.
Variable warmup_max_size : list Z.
Variable logp : Type.
Variables Q_REJECT Q_BACK_REJECT : logp.
Variable log_sum : list Q → logp.
Variable logp_add : logp → logp → logp.
Variable posterior_cluster : Sample → nat → list bool → list Q.
Variable source_log_q_back : Sample → list bool → logp.
Variable gibbs_sample_sources : Sample → list bool → Rand → Sample * logp * Rand.
Variable random_random : nat → Rand → list Q * Rand.

Lemma any_zero_true (q : list Q) : any_zero q = true ↔ ∃ x, x ∈ q ∧ (x == 0)%Q.
Proof.
  unfold any_zero. rewrite existsb_exists. split.
  - intros (x & Hin & Hx). exists x. split; [by apply list_elem_of_In | by apply Qeq_bool_iff].
  - intros (x & Hin & Hx). exists x. split; [by apply list_elem_of_In | by apply Qeq_bool_iff].
Qed.

(** The proposal that reaches the checks is the updated copy of the sample:
    its cluster [i_cluster] is the drawn membership vector. *)
Lemma propose_new_cluster (sample : Sample) (c : option nat) (g g' : Rand) (p : proposal) :
  propose self is_warmup warmup_max_size posterior_cluster random_random sample c g
  = (Ok (Some p), g') →
  clusters sample !! p_i_cluster p = Some (p_cluster p) ∧
  p_sample_new p = update_cluster sample (p_i_cluster p) (p_new_cluster p) ∧
  new_cluster_size p = Z.of_nat (count_nonzero (p_new_cluster p)).
Proof.
  unfold propose. destruct (resolve_max_size _ _ _ c) as [ms|]; [|done].
  destruct (choice _ g) as [[i g1]|]; [|done].
  destruct (clusters sample !! i) as [cl|] eqn:Ei; [|done].
  destruct (candidate_pool _ cl ms g1) as [av g2].
  destruct (count_nonzero av =? 0); [done|].
  destruct (random_random _ g2) as [u g3]. intros [= <- <-]. simpl.
  split_and!; [done | done |].
  unfold new_cluster_size. simpl.
  rewrite list_lookup_insert_eq by (by eapply lookup_lt_Some). done.
Qed.

(** C3. If the proposed cluster has a size outside [min_size, max_size], or
    if some per-site backward probability is zero, the operator returns the
    sample it was given, with [Q_REJECT] and [Q_BACK_REJECT]. *)
Theorem gibbsish_rejects (sample : Sample) (resample_source : bool)
    (c : option nat) (g g' : Rand) (p : proposal) :
  propose self is_warmup warmup_max_size posterior_cluster random_random sample c g
  = (Ok (Some p), g') →
  (new_cluster_size p < min_size self)%Z ∨
  (p_max_size p < new_cluster_size p)%Z ∨
  (∃ q, q ∈ q_back_per_site p ∧ (q == 0)%Q) →
  gibbsish_sample_clusters self is_warmup warmup_max_size logp Q_REJECT Q_BACK_REJECT
    log_sum logp_add posterior_cluster source_log_q_back gibbs_sample_sources
    random_random sample resample_source c g
  = (Ok (sample, Q_REJECT, Q_BACK_REJECT), g').
Proof.
  intros Hp Hbad. unfold gibbsish_sample_clusters. rewrite Hp.
  destruct (size_in_range self p) eqn:Hsize; simpl; [|done].
  destruct (any_zero (q_back_per_site p)) eqn:Hz; [done|].
  exfalso. unfold size_in_range in Hsize.
  apply andb_true_iff in Hsize as [H1 H2].
  apply Z.leb_le in H1, H2.
  destruct Hbad as [?|[?|Hq]]; [lia | lia |].
  apply any_zero_true in Hq. congruence.
Qed.

End GibbsishProofs.

(** A proposal that grows the one-site cluster to three sites, over the cap
    of one. *)
Lemma gibbsish_rejects_witness :
  gibbsish_sample_clusters tiny_sampler false [] (option Q) (Some 0%Q) None
    (λ _, Some 0%Q) (λ a _, a)
    (λ _ _ av, replicate (count_nonzero av) (1 # 2)%Q)
    (λ _ _, Some 0%Q) (λ s _ g, (s, Some 0%Q, g))
    (λ n g, (replicate n 0%Q, g))
    tiny_sample true None (mkRand (λ _, 0) 0)
  = (Ok (tiny_sample, Some 0%Q, None), mkRand (λ _, 0) 1).
Proof.
  eapply (gibbsish_rejects tiny_sampler false [] (option Q) (Some 0%Q) None
            (λ _, Some 0%Q) (λ a _, a)
            (λ _ _ av, replicate (count_nonzero av) (1 # 2)%Q)
            (λ _ _, Some 0%Q) (λ s _ g, (s, Some 0%Q, g))
            (λ n g, (replicate n 0%Q, g))
            tiny_sample true None (mkRand (λ _, 0) 0) (mkRand (λ _, 0) 1)
            (mkProposal 1 0 [true; false; false] [true; true; true]
                        [(1 # 2)%Q; (1 # 2)%Q; (1 # 2)%Q] [true; true; true]
                        (update_cluster tiny_sample 0 [true; true; true]))).
  - vm_compute. reflexivity.
  - right. left. vm_compute. reflexivity.
Defined.

(** A proposal of the right size whose way back has probability zero: the
    site of the cluster has posterior 0, so the old membership cannot be
    drawn again. *)
Example gibbsish_rejects_zero_backward :
  gibbsish_sample_clusters tiny_sampler false [] (option Q) (Some 0%Q) None
    (λ _, Some 0%Q) (λ a _, a)
    (λ _ _ _, [0%Q; 1%Q; 0%Q])
    (λ _ _, Some 0%Q) (λ s _ g, (s, Some 0%Q, g))
    (λ n g, (replicate n (1 # 2)%Q, g))
    tiny_sample true None (mkRand (λ _, 0) 0)
  = (Ok (tiny_sample, Some 0%Q, None), mkRand (λ _, 0) 1).
Proof. vm_compute. reflexivity. Qed.


(** ** Operator weights *)

Local Open Scope Q_scope.

Lemma dict_set_Forall {V} (P : V → Prop) (k : string) (v : V) (d : dict V) :
  Forall (λ kv, P kv.2) d → P v → Forall (λ kv, P kv.2) (dict_set k v d).
Proof.
  intros Hd Hv. induction Hd as [|[k' v'] d Hkv Hd IH]; simpl.
  - by constructor.
  - destruct (decide (k = k')); constructor; done.
Qed.

Lemma dict_update_Forall {V} (P : V → Prop) (d : dict V) (kvs : list (string * V)) :
  Forall (λ kv, P kv.2) d → Forall (λ kv, P kv.2) kvs →
  Forall (λ kv, P kv.2) (dict_update d kvs).
Proof.
  intros Hd Hk. revert d Hd. unfold dict_update.
  induction Hk as [|kv kvs Hkv Hk IH]; intros d Hd; simpl; [done|].
  apply IH. by apply dict_set_Forall.
Qed.

Lemma foldl_weight_acc (l : dict Operator) (a : Q) :
  foldl (λ acc kv, acc + weight kv.2) a l == a + foldl (λ acc kv, acc + weight kv.2) 0 l.
Proof.
  revert a. induction l as [|kv l IH]; intros a; simpl; [ring|].
  rewrite (IH (a + weight kv.2)), (IH (0 + weight kv.2)). ring.
Qed.

Lemma total_weight_cons (kv : string * Operator) (l : dict Operator) :
  total_weight (kv :: l) == weight kv.2 + total_weight l.
Proof. unfold total_weight. simpl. rewrite foldl_weight_acc. ring. Qed.


Lemma normalize_operator_weights_Ok (ops : dict Operator) :
  ¬ total_weight ops == 0 →
  normalize_operator_weights ops
  = Ok ((λ kv, (kv.1, mkOperator (kind kv.2) (weight kv.2 / total_weight ops))) <$> ops).
Proof.
  intros Hne. unfold normalize_operator_weights. destruct ops as [|kv ops]; [done|].
  destruct (Qeq_bool (total_weight (kv :: ops)) 0) eqn:E; [|done].
  apply Qeq_bool_iff in E. done.
Qed.

Section OperatorsProofs.

Variable self : ClusterMCMC.
Variable cfg : OperatorsConfig.t.

Lemma confounder_fraction_Ok (r : Q) :
  confounder_fraction self = Ok r →
  r = 1 / inject_Z (Z.of_nat (length (confounders self))).
Proof. unfold confounder_fraction, py_div. destruct (Qeq_bool _ 0); [done | by intros [= <-]]. Qed.

Lemma confounder_fraction_nonempty :
  confounders self ≠ [] →
  confounder_fraction self = Ok (1 / inject_Z (Z.of_nat (length (confounders self)))).
Proof.
  intros Hne. unfold confounder_fraction, py_div.
  destruct (Qeq_bool _ 0) eqn:E; [|done]. apply Qeq_bool_iff in E.
  destruct (confounders self); [done|]. simpl in E. unfold Qeq in E. simpl in E. lia.
Qed.

Lemma gibbs_loop_members (r : Q) (l : list (string * list string))
    (d ops0 : dict Operator) :
  sample_source self = true →
  Forall (λ kv, built_operator self cfg r kv.2) d →
  foldl (λ acc kv, operators ← acc; add_gibbs_confounding self cfg r operators kv)
        (Ok d) l = Ok ops0 →
  Forall (λ kv, built_operator self cfg r kv.2) ops0.
Proof.
  intros Es Hd. revert ops0.
  induction l as [|kv l IH] using rev_ind; intros ops0.
  - simpl. by intros [= <-].
  - rewrite foldl_app. cbn [foldl].
    destruct (foldl _ (Ok d) l) as [d'|]; [|done].
    unfold mbind, outcome_bind, add_gibbs_confounding.
    destruct (get_source_index self !! kv.1) as [idx|]; [|done].
    intros [= <-]. apply dict_set_Forall; [by apply IH | by constructor].
Qed.

Lemma alter_loop_members (r : Q) (l : list (string * list string)) (d : dict Operator) :
  sample_source self = false →
  Forall (λ kv, built_operator self cfg r kv.2) d →
  Forall (λ kv, built_operator self cfg r kv.2)
         (foldl (add_alter_confounding cfg r) d l).
Proof.
  intros Es Hd. induction l as [|kv l IH] using rev_ind; [done|].
  rewrite foldl_app. cbn [foldl]. unfold add_alter_confounding at 1.
  apply dict_update_Forall; [done|]. constructor; [by constructor | constructor].
Qed.

(** Every entry of the dictionary is one of the operators of the branch
    taken. *)
Lemma build_operators_members (ops0 : dict Operator) :
  build_operators self cfg = Ok ops0 →
  ∃ r, confounder_fraction self = Ok r ∧
       Forall (λ kv, built_operator self cfg r kv.2) ops0.
Proof.
  unfold build_operators. destruct (sample_source self) eqn:Es.
  - destruct (confounder_fraction self) as [r|] eqn:Er; [|done].
    unfold mbind at 1, outcome_bind at 1. intros Hfold. exists r. split; [done|].
    eapply gibbs_loop_members; [done | | exact Hfold].
    repeat (constructor; [by constructor|]). constructor.
  - destruct (confounder_fraction self) as [r|] eqn:Er; [|done].
    unfold mbind at 1, outcome_bind at 1. intros [= <-]. exists r. split; [done|].
    apply alter_loop_members; [done|].
    repeat (constructor; [by constructor|]). constructor.
Qed.

Lemma source_index_insert_is_Some (l : list (nat * (string * list string)))
    (m : gmap string nat) (k : string) :
  is_Some (m !! k) ∨ k ∈ (λ ik : nat * (string * list string), ik.2.1) <$> l →
  is_Some (foldl (λ idx ik, <[ik.2.1 := S ik.1]> idx) m l !! k).
Proof.
  revert m. induction l as [|ik l IH]; intros m H; simpl.
  - destruct H as [H|H]; [done | inversion H].
  - apply IH. destruct (decide (ik.2.1 = k)) as [<-|Hne].
    + left. rewrite lookup_insert_eq. by eexists.
    + destruct H as [H|H].
      * left. by rewrite lookup_insert_ne.
      * right. rewrite fmap_cons in H. apply elem_of_cons in H as [H|H]; [congruence | done].
Qed.

Lemma get_source_index_lookup (kv : string * list string) :
  kv ∈ confounders self → is_Some (get_source_index self !! kv.1).
Proof.
  intros Hin. unfold get_source_index. apply source_index_insert_is_Some. right.
  apply list_elem_of_lookup in Hin as [i Hi].
  apply list_elem_of_fmap. exists (i, kv). split; [done|].
  apply list_elem_of_lookup. exists i. apply lookup_zip_with_Some. exists i, kv.
  split_and!; [done | | done].
  apply lookup_seq. split; [done|]. by eapply lookup_lt_Some.
Qed.

Lemma gibbs_loop_Ok (r : Q) (l : list (string * list string)) (d : dict Operator) :
  (∀ kv, kv ∈ l → is_Some (get_source_index self !! kv.1)) →
  ∃ ops0,
    foldl (λ acc kv, operators ← acc; add_gibbs_confounding self cfg r operators kv)
          (Ok d) l = Ok ops0.
Proof.
  induction l as [|kv l IH] using rev_ind; intros Hl; [by eexists|].
  destruct IH as [d' Hd'].
  { intros kv' Hkv'. apply Hl, elem_of_app. by left. }
  rewrite foldl_app. cbn [foldl]. rewrite Hd'.
  unfold mbind, outcome_bind, add_gibbs_confounding.
  destruct (Hl kv) as [idx ->]; [apply elem_of_app; right; by left|]. by eexists.
Qed.

(** With at least one confounder the dictionary is built. *)
Lemma build_operators_Ok :
  confounders self ≠ [] → ∃ ops0, build_operators self cfg = Ok ops0.
Proof.
  intros Hne. unfold build_operators. rewrite (confounder_fraction_nonempty Hne).
  destruct (sample_source self); unfold mbind at 1, outcome_bind at 1.
  - apply gibbs_loop_Ok. intros kv. apply get_source_index_lookup.
  - by eexists.
Qed.

End OperatorsProofs.

(** The two operator sets, after normalisation. *)
Example get_operators_with_source :
  weight_table (get_operators (with_confounders true) some_weights)
  = Some [("sample_cluster", 9 # 20); ("gibbs_sample_sources", 3 # 20);
          ("gibbs_sample_weights", 3 # 20); ("gibbs_sample_cluster_effect", 1 # 20);
          ("gibbs_sample_confounding_effects_family", 1 # 10);
          ("gibbs_sample_confounding_effects_area", 1 # 10)]%string.
Proof. vm_compute. reflexivity. Qed.

Example get_operators_without_source :
  weight_table (get_operators (with_confounders false) some_weights)
  = Some [("sample_cluster", 9 # 17); ("alter_weights", 3 # 17);
          ("alter_cluster_effect", 1 # 17);
          ("alter_confounding_effects_family", 2 # 17);
          ("alter_confounding_effects_area", 2 # 17)]%string.
Proof. vm_compute. reflexivity. Qed.

(** Without any confounder the fraction 1/0 raises before the operators are
    normalised. *)
Example get_operators_no_confounder :
  get_operators (growth_only 2 isolated2 1 2) some_weights = Raise ZeroDivisionError.
Proof. vm_compute. reflexivity. Qed.

(** ** Source sampling disabled *)

Lemma normalize_operator_weights_kinds (ops0 ops : dict Operator) :
  normalize_operator_weights ops0 = Ok ops →
  ∀ name op, (name, op) ∈ ops → ∃ op0, (name, op0) ∈ ops0 ∧ kind op = kind op0.
Proof.
  unfold normalize_operator_weights. destruct ops0 as [|kv ops0].
  - intros [= <-] name op Hin. inversion Hin.
  - destruct (Qeq_bool _ 0); [done|]. intros Heq name op Hin.
    assert (Hops : ops = (λ kv0 : string * Operator,
                            (kv0.1, mkOperator (kind kv0.2)
                                       (weight kv0.2 / total_weight (kv :: ops0))))
                         <$> (kv :: ops0)) by congruence.
    rewrite Hops in Hin.
    apply list_elem_of_fmap in Hin as ([k o] & [= -> ->] & Hin). by exists o.
Qed.

(** C6. With [sample_source] disabled, [verify_config] sets the 'source'
    entry of the operator table to 0 before it re-normalises the table, the
    entry is still 0 afterwards, and [get_operators] returns no
    source-dependent operator. *)
Theorem source_disabled (cfg : Config) (self : ClusterMCMC) (opcfg : OperatorsConfig.t) :
  model_sample_source cfg = false →
  sample_source self = false →
  mcmc_operators (force_source_zero cfg) !! "source"%string = Some 0 ∧
  (¬ weights_sum (force_source_zero cfg) == 0 → ∃ cfg', verify_config cfg = Ok cfg') ∧
  (∀ cfg', verify_config cfg = Ok cfg' →
     ∃ w, mcmc_operators cfg' !! "source"%string = Some w ∧ w == 0) ∧
  (∀ ops, get_operators self opcfg = Ok ops →
     ∀ name op, (name, op) ∈ ops → source_dependent (kind op) = false).
Proof.
  intros Hoff Hself.
  assert (Hforce : force_source_zero cfg
                   = mkConfig false (<["source"%string := 0]> (mcmc_operators cfg))).
  { unfold force_source_zero. by rewrite Hoff. }
  assert (Hnonempty : <["source"%string := 0]> (mcmc_operators cfg) ≠ ∅)
    by apply insert_non_empty.
  split_and!.
  - rewrite Hforce. simpl. by rewrite lookup_insert_eq.
  - intros Hsum. unfold verify_config, renormalize_operators.
    destruct (decide (mcmc_operators (force_source_zero cfg) = ∅)); [by eexists|].
    destruct (Qeq_bool _ 0) eqn:E; [|by eexists]. by apply Qeq_bool_iff in E.
  - intros cfg'. unfold verify_config, renormalize_operators. rewrite Hforce. simpl.
    destruct (decide (_ = ∅)); [done|].
    destruct (Qeq_bool _ 0); [done|]. intros [= <-]. simpl.
    rewrite lookup_fmap, lookup_insert_eq. simpl. eexists. split; [done|].
    unfold Qdiv. ring.
  - intros ops. unfold get_operators.
    destruct (build_operators self opcfg) as [ops0|] eqn:Hb; [|done].
    unfold mbind, outcome_bind. intros Hn name op Hin.
    destruct (normalize_operator_weights_kinds _ _ Hn name op Hin) as (op0 & Hin0 & ->).
    destruct (build_operators_members self opcfg ops0 Hb) as (r & _ & Hall).
    rewrite Forall_forall in Hall. specialize (Hall _ Hin0). simpl in Hall.
    destruct Hall; simpl; congruence.
Qed.

Lemma source_disabled_witness :
  mcmc_operators (force_source_zero source_off_config) !! "source"%string = Some 0 ∧
  (¬ weights_sum (force_source_zero source_off_config) == 0 →
   ∃ cfg', verify_config source_off_config = Ok cfg') ∧
  (∀ cfg', verify_config source_off_config = Ok cfg' →
     ∃ w, mcmc_operators cfg' !! "source"%string = Some w ∧ w == 0) ∧
  (∀ ops, get_operators (with_confounders false) some_weights = Ok ops →
     ∀ name op, (name, op) ∈ ops → source_dependent (kind op) = false).
Proof.
  apply (source_disabled source_off_config (with_confounders false) some_weights).
  - reflexivity.
  - reflexivity.
Defined.

(** The table of the witness after [verify_config]: 45 and 15 out of 60. *)
Example verify_config_source_off :
  match verify_config source_off_config with
  | Ok cfg' =>
      (Qred <$> mcmc_operators cfg' !! "source"%string,
       Qred <$> mcmc_operators cfg' !! "clusters"%string,
       Qred <$> mcmc_operators cfg' !! "weights"%string)
      = (Some 0, Some (3 # 4), Some (1 # 4))
  | Raise _ => False
  end.
Proof. vm_compute. reflexivity. Qed.

Local Close Scope Q_scope.


(** ** Smoothed initial effects *)

Local Open Scope Q_scope.





Lemma obs_value_nonneg (o : obs) : 0 <= obs_value o.
Proof. destruct o as [[]|]; simpl; lra. Qed.

Lemma nansum_sites_nonneg (nf ns : nat) (selected : list (list (list obs))) :
  Forall (Forall (λ x, 0 <= x)) (nansum_sites nf ns selected).
Proof.
  induction selected as [|site sel IH]; simpl.
  - apply Forall_replicate, Forall_replicate. lra.
  - apply Forall_lookup. intros f row Hrow.
    apply lookup_zip_with_Some in Hrow as (a & b & -> & Ha & Hb).
    rewrite Forall_lookup in IH. specialize (IH f b Hb).
    rewrite list_lookup_fmap in Ha. destruct (site !! f) as [orow|]; [|done].
    injection Ha as <-.
    apply Forall_lookup. intros s x Hx.
    apply lookup_zip_with_Some in Hx as (u & v & -> & Hu & Hv).
    rewrite list_lookup_fmap in Hu. destruct (orow !! s) as [o|]; [|done].
    injection Hu as <-. rewrite Forall_lookup in IH. specialize (IH s v Hv).
    pose proof (obs_value_nonneg o). lra.
Qed.


Section InitialEffectsProofs.

Variable self : ClusterMCMC.

Lemma smoothed_mle_rows (idx : list nat) (m : list (list Q)) (f : nat) (row : list Q) :
  smoothed_mle self idx = Ok m → m !! f = Some row →
  ∃ counts app_row,
    Forall (λ x, 0 <= x) counts ∧
    applicable_states self !! f = Some app_row ∧
    row = smoothed_row counts app_row.
Proof.
  unfold smoothed_mle. destruct (take_sites _ idx) as [sel|]; [|done].
  unfold mbind, outcome_bind. intros [= <-]. unfold divide_by_row_sums.
  rewrite list_lookup_fmap. unfold add_one_applicable.
  destruct (zip_with _ _ _ !! f) as [raw|] eqn:Hraw; [|done]. intros [= <-].
  apply lookup_zip_with_Some in Hraw as (counts & app_row & -> & Hc & Ha).
  exists counts, app_row. split_and!; [|done|done].
  pose proof (nansum_sites_nonneg (n_features self) (n_states self) sel) as Hnn.
  rewrite Forall_lookup in Hnn. by eapply Hnn.
Qed.

Lemma fill_effects_rows (members : list (list bool)) (todo : list nat)
    (eff0 eff : tensor) :
  fill_effects self members todo eff0 = Ok eff →
  length eff = length eff0 ∧
  ∀ i m, eff !! i = Some m →
         (eff0 !! i = Some m ∧ i ∉ todo) ∨ ∃ idx, smoothed_mle self idx = Ok m.
Proof.
  revert eff0. induction todo as [|j todo IH]; intros eff0; simpl.
  - intros [= <-]. split; [done|]. intros i m Hi. left. split; [done|]. by intros H%elem_of_nil.
  - destruct (members !! j) as [row|]; [|done].
    destruct (smoothed_mle self (nonzero row)) as [e|] eqn:He; [|done].
    unfold mbind at 1, outcome_bind at 1.
    destruct (assign_row _ eff0 j e) as [eff1|] eqn:Ha; [|done].
    unfold mbind, outcome_bind. apply assign_row_inv in Ha as (Hj & _ & ->).
    intros Hrun. apply IH in Hrun as [Hlen Hrows].
    split; [by rewrite Hlen, length_insert|].
    intros i m Hi. destruct (Hrows i m Hi) as [[H1 H2]|H]; [|by right].
    destruct (decide (i = j)) as [->|Hne].
    + rewrite list_lookup_insert_eq in H1 by done. injection H1 as <-. right. by eexists.
    + rewrite list_lookup_insert_ne in H1 by done. left. split; [done|].
      rewrite elem_of_cons. intros [?|?]; done.
Qed.

Lemma copy_rows_inv {A} (ok : A → bool) (prev M M' : list A) (i n : nat) :
  copy_rows ok prev M i = Ok (M', n) →
  length M' = length M ∧ n = (i + length prev)%nat.
Proof.
  revert M i. induction prev as [|v prev IH]; intros M i; simpl.
  - intros [= <- <-]. split; [done | lia].
  - destruct (assign_row ok M i v) as [M1|] eqn:Ha; [|done].
    unfold mbind, outcome_bind. apply assign_row_inv in Ha as (_ & _ & ->).
    intros Hrun. apply IH in Hrun as [Hl ->]. rewrite length_insert in Hl. split; [done | lia].
Qed.

Lemma zero_tensor_length (n : nat) : length (zero_tensor self n) = n.
Proof. apply length_replicate. Qed.

(** An effect initialised from scratch is a smoothed estimate. *)
Lemma initialized_from_scratch_smoothed (m : list (list Q)) :
  initialized_from_scratch self m → ∃ idx, smoothed_mle self idx = Ok m.
Proof.
  intros [(cls & eff & i & Hgen & Hi & Hm) | (Hnone & conf & eff & g & Hgen & Hm)].
  - revert Hgen Hi. unfold generate_initial_cluster_effect, n_resumed.
    assert (Hfill : ∀ ice ng,
      length ice = n_clusters self → (ng ≤ i)%nat →
      fill_effects self cls (seq ng (n_clusters self - ng)) ice = Ok eff →
      ∃ idx, smoothed_mle self idx = Ok m).
    { intros ice ng Hlen Hng Hrun. apply fill_effects_rows in Hrun as [Hl Hrows].
      destruct (Hrows i m Hm) as [[H1 H2]|H]; [|done]. exfalso. apply H2.
      apply lookup_lt_Some in H1. apply elem_of_seq. lia. }
    destruct (initial_sample self) as [prev|].
    + destruct (copy_rows _ (cluster_effect prev) _ 0%nat) as [[ice ng]|] eqn:Hc; [|done].
      unfold mbind, outcome_bind. apply copy_rows_inv in Hc as [Hl ->].
      rewrite zero_tensor_length in Hl. intros Hrun Hi. by eapply Hfill.
    + unfold mbind, outcome_bind. intros Hrun Hi.
      eapply (Hfill _ 0%nat); [apply zero_tensor_length | lia | done].
  - revert Hgen. unfold generate_initial_confounding_effect. rewrite Hnone.
    destruct (getitem (get_groups_per_confounder self) conf) as [n_groups|]; [|done].
    unfold mbind at 1, outcome_bind at 1.
    destruct (getitem (data_confounders self) conf) as [groups|]; [|done].
    unfold mbind, outcome_bind. intros Hrun.
    apply fill_effects_rows in Hrun as [Hl Hrows].
    destruct (Hrows g m Hm) as [[H1 H2]|H]; [|done]. exfalso. apply H2.
    apply lookup_lt_Some in H1. rewrite zero_tensor_length in H1.
    apply elem_of_seq. lia.
Qed.

End InitialEffectsProofs.


(** The effect of the single cluster of that sampler. *)
Example single_state_effect :
  generate_initial_cluster_effect single_state_sampler [[true]]
  = Ok [[[2 # 3; 1 # 3]; [2 # 2; 0 # 2]]].
Proof. vm_compute. reflexivity. Qed.

(** ** Resuming from a previous sample *)

Lemma copy_rows_all {A} (ok : A → bool) (prev copied rest : list A) :
  length rest = length prev →
  Forall (λ v, ok v = true) prev →
  copy_rows ok prev (copied ++ rest) (length copied)
  = Ok (copied ++ prev, (length copied + length prev)%nat).
Proof.
  intros Hlen Hok. revert copied rest Hlen.
  induction Hok as [|v prev Hv Hok IH]; intros copied rest Hlen; simpl.
  - destruct rest; [|done]. by rewrite Nat.add_0_r.
  - destruct rest as [|r rest]; [done|]. simpl in Hlen.
    rewrite assign_row_Ok; [| rewrite length_app; simpl; lia | done].
    unfold mbind, outcome_bind.
    replace (<[length copied := v]> (copied ++ r :: rest)) with ((copied ++ [v]) ++ rest).
    + replace (S (length copied)) with (length (copied ++ [v]))
        by (rewrite length_app; simpl; lia).
      rewrite IH by lia. rewrite <- !app_assoc, length_app. simpl. f_equal. f_equal. lia.
    + rewrite <- app_assoc. simpl.
      rewrite insert_app_r_alt by lia. by rewrite Nat.sub_diag.
Qed.

Section ResumeProofs.

Variable self : ClusterMCMC.

Lemma copy_previous_all (prev copied rest : list (list bool)) (st : gen_state) :
  length rest = length prev →
  Forall (λ v, length v = n_sites self) prev →
  initial_clusters st = copied ++ rest →
  n_generated st = length copied →
  ∃ st', copy_previous self prev st = Ok st' ∧
         initial_clusters st' = copied ++ prev ∧
         n_generated st' = (length copied + length prev)%nat ∧
         attempts st' = attempts st ∧ rand st' = rand st.
Proof.
  intros Hlen Hok. revert copied rest st Hlen.
  induction Hok as [|v prev Hv Hok IH]; intros copied rest st Hlen Hic Hng; simpl.
  - destruct rest; [|done]. exists st. rewrite app_nil_r in *. split_and!; [done..|lia|done|done].
  - destruct rest as [|r rest]; [done|]. simpl in Hlen.
    rewrite assign_row_Ok;
      [| rewrite Hic, length_app, Hng; simpl; lia | by apply Nat.eqb_eq].
    unfold mbind, outcome_bind.
    edestruct (IH (copied ++ [v]) rest) as (st' & Hrun & H1 & H2 & H3 & H4);
      [lia | | | exists st'; split; [exact Hrun|]].
    + simpl. rewrite Hic, Hng, <- app_assoc. simpl.
      rewrite insert_app_r_alt by lia. by rewrite Nat.sub_diag.
    + simpl. rewrite length_app. simpl. lia.
    + simpl in *. rewrite <- app_assoc in H1. rewrite length_app in H2. simpl in *.
      split_and!; [done | lia | done | done].
Qed.

Lemma normalize_unit_rows (w : list (list Q)) :
  Forall (λ row, row_sum row == 1) w →
  Forall2 (Forall2 Qeq) (normalize w) w.
Proof.
  intros Hw. unfold normalize, divide_by_row_sums.
  apply Forall2_fmap_l, Forall_Forall2_diag. eapply Forall_impl; [exact Hw|].
  intros row Hrow. apply Forall2_fmap_l, Forall_Forall2_diag, Forall_forall.
  intros v _. simpl. rewrite Hrow. field.
Qed.

Lemma has_nan_unit_rows (w : list (list Q)) :
  Forall (λ row, row_sum row == 1) w → has_nan w = false.
Proof.
  intros Hw. unfold has_nan. apply not_true_iff_false. rewrite existsb_exists.
  intros (row & Hin & Hrow). apply andb_true_iff in Hrow as [Hz _].
  apply Qeq_bool_iff in Hz. rewrite Forall_forall in Hw.
  apply list_elem_of_In in Hin. specialize (Hw row Hin). lra.
Qed.

Variable prev : Sample.
Hypothesis Hprev : initial_sample self = Some prev.
Hypothesis Hres : fits_run self prev.

Lemma resume_clusters (fuel : nat) (g : Rand) :
  (0 < fuel)%nat →
  ∃ st, generate_initial_clusters self fuel g = Returned (clusters prev) st ∧ rand st = g.
Proof using Hprev Hres.
  intros Hfuel. destruct Hres as (Hlc & Hshape & _).
  unfold generate_initial_clusters. rewrite Hprev.
  destruct (Nat.eqb_spec (n_clusters self) 0) as [Hz|Hnz].
  - eexists. split; [destruct (clusters prev); [reflexivity | simpl in Hlc; lia] | done].
  - set (st0 := mkGen 0 _ _ 0 g).
    destruct (copy_previous_all (clusters prev) [] (initial_clusters st0) st0)
      as (st' & -> & Hic & Hng & _ & Hr); [| done | done | done |].
    { simpl. rewrite length_replicate. lia. }
    simpl in Hic, Hng. destruct fuel as [|fuel]; [lia|]. simpl.
    rewrite Hng, Hlc, Nat.sub_diag. simpl. rewrite Hng, Hlc, Nat.eqb_refl.
    exists st'. rewrite Hic. done.
Qed.

Lemma resume_cluster_effect (cls : list (list bool)) :
  generate_initial_cluster_effect self cls = Ok (cluster_effect prev).
Proof using Hprev Hres.
  destruct Hres as (_ & _ & Hlen & Hshape & _).
  unfold generate_initial_cluster_effect. rewrite Hprev.
  pose proof (copy_rows_all (effect_shape self) (cluster_effect prev) []
                (zero_tensor self (n_clusters self))) as Hcopy.
  simpl in Hcopy. rewrite Hcopy; [| by rewrite zero_tensor_length | done].
  unfold mbind, outcome_bind. rewrite Hlen, Nat.sub_diag. done.
Qed.

Lemma resume_confounding_effect (kv : string * list string) :
  kv ∈ confounders self →
  ∃ t, confounding_effects prev !! kv.1 = Some t ∧
       generate_initial_confounding_effect self kv.1 = Ok t.
Proof using Hprev Hres.
  intros Hin. destruct Hres as (_ & _ & _ & _ & Hconf & _).
  destruct (Hconf kv Hin) as (t & Ht & Hn & Hshape & [groups Hg]).
  exists t. split; [done|]. unfold generate_initial_confounding_effect, getitem.
  rewrite Hn, Hg, Hprev, Ht. unfold mbind, outcome_bind.
  pose proof (copy_rows_all (effect_shape self) t [] (zero_tensor self (length t))) as Hcopy.
  simpl in Hcopy. rewrite Hcopy; [done | by rewrite zero_tensor_length | done].
Qed.

Lemma resume_confounding_effects (confs : list (string * list string))
    (acc : gmap string tensor) :
  (∀ kv, kv ∈ confs → kv ∈ confounders self) →
  ∃ m, generate_initial_confounding_effects self confs acc = Ok m ∧
       ∀ k, m !! k = if decide (k ∈ confs.*1) then confounding_effects prev !! k
                     else acc !! k.
Proof using Hprev Hres.
  revert acc. induction confs as [|kv confs IH]; intros acc Hsub; simpl.
  - exists acc. by split.
  - destruct (resume_confounding_effect kv) as (t & Ht & ->);
      [apply Hsub; by left|].
    unfold mbind, outcome_bind.
    destruct (IH (<[kv.1 := t]> acc)) as (m & -> & Hm);
      [intros kv' Hkv'; apply Hsub; by right|].
    exists m. split; [done|]. intros k. rewrite Hm.
    destruct (decide (k ∈ confs.*1)) as [Hk|Hk].
    + rewrite decide_True; [done | by right].
    + destruct (decide (k = kv.1)) as [->|Hne].
      * rewrite decide_True by by left. by rewrite lookup_insert_eq.
      * rewrite decide_False; [by rewrite lookup_insert_ne|].
        rewrite elem_of_cons. intros [?|?]; done.
Qed.

End ResumeProofs.

(** The sample a run resumed from [previous_sample] starts from. *)
Example resume_previous_sample :
  generate_initial_sample resuming_sampler (λ _ g, ([], g)) 0 1 (mkRand (λ _, 0%nat) 0)
  = Some (Ok (mkSample (clusters previous_sample)
                       (normalize (weights previous_sample))
                       (cluster_effect previous_sample)
                       (confounding_effects previous_sample) None 0),
          mkRand (λ _, 0%nat) 0).
Proof. vm_compute. reflexivity. Qed.

(** Weight rows that do not sum to 1 are rescaled by [normalize]. *)
Example normalize_rescales : normalize [[2; 2]] = [[2 # 4; 2 # 4]].
Proof. vm_compute. reflexivity. Qed.

Local Close Scope Q_scope.


(** ** Warm-up schedule *)

Lemma length_flat_map_replicate {A} (m : nat) (xs : list A) :
  length (flat_map (replicate m) xs) = m * length xs.
Proof.
  induction xs as [|x xs IH]; simpl; [lia|].
  rewrite length_app, length_replicate, IH. lia.
Qed.

Lemma lookup_flat_map_replicate {A} (m : nat) (xs : list A) (c : nat) :
  0 < m → flat_map (replicate m) xs !! c = xs !! (c / m).
Proof.
  intros Hm. revert c. induction xs as [|x xs IH]; intros c; simpl.
  - by rewrite !lookup_nil.
  - destruct (decide (c < m)) as [Hc|Hc].
    + rewrite lookup_app_l by (by rewrite length_replicate).
      rewrite Nat.div_small by done. simpl. apply lookup_replicate_2. done.
    + rewrite lookup_app_r by (rewrite length_replicate; lia).
      rewrite length_replicate, IH.
      replace c with ((c - m) + 1 * m) at 2 by lia.
      rewrite Nat.div_add by lia. by rewrite Nat.add_1_r.
Qed.

Lemma choices_spec {A} (population : list A) (k : nat) (g : Rand) :
  population ≠ [] →
  length (choices population k g).1 = k ∧
  ∀ x, x ∈ (choices population k g).1 → x ∈ population.
Proof.
  intros Hne. revert g. induction k as [|k IH]; intros g; simpl.
  - split; [done|]. intros x Hx. inversion Hx.
  - destruct (choice population g) as [[x g']|] eqn:Ec.
    + apply choice_Some in Ec as [Ec _].
      specialize (IH g'). destruct (choices population k g') as [rest g'']. simpl in *.
      destruct IH as [IH1 IH2]. split; [lia|].
      intros y Hy. apply elem_of_cons in Hy as [->|Hy]; [done | by apply IH2].
    + by apply choice_None in Ec.
Qed.

Lemma linspace_int_lookup (start stop : Z) (num i : nat) :
  i < num →
  linspace_int start stop num !! i
  = Some (start + (Z.of_nat i * (stop - start)) / Z.of_nat num)%Z.
Proof.
  intros Hi. unfold linspace_int. rewrite list_lookup_fmap, lookup_seq_lt by done. done.
Qed.

(** The schedule and the connectivity biases of ten chains. *)
Example warmup_ten_chains :
  (warmup_init ten_chains (mkRand (λ n, n) 0)).1
  = mkWarmup ten_chains [12; 12; 12; 16; 16; 16; 21; 21; 21; 25]%Z
      [95 # 100; 7 # 10; 95 # 100; 7 # 10; 95 # 100;
       7 # 10; 95 # 100; 7 # 10; 95 # 100; 7 # 10]%Q.
Proof. vm_compute. reflexivity. Qed.

(** The schedule starts at the midpoint of initial size and nominal maximum:
    an initial size above the nominal maximum is above the first stages. *)
Example warmup_initial_size_above_max :
  get_max_size_list ((14 + 10) ÷ 2) ((3 * 10) ÷ 2) 4 4 = [12; 12; 13; 14]%Z.
Proof. vm_compute. reflexivity. Qed.


(** * Further properties *)

(** ** Counting sites *)

Lemma count_nonzero_le_length (v : list bool) : count_nonzero v ≤ length v.
Proof.
  induction v as [|b v IH]; [done|].
  rewrite count_nonzero_cons. simpl. destruct b; lia.
Qed.

Lemma count_nonzero_mono (a b : list bool) :
  (∀ i, on a i → on b i) → count_nonzero a ≤ count_nonzero b.
Proof.
  intros Hab. unfold count_nonzero. apply submseteq_length, NoDup_submseteq.
  - apply NoDup_nonzero.
  - intros i. rewrite !elem_of_nonzero. apply Hab.
Qed.

Lemma count_nonzero_disjoint_union (a b c : list bool) :
  (∀ i, on c i ↔ on a i ∨ on b i) → (∀ i, on a i → ¬ on b i) →
  count_nonzero c = count_nonzero a + count_nonzero b.
Proof.
  intros Hc Hdisj. unfold count_nonzero. rewrite <- length_app.
  apply Permutation_length, NoDup_Permutation.
  - apply NoDup_nonzero.
  - apply NoDup_app. split_and!; [apply NoDup_nonzero | | apply NoDup_nonzero].
    intros i. rewrite !elem_of_nonzero. apply Hdisj.
  - intros i. rewrite elem_of_app, !elem_of_nonzero. apply Hc.
Qed.

(** ** What a call of the growth leaves behind *)

Lemma grow_cluster_Ok_grown (n : nat) (adj : list (list bool)) (k : Z)
    (already : option (list bool)) (g g' : Rand) (cl occ : list bool) :
  grow_cluster_of_size_k n adj k already g = (Ok cl, occ, g') →
  grown_cluster n adj k cl ∧
  count_nonzero occ = count_nonzero (default (zeros n) already) + grown_size k.
Proof.
  intros Hrun. apply grow_cluster_Ok in Hrun as (seed & order & Hlen & Hinv & Hlcl).
  destruct Hinv as (Hnd & Hg & Hmem & Hocc & Hdisj & _).
  assert (Hcount : count_nonzero cl = grown_size k).
  { rewrite (count_nonzero_members cl order) by done. done. }
  split.
  - split_and!; [done | done |]. exists seed, order.
    split_and!; [done | done | done | by eapply grown_from_connected].
  - by rewrite (count_nonzero_disjoint_union _ cl occ Hocc Hdisj), Hcount.
Qed.

(** X1. Whatever its outcome, [grow_cluster_of_size_k] never clears a site
    of the array it is given and keeps its length; when it raises
    [ClusterError] although a free site existed, the seed it had chosen stays
    marked: some site that was free is occupied afterwards. *)
Theorem grow_failure_keeps_sites (n : nat) (adj : list (list bool)) (k : Z)
    (already : option (list bool)) (g : Rand) :
  (∀ i, on (default (zeros n) already) i →
        on (grow_cluster_of_size_k n adj k already g).1.2 i) ∧
  length (grow_cluster_of_size_k n adj k already g).1.2
  = length (default (zeros n) already) ∧
  (result_of (grow_cluster_of_size_k n adj k already g) = Raise ClusterError →
   sites_free n (default (zeros n) already) ≠ [] →
   ∃ s, s < n ∧ ¬ on (default (zeros n) already) s ∧
        on (grow_cluster_of_size_k n adj k already g).1.2 s).
Proof.
  split_and!.
  - intros i. apply grow_cluster_mono.
  - apply grow_cluster_length.
  - unfold grow_cluster_of_size_k.
    pose proof (seed_cluster_ClusterError n (default (zeros n) already) g) as Hseed.
    destruct (seed_cluster n _ g) as [[[c|e] a] g1] eqn:Es.
    + intros _ _. apply (seed_cluster_Ok n adj) in Es as (s & Hs & Hfree & Hinv & _).
      exists s. split_and!; [done | done |]. apply grow_steps_mono.
      destruct Hinv as (_ & _ & Hmem & Hocc & _). apply Hocc. right. apply Hmem.
      by apply list_elem_of_singleton.
    + intros Hr Hne. by apply Hseed in Hr.
Qed.

(** Two isolated sites, a cluster of size 2: the attempt fails and leaves its
    seed, site 0, occupied. *)
Lemma grow_failure_keeps_sites_witness :
  ∃ s, s < 2 ∧ ¬ on (default (zeros 2) None) s ∧
       on (grow_cluster_of_size_k 2 isolated2 2 None (mkRand (λ _, 0) 0)).1.2 s.
Proof.
  apply (grow_failure_keeps_sites 2 isolated2 2 None (mkRand (λ _, 0) 0)).
  - vm_compute. reflexivity.
  - vm_compute. discriminate.
Defined.

(** ** The clusters of [generate_initial_clusters] *)

Section InitialClustersInvariant.

Variable self : ClusterMCMC.
Variable prev : list (list bool).
Variable base : nat.

Lemma grow_remaining_inv (m : nat) (st st' : gen_state) (ex : for_exit) :
  gen_inv self prev base st → n_generated st + m ≤ n_clusters self →
  grow_remaining self (seq (n_generated st) m) st = (ex, st') →
  gen_inv self prev base st'.
Proof.
  revert st. induction m as [|m IH]; intros st Hinv Hm; simpl.
  - by intros [= <- <-].
  - destruct Hinv as (Hwf & Hlp & Hprev & Hgrown & Hcov & Hapart & Hcount).
    destruct Hwf as (Hlic & Hlocc & Hng & Hatt).
    pose proof (grow_cluster_length (n_sites self) (adj_mat self) (initial_size self)
                  (Some (occupied st)) (rand st)) as Hlen.
    pose proof (λ i, grow_cluster_mono (n_sites self) (adj_mat self)
                  (initial_size self) (Some (occupied st)) (rand st) i) as Hmono.
    destruct (grow_cluster_of_size_k _ _ _ _ _) as [[[cl|e] occ'] g'] eqn:Eg;
      simpl in Hlen, Hmono.
    + destruct (grow_cluster_Ok_grown _ _ _ _ _ _ _ _ Eg) as [Hcl Hcnt].
      apply grow_cluster_Ok in Eg as (seed & order & _ & Hgi & Hlcl).
      destruct Hgi as (_ & _ & _ & Hocc & Hdisj & _). simpl in Hocc, Hdisj, Hcnt.
      rewrite assign_row_Ok; [| lia | unfold vector_shape; by apply Nat.eqb_eq].
      intros Hrun.
      apply (IH (mkGen (S (n_generated st)) _ occ' (attempts st) g')) in Hrun;
        [done | | simpl; lia].
      split_and!; simpl.
      * split_and!; simpl; [by rewrite length_insert | lia | lia | done].
      * lia.
      * intros i ci Hi. rewrite list_lookup_insert_ne; [by apply Hprev|].
        apply lookup_lt_Some in Hi. lia.
      * intros i ci Hi Hci. destruct (decide (i = n_generated st)) as [->|Hne].
        -- rewrite list_lookup_insert_eq in Hci by lia. by injection Hci as <-.
        -- rewrite list_lookup_insert_ne in Hci by done. apply (Hgrown i); [lia | done].
      * intros i ci s Hi Hci Hs. apply Hocc.
        destruct (decide (i = n_generated st)) as [->|Hne].
        -- rewrite list_lookup_insert_eq in Hci by lia. injection Hci as <-. by right.
        -- rewrite list_lookup_insert_ne in Hci by done. left.
           eapply Hcov; [|done..]. lia.
      * intros i j ci cj s Hij Hj Hci Hcj [Hsi Hsj].
        rewrite list_lookup_insert_ne in Hci by lia.
        destruct (decide (j = n_generated st)) as [->|Hne].
        -- rewrite list_lookup_insert_eq in Hcj by lia. injection Hcj as <-.
           eapply Hdisj; [|exact Hsj]. eapply Hcov; [|done..]. lia.
        -- rewrite list_lookup_insert_ne in Hcj by done.
           eapply (Hapart i j); [| | done..]; lia.
      * rewrite Hcnt. nia.
    + assert (Hkeep : ∀ att,
        att ≤ max_attempts →
        gen_inv self prev base
                (mkGen (n_generated st) (initial_clusters st) occ' att g')).
      { intros att Hle. split_and!; simpl; try done.
        - split_and!; simpl; [done | lia | done | done].
        - intros i ci s Hi Hci Hs. apply Hmono. by eapply Hcov.
        - pose proof (count_nonzero_mono _ _ Hmono). lia. }
      destruct e; try (intros [= <- <-]; by apply Hkeep).
      destruct (Nat.ltb_spec (attempts st) max_attempts);
        intros [= <- <-]; apply Hkeep; lia.
Qed.

Lemma generate_loop_inv (fuel : nat) (st st' : gen_state) (cls : list (list bool)) :
  gen_inv self prev base st →
  generate_loop self fuel st = Returned cls st' →
  cls = initial_clusters st' ∧ n_generated st' = n_clusters self ∧
  gen_inv self prev base st'.
Proof.
  revert st. induction fuel as [|fuel IH]; intros st Hinv; [done|]. simpl.
  destruct (grow_remaining _ _ st) as [ex st1] eqn:Er.
  apply grow_remaining_inv in Er;
    [| done | destruct Hinv as ((_ & _ & ? & _) & _); lia].
  assert (Hgo : (if n_generated st1 =? n_clusters self
                 then Returned (initial_clusters st1) st1
                 else generate_loop self fuel st1) = Returned cls st' →
    cls = initial_clusters st' ∧ n_generated st' = n_clusters self ∧
    gen_inv self prev base st').
  { destruct (Nat.eqb_spec (n_generated st1) (n_clusters self)).
    - by intros [= <- <-].
    - by apply IH. }
  destruct ex; [done | done | by intros ?].
Qed.

End InitialClustersInvariant.

Lemma gen_inv_initial (self : ClusterMCMC) (g : Rand) :
  gen_inv self [] 0
          (mkGen 0 (replicate (n_clusters self) (zeros (n_sites self)))
                 (zeros (n_sites self)) 0 g).
Proof.
  split; [apply gen_wf_initial|].
  split_and!; simpl; try done; try lia; try (intros; lia).
Qed.

(** X2. The matrix [generate_initial_clusters] returns from scratch has
    [n_clusters] rows; every row is a vector over the [n_sites] sites with
    exactly [grown_size initial_size] sites (the initial size, or 1 when it
    is below 1), connected in the adjacency graph. *)
Theorem initial_clusters_shape (self : ClusterMCMC) (fuel : nat) (g : Rand)
    (cls : list (list bool)) (st : gen_state) :
  initial_sample self = None →
  generate_initial_clusters self fuel g = Returned cls st →
  length cls = n_clusters self ∧
  ∀ i ci, cls !! i = Some ci →
          grown_cluster (n_sites self) (adj_mat self) (initial_size self) ci.
Proof.
  intros Hnone. unfold generate_initial_clusters. rewrite Hnone.
  destruct (Nat.eqb_spec (n_clusters self) 0) as [Hz|Hnz].
  - intros [= <- <-]. split; [done|]. intros i ci Hi. by rewrite lookup_nil in Hi.
  - intros Hrun.
    apply (generate_loop_inv self [] 0) in Hrun as (-> & Hng & Hinv);
      [|apply gen_inv_initial].
    destruct Hinv as ((Hlen & _) & _ & _ & Hgrown & _).
    split; [done|]. intros i ci Hi. apply (Hgrown i ci); [|done].
    apply lookup_lt_Some in Hi. simpl. lia.
Qed.

Lemma initial_clusters_shape_witness :
  length [[false; true; true; false; false]; [false; false; false; true; true]]
  = n_clusters (growth_only 5 chain5 2 2) ∧
  ∀ i ci,
    [[false; true; true; false; false]; [false; false; false; true; true]] !! i = Some ci →
    grown_cluster (n_sites (growth_only 5 chain5 2 2)) (adj_mat (growth_only 5 chain5 2 2))
                  (initial_size (growth_only 5 chain5 2 2)) ci.
Proof.
  apply (initial_clusters_shape (growth_only 5 chain5 2 2) 5 (mkRand (λ _, 2) 0) _
           (mkGen 2 [[false; true; true; false; false]; [false; false; false; true; true]]
                  [false; true; true; true; true] 0 (mkRand (λ _, 2) 4))).
  - reflexivity.
  - vm_compute. reflexivity.
Defined.

(** X3. When [n_clusters] clusters of [grown_size initial_size] sites do not
    fit into the [n_sites] sites, [generate_initial_clusters] never returns
    from scratch: it ends with the [ValueError] of the exhausted retries. *)
Theorem initial_clusters_do_not_fit (self : ClusterMCMC) (fuel : nat) (g : Rand) :
  initial_sample self = None →
  n_sites self < n_clusters self * grown_size (initial_size self) →
  (∀ cls st, generate_initial_clusters self fuel g ≠ Returned cls st) ∧
  (max_attempts < fuel →
   ∃ st, generate_initial_clusters self fuel g = Failed ValueError st ∧
         attempts st = max_attempts).
Proof.
  intros Hnone Hfit.
  assert (Hnever : ∀ cls st, generate_initial_clusters self fuel g ≠ Returned cls st).
  { intros cls st. unfold generate_initial_clusters. rewrite Hnone.
    destruct (Nat.eqb_spec (n_clusters self) 0) as [Hz|Hnz]; [rewrite Hz in Hfit; lia|].
    intros Hrun.
    apply (generate_loop_inv self [] 0) in Hrun as (-> & Hng & Hinv);
      [|apply gen_inv_initial].
    destruct Hinv as ((_ & Hlocc & _) & _ & _ & _ & _ & _ & Hcount).
    pose proof (count_nonzero_le_length (occupied st)) as Hle.
    simpl in Hcount. rewrite Nat.sub_0_r, Hng in Hcount. lia. }
  split; [done|]. intros Hfuel.
  assert (Hnz : n_clusters self ≠ 0) by (intros Hz; rewrite Hz in Hfit; lia).
  revert Hnever. unfold generate_initial_clusters. rewrite Hnone.
  destruct (Nat.eqb_spec (n_clusters self) 0) as [?|_]; [done|].
  pose proof (gen_wf_initial self g) as Hwf.
  pose proof (generate_loop_result self fuel _ Hwf) as Hres.
  pose proof (generate_loop_terminates self fuel _ Hwf ltac:(cbn [attempts]; lia)) as Hterm.
  destruct (generate_loop self fuel _) as [cls st|e st|]; intros Hnever.
  - by destruct (Hnever cls st).
  - exists st. by destruct Hres as [-> ->].
  - done.
Qed.

Lemma initial_clusters_do_not_fit_witness :
  (∀ cls st,
     generate_initial_clusters (growth_only 2 isolated2 2 2) 1001 (mkRand (λ _, 0) 0)
     ≠ Returned cls st) ∧
  (max_attempts < 1001 →
   ∃ st, generate_initial_clusters (growth_only 2 isolated2 2 2) 1001 (mkRand (λ _, 0) 0)
         = Failed ValueError st ∧ attempts st = max_attempts).
Proof.
  apply (initial_clusters_do_not_fit (growth_only 2 isolated2 2 2) 1001 (mkRand (λ _, 0) 0)).
  - reflexivity.
  - vm_compute. lia.
Defined.

(** ** Resuming with fewer or more clusters *)

Section PartialResume.

Variable self : ClusterMCMC.

Lemma copy_previous_spec (rows : list (list bool)) (st : gen_state) :
  Forall (λ v, length v = n_sites self) rows →
  n_generated st + length rows ≤ length (initial_clusters st) →
  length (occupied st) = n_sites self →
  ∃ st',
    copy_previous self rows st = Ok st' ∧
    n_generated st' = n_generated st + length rows ∧
    length (initial_clusters st') = length (initial_clusters st) ∧
    length (occupied st') = n_sites self ∧
    attempts st' = attempts st ∧ rand st' = rand st ∧
    (∀ i, i < n_generated st → initial_clusters st' !! i = initial_clusters st !! i) ∧
    (∀ j v, rows !! j = Some v → initial_clusters st' !! (n_generated st + j) = Some v) ∧
    (∀ s, on (occupied st') s ↔
          on (occupied st) s ∨ ∃ j v, rows !! j = Some v ∧ on v s).
Proof.
  intros Hshape. revert st.
  induction Hshape as [|v rows Hv Hshape IH]; intros st Hlen Hocc; simpl.
  - exists st. split_and!; try done; try lia.
    all: try (intros j v Hj; by rewrite lookup_nil in Hj).
    intros s. split; [by left|]. intros [?|(j & v & Hj & _)]; [done|].
    by rewrite lookup_nil in Hj.
  - simpl in Hlen. rewrite assign_row_Ok; [| lia | by apply Nat.eqb_eq].
    unfold mbind, outcome_bind.
    destruct (IH (mkGen (S (n_generated st)) (<[n_generated st := v]> (initial_clusters st))
                        (vor (occupied st) v) (attempts st) (rand st)))
      as (st' & Hrun & Hng & Hlic & Hlocc & Hatt & Hrand & Hold & Hnew & Hon).
    { simpl. rewrite length_insert. lia. }
    { simpl. unfold vor. rewrite length_zip_with. lia. }
    simpl in *. exists st'. split_and!; try done.
    + lia.
    + by rewrite Hlic, length_insert.
    + intros i Hi. rewrite Hold by lia. by rewrite list_lookup_insert_ne by lia.
    + intros j w Hj. destruct j as [|j]; simpl in Hj.
      * injection Hj as <-. rewrite Nat.add_0_r, Hold by lia.
        by rewrite list_lookup_insert_eq by lia.
      * replace (n_generated st + S j) with (S (n_generated st) + j) by lia.
        by apply Hnew.
    + intros s. rewrite Hon, on_vor by lia. split.
      * intros [[?|?]|(j & w & Hj & Hw)]; [by left | right; by exists 0, v |].
        right. by exists (S j), w.
      * intros [?|(j & w & Hj & Hw)]; [left; by left|].
        destruct j as [|j]; simpl in Hj.
        -- injection Hj as <-. left. by right.
        -- right. by exists j, w.
Qed.

Lemma copy_previous_too_many (rows : list (list bool)) (st : gen_state) :
  Forall (λ v, length v = n_sites self) rows →
  n_generated st ≤ length (initial_clusters st) →
  length (initial_clusters st) < n_generated st + length rows →
  copy_previous self rows st = Raise IndexError.
Proof.
  intros Hshape. revert st.
  induction Hshape as [|v rows Hv Hshape IH]; intros st Hle Hlen; simpl in *; [lia|].
  destruct (decide (n_generated st < length (initial_clusters st))) as [Hlt|Hge].
  - rewrite assign_row_Ok; [| lia | by apply Nat.eqb_eq].
    unfold mbind, outcome_bind. apply IH; simpl; rewrite length_insert; lia.
  - unfold assign_row. destruct (Nat.ltb_spec (n_generated st) (length (initial_clusters st)));
      [lia | done].
Qed.

End PartialResume.

(** X4. When the previous sample holds no more clusters than the model (and
    its rows have [n_sites] entries), the matrix [generate_initial_clusters]
    returns starts with the previous clusters, unchanged; every further row
    is a freshly grown cluster that shares no site with any row before it, in
    particular with no previous cluster. *)
Theorem partial_resume_clusters (self : ClusterMCMC) (prev : Sample) (fuel : nat)
    (g : Rand) (cls : list (list bool)) (st : gen_state) :
  initial_sample self = Some prev →
  Forall (λ v, length v = n_sites self) (clusters prev) →
  length (clusters prev) ≤ n_clusters self →
  generate_initial_clusters self fuel g = Returned cls st →
  length cls = n_clusters self ∧
  (∀ i ci, clusters prev !! i = Some ci → cls !! i = Some ci) ∧
  (∀ j cj, length (clusters prev) ≤ j → cls !! j = Some cj →
     grown_cluster (n_sites self) (adj_mat self) (initial_size self) cj ∧
     ∀ i ci s, i < j → cls !! i = Some ci → ¬ (on ci s ∧ on cj s)).
Proof.
  intros Hprev Hshape Hlen. unfold generate_initial_clusters. rewrite Hprev.
  destruct (Nat.eqb_spec (n_clusters self) 0) as [Hz|Hnz].
  - intros [= <- <-]. destruct (clusters prev); [|simpl in Hlen; lia].
    split_and!; [done | done |]. intros j cj _ Hj. by rewrite lookup_nil in Hj.
  - set (st0 := mkGen 0 _ _ 0 g).
    destruct (copy_previous_spec self (clusters prev) st0 Hshape)
      as (st1 & -> & Hng & Hlic & Hlocc & Hatt & Hrand & _ & Hnew & Hon).
    { simpl. rewrite length_replicate. lia. }
    { simpl. apply length_zeros. }
    simpl in Hng, Hlic, Hatt, Hnew. rewrite length_replicate in Hlic.
    intros Hrun.
    apply (generate_loop_inv self (clusters prev) 0) in Hrun as (-> & Hfull & Hinv).
    + destruct Hinv as ((Hl & _) & _ & Hkeep & Hgrown & _ & Hapart & _).
      split_and!; [done | done |]. intros j cj Hj Hcj.
      assert (j < n_generated st) by (apply lookup_lt_Some in Hcj; lia).
      split; [apply (Hgrown j); [lia | done]|].
      intros i ci s Hij Hci. apply (Hapart i j); [lia | done | done | done].
    + split_and!; simpl.
      * split_and!; [done | done | lia | lia].
      * lia.
      * intros i ci Hi. by apply (Hnew i ci).
      * intros i ci Hi. lia.
      * intros i ci s Hi Hci Hs. apply Hon. right. exists i, ci. split; [|done].
        destruct (lookup_lt_is_Some_2 (clusters prev) i ltac:(lia)) as [v Hv].
        rewrite (Hnew i v Hv) in Hci. congruence.
      * intros i j ci cj s Hij Hj. lia.
      * lia.
Qed.

Lemma partial_resume_clusters_witness :
  length [[true; true; false; false; false]; [false; false; false; true; true]]
  = n_clusters growing_sampler ∧
  (∀ i ci, clusters one_cluster_sample !! i = Some ci →
     [[true; true; false; false; false]; [false; false; false; true; true]] !! i = Some ci) ∧
  (∀ j cj, length (clusters one_cluster_sample) ≤ j →
     [[true; true; false; false; false]; [false; false; false; true; true]] !! j = Some cj →
     grown_cluster (n_sites growing_sampler) (adj_mat growing_sampler)
                   (initial_size growing_sampler) cj ∧
     ∀ i ci s, i < j →
       [[true; true; false; false; false]; [false; false; false; true; true]] !! i = Some ci →
       ¬ (on ci s ∧ on cj s)).
Proof.
  apply (partial_resume_clusters growing_sampler one_cluster_sample 3 (mkRand (λ _, 1) 0) _
           (mkGen 2 [[true; true; false; false; false]; [false; false; false; true; true]]
                  [true; true; false; true; true] 0 (mkRand (λ _, 1) 2))).
  - reflexivity.
  - repeat constructor.
  - simpl. lia.
  - vm_compute. reflexivity.
Defined.

(** X5. A previous sample with more clusters than the model (which has at
    least one) makes [generate_initial_clusters] raise [IndexError] before
    any cluster is grown. *)
Theorem resume_too_many_clusters (self : ClusterMCMC) (prev : Sample) (fuel : nat)
    (g : Rand) :
  initial_sample self = Some prev →
  Forall (λ v, length v = n_sites self) (clusters prev) →
  n_clusters self ≠ 0 →
  n_clusters self < length (clusters prev) →
  ∃ st, generate_initial_clusters self fuel g = Failed IndexError st ∧
        attempts st = 0 ∧ rand st = g.
Proof.
  intros Hprev Hshape Hnz Hmany. unfold generate_initial_clusters. rewrite Hprev.
  destruct (Nat.eqb_spec (n_clusters self) 0) as [?|_]; [done|].
  rewrite copy_previous_too_many; [by eexists | done | simpl; lia |].
  simpl. rewrite length_replicate. lia.
Qed.

Lemma resume_too_many_clusters_witness :
  ∃ st, generate_initial_clusters shrunk_sampler 3 (mkRand (λ _, 1) 0)
        = Failed IndexError st ∧ attempts st = 0 ∧ rand st = mkRand (λ _, 1) 0.
Proof.
  apply (resume_too_many_clusters shrunk_sampler previous_sample 3 (mkRand (λ _, 1) 0)).
  - reflexivity.
  - repeat constructor.
  - discriminate.
  - simpl. lia.
Defined.


(** ** The candidate pool, whatever the cap *)

Lemma on_zip_with_andb (a b : list bool) (s : nat) :
  on (zip_with andb a b) s ↔ on a s ∧ on b s.
Proof.
  unfold on. rewrite lookup_zip_with_Some. split.
  - intros (x & y & Hxy & -> & ->). symmetry in Hxy.
    apply andb_true_iff in Hxy as [-> ->]. done.
  - intros [Ha Hb]. by exists true, true.
Qed.

Lemma count_nonzero_zero (v : list bool) : count_nonzero v = 0 ↔ ∀ s, ¬ on v s.
Proof.
  unfold count_nonzero. split.
  - intros Hz s Hs. apply elem_of_nonzero in Hs.
    apply length_zero_iff_nil in Hz. rewrite Hz in Hs. inversion Hs.
  - intros Hno. destruct (nonzero v) as [|s l] eqn:E; [done|]. exfalso.
    apply (Hno s), elem_of_nonzero. rewrite E. by left.
Qed.

(** The pool for any cap: it holds the chosen cluster, lies within the
    available sites, and keeps 10 unoccupied sites when it subsamples and all
    of them otherwise. *)
Lemma candidate_pool_spec (n : nat) (rows : list (list bool)) (i : nat)
    (cluster : list bool) (max_size : Z) (g : Rand) :
  Forall (λ r, length r = n) rows →
  rows !! i = Some cluster →
  (∀ s, on cluster s → on (candidate_pool (np_any_axis0 n rows) cluster max_size g).1 s) ∧
  (∀ s, on (candidate_pool (np_any_axis0 n rows) cluster max_size g).1 s →
        on cluster s ∨ np_any_axis0 n rows !! s = Some false) ∧
  length (candidate_pool (np_any_axis0 n rows) cluster max_size g).1 = n ∧
  count_nonzero (unoccupied_in (candidate_pool (np_any_axis0 n rows) cluster max_size g).1
                               (np_any_axis0 n rows))
  = (if (max_size <? Z.of_nat (count_nonzero (vor (negb <$> np_any_axis0 n rows) cluster)))%Z
        && (10 <? count_nonzero (negb <$> np_any_axis0 n rows))
     then 10 else count_nonzero (negb <$> np_any_axis0 n rows)).
Proof.
  intros Hrect Hi.
  destruct (np_any_axis0_spec n rows Hrect) as [Hlocc Hsub].
  set (occ := np_any_axis0 n rows) in *.
  assert (Hlc : length cluster = n).
  { rewrite Forall_lookup in Hrect. by eapply Hrect. }
  assert (Hlm : length (negb <$> occ) = length cluster) by (rewrite length_fmap; lia).
  pose proof (vor_covers _ _ Hlm) as Hcov.
  assert (Hcl : ∀ s, on cluster s → (negb <$> occ) !! s ≠ Some true).
  { intros s Hs. specialize (Hsub i cluster s Hi Hs). unfold on in Hsub.
    rewrite list_lookup_fmap, Hsub. done. }
  assert (Hlav : length (vor (negb <$> occ) cluster) = n).
  { unfold vor. rewrite length_zip_with. lia. }
  assert (Hplain :
    (∀ s, on cluster s → on (vor (negb <$> occ) cluster) s) ∧
    (∀ s, on (vor (negb <$> occ) cluster) s → on cluster s ∨ occ !! s = Some false) ∧
    length (vor (negb <$> occ) cluster) = n ∧
    count_nonzero (unoccupied_in (vor (negb <$> occ) cluster) occ)
    = count_nonzero (negb <$> occ)).
  { split_and!; [| | done |].
    - intros s Hs. apply on_vor; [done | by right].
    - intros s Hs. apply on_vor in Hs; [|done].
      destruct Hs as [Hs|Hs]; [right; by apply on_negb | by left].
    - unfold unoccupied_in. by apply zip_with_andb_self_count. }
  unfold candidate_pool.
  destruct (max_size <? _)%Z; [|done].
  destruct (Nat.ltb_spec 10 (count_nonzero (negb <$> occ))) as [Hmany|Hfew]; [|done].
  pose proof (random_subset_spec (count_nonzero (negb <$> occ)) 10 g ltac:(lia))
    as [Hlsub Hcsub].
  destruct (random_subset _ 10 g) as [sub g']. cbn [fst andb] in *.
  split_and!.
  - intros s Hs. unfold on. rewrite mask_and_keep by by apply Hcl.
    apply on_vor; [done | by right].
  - intros s Hs. apply mask_and_on in Hs. apply on_vor in Hs; [|done].
    destruct Hs as [Hs|Hs]; [right; by apply on_negb | by left].
  - by rewrite mask_and_length.
  - unfold unoccupied_in. rewrite mask_and_count; [exact Hcsub | exact Hcov | exact Hlsub].
Qed.

(** X6. The pool of candidate sites is empty - the early rejection of the
    operator - exactly when the chosen cluster is empty and no site is
    unoccupied. *)
Theorem candidate_pool_empty (n : nat) (rows : list (list bool)) (i : nat)
    (cluster : list bool) (max_size : Z) (g : Rand) :
  Forall (λ r, length r = n) rows →
  rows !! i = Some cluster →
  count_nonzero (candidate_pool (np_any_axis0 n rows) cluster max_size g).1 = 0 ↔
  count_nonzero cluster = 0 ∧ count_nonzero (negb <$> np_any_axis0 n rows) = 0.
Proof.
  intros Hrect Hi.
  destruct (candidate_pool_spec n rows i cluster max_size g Hrect Hi)
    as (Hkeep & Hin & _ & Hcount).
  set (pool := (candidate_pool (np_any_axis0 n rows) cluster max_size g).1) in *.
  split.
  - intros Hz. rewrite count_nonzero_zero in Hz. split.
    + apply count_nonzero_zero. intros s Hs. by apply (Hz s), Hkeep.
    + assert (Hu : count_nonzero (unoccupied_in pool (np_any_axis0 n rows)) = 0).
      { apply count_nonzero_zero. intros s Hs.
        apply on_zip_with_andb in Hs as [Hs _]. by apply (Hz s). }
      rewrite Hu in Hcount. destruct (_ && _); [done | lia].
  - intros [Hc Hu]. rewrite count_nonzero_zero in Hc, Hu.
    apply count_nonzero_zero. intros s Hs.
    destruct (Hin s Hs) as [H|H]; [by apply (Hc s) | by apply (Hu s), on_negb].
Qed.

Lemma candidate_pool_empty_witness :
  count_nonzero (candidate_pool (np_any_axis0 2 [[false; false]; [true; true]])
                                [false; false] 1 (mkRand (λ _, 0) 0)).1 = 0 ↔
  count_nonzero [false; false] = 0 ∧
  count_nonzero (negb <$> np_any_axis0 2 [[false; false]; [true; true]]) = 0.
Proof.
  apply (candidate_pool_empty 2 [[false; false]; [true; true]] 0 [false; false] 1
           (mkRand (λ _, 0) 0)).
  - repeat constructor.
  - reflexivity.
Defined.


(** ** What an accepted cluster move changes *)

Lemma mask_set_keep (a m v : list bool) (s : nat) :
  m !! s ≠ Some true → mask_set a m v !! s = a !! s.
Proof.
  revert m v s. induction a as [|x a IH]; intros m v s Hs; [done|].
  destruct m as [|[] m]; [done| |]; destruct s as [|s]; simpl in *; try done.
  - destruct v; simpl; by apply IH.
  - by apply IH.
Qed.

Lemma mask_set_length (a m v : list bool) : length (mask_set a m v) = length a.
Proof.
  revert m v. induction a as [|x a IH]; intros m v; [done|].
  destruct m as [|[] m]; [done| |]; [destruct v|]; simpl; by rewrite IH.
Qed.

Section GibbsishMoves.

Variable self : ClusterMCMC.
Variable is_warmup : bool.
Variable warmup_max_size : list Z.
Variable logp : Type.
Variables Q_REJECT Q_BACK_REJECT : logp.
Variable log_sum : list Q → logp.
Variable logp_add : logp → logp → logp.
Variable posterior_cluster : Sample → nat → list bool → list Q.
Variable source_log_q_back : Sample → list bool → logp.
Variable gibbs_sample_sources : Sample → list bool → Rand → Sample * logp * Rand.
Variable random_random : nat → Rand → list Q * Rand.

(** The drawn membership differs from the chosen cluster only at sites of
    the pool, and the pool holds only sites of the cluster and unoccupied
    sites. *)
Lemma propose_sites (sample : Sample) (c : option nat) (g g' : Rand) (p : proposal) :
  Forall (λ r, length r = n_sites self) (clusters sample) →
  propose self is_warmup warmup_max_size posterior_cluster random_random sample c g
  = (Ok (Some p), g') →
  resolve_max_size self is_warmup warmup_max_size c = Ok (p_max_size p) ∧
  length (p_new_cluster p) = n_sites self ∧
  ∀ s, on (p_new_cluster p) s →
       on (p_cluster p) s ∨
       np_any_axis0 (n_sites self) (clusters sample) !! s = Some false.
Proof.
  intros Hrect. unfold propose.
  destruct (resolve_max_size _ _ _ c) as [ms|]; [|done].
  destruct (choice _ g) as [[i g1]|]; [|done].
  destruct (clusters sample !! i) as [cl|] eqn:Ei; [|done].
  destruct (candidate_pool_spec (n_sites self) (clusters sample) i cl ms g1 Hrect Ei)
    as (_ & Hin & _ & _).
  destruct (candidate_pool _ cl ms g1) as [av g2]. cbn [fst] in Hin.
  destruct (count_nonzero av =? 0); [done|].
  destruct (random_random _ g2) as [u g3]. intros [= <- <-]. cbn.
  split; [done|]. split.
  - rewrite mask_set_length. rewrite Forall_lookup in Hrect. by eapply Hrect.
  - intros s Hs. destruct (decide (av !! s = Some true)) as [Hav|Hav].
    + by apply Hin.
    + left. unfold on in *. by rewrite mask_set_keep in Hs.
Qed.

(** X7. Without source resampling, whatever the operator returns is either
    the rejection (the sample it was given, with [Q_REJECT] and
    [Q_BACK_REJECT]) or the sample with one cluster replaced by a vector of
    the same length whose size lies between [min_size] and the maximal size
    in force, and which holds no site of another cluster that the replaced
    cluster did not hold: every site it adds was occupied by no cluster. *)
Theorem gibbsish_move_local (sample : Sample) (resample_source : bool)
    (c : option nat) (g g' : Rand) (s' : Sample) (lq lqb : logp) :
  Forall (λ r, length r = n_sites self) (clusters sample) →
  sample_source self && resample_source = false →
  gibbsish_sample_clusters self is_warmup warmup_max_size logp Q_REJECT Q_BACK_REJECT
    log_sum logp_add posterior_cluster source_log_q_back gibbs_sample_sources
    random_random sample resample_source c g
  = (Ok (s', lq, lqb), g') →
  (s', lq, lqb) = (sample, Q_REJECT, Q_BACK_REJECT) ∨
  ∃ (i : nat) (cluster new : list bool) (m : Z),
    clusters sample !! i = Some cluster ∧
    s' = update_cluster sample i new ∧
    length new = n_sites self ∧
    resolve_max_size self is_warmup warmup_max_size c = Ok m ∧
    (min_size self ≤ Z.of_nat (count_nonzero new) ≤ m)%Z ∧
    ∀ s, on new s →
         on cluster s ∨ ∀ j cj, clusters sample !! j = Some cj → ¬ on cj s.
Proof.
  intros Hrect Hsrc. unfold gibbsish_sample_clusters.
  destruct (propose _ _ _ _ _ sample c g) as [[[p|]|e] g1] eqn:Hp; [| |done].
  2:{ intros [= <- <- <- <-]. by left. }
  destruct (size_in_range self p) eqn:Hsize; cbn [negb];
    [|intros [= <- <- <- <-]; by left].
  destruct (any_zero (q_back_per_site p)); [intros [= <- <- <- <-]; by left|].
  rewrite Hsrc. intros [= <- <- <- <-]. right.
  destruct (propose_new_cluster _ _ _ _ _ _ _ _ _ _ Hp) as (Hcl & Hnew & Hsz).
  destruct (propose_sites sample c g g1 p Hrect Hp) as (Hms & Hlen & Hsites).
  exists (p_i_cluster p), (p_cluster p), (p_new_cluster p), (p_max_size p).
  split_and!; try done.
  - unfold size_in_range in Hsize. apply andb_true_iff in Hsize as [H1 _].
    apply Z.leb_le in H1. lia.
  - unfold size_in_range in Hsize. apply andb_true_iff in Hsize as [_ H2].
    apply Z.leb_le in H2. lia.
  - intros s Hs. destruct (Hsites s Hs) as [H|H]; [by left|]. right.
    intros j cj Hj Hon.
    destruct (np_any_axis0_spec (n_sites self) (clusters sample) Hrect) as [_ Hsub].
    specialize (Hsub j cj s Hj Hon). unfold on in Hsub. congruence.
Qed.

(** X8. The local variant of the operator hands no chain index to
    [gibbsish_sample_clusters]: in a warm-up sampler it raises [KeyError]
    before it draws anything, and outside warm-up it is the operator itself,
    whose result does not depend on the chain index. *)
Theorem gibbsish_local_needs_chain_index (sample : Sample) (resample_source : bool)
    (c : option nat) (g : Rand) :
  gibbsish_sample_clusters_local self true warmup_max_size logp Q_REJECT Q_BACK_REJECT
    log_sum logp_add posterior_cluster source_log_q_back gibbs_sample_sources
    random_random sample resample_source g
  = (Raise KeyError, g) ∧
  gibbsish_sample_clusters_local self false warmup_max_size logp Q_REJECT Q_BACK_REJECT
    log_sum logp_add posterior_cluster source_log_q_back gibbs_sample_sources
    random_random sample resample_source g
  = gibbsish_sample_clusters self false warmup_max_size logp Q_REJECT Q_BACK_REJECT
      log_sum logp_add posterior_cluster source_log_q_back gibbs_sample_sources
      random_random sample resample_source c g.
Proof. split; reflexivity. Qed.

End GibbsishMoves.

(** The one-site cluster {0} grows to all three sites. *)
Lemma gibbsish_move_local_witness :
  (update_cluster tiny_sample 0 [true; true; true], Some (1 # 8)%Q, Some (1 # 8)%Q)
  = (tiny_sample, None, None) ∨
  ∃ (i : nat) (cluster new : list bool) (m : Z),
    clusters tiny_sample !! i = Some cluster ∧
    update_cluster tiny_sample 0 [true; true; true] = update_cluster tiny_sample i new ∧
    length new = n_sites roomy_sampler ∧
    resolve_max_size roomy_sampler false [] None = Ok m ∧
    (min_size roomy_sampler ≤ Z.of_nat (count_nonzero new) ≤ m)%Z ∧
    ∀ s, on new s →
         on cluster s ∨ ∀ j cj, clusters tiny_sample !! j = Some cj → ¬ on cj s.
Proof.
  apply (gibbsish_move_local roomy_sampler false [] (option Q) None None
           (λ q, Some (Qred (foldr Qmult 1%Q q))) (λ a _, a)
           (λ _ _ av, replicate (count_nonzero av) (1 # 2)%Q)
           (λ _ _, None) (λ s _ g, (s, None, g))
           (λ n g, (replicate n (1 # 4)%Q, g))
           tiny_sample true None (mkRand (λ _, 0) 0) (mkRand (λ _, 0) 1)).
  - repeat constructor.
  - reflexivity.
  - vm_compute. reflexivity.
Defined.


(** ** The tables indexed by confounder *)

Lemma foldl_insert_other {A V} (f : A → string) (v : A → V) (l : list A)
    (m : gmap string V) (k : string) :
  k ∉ f <$> l → foldl (λ m a, <[f a := v a]> m) m l !! k = m !! k.
Proof.
  revert m. induction l as [|a l IH]; intros m Hk; [done|]. cbn [foldl].
  rewrite fmap_cons, not_elem_of_cons in Hk. destruct Hk as [Hne Hk].
  rewrite IH by done. by rewrite lookup_insert_ne.
Qed.

Lemma foldl_insert_member {A V} (f : A → string) (v : A → V) (l : list A)
    (m : gmap string V) (a : A) :
  NoDup (f <$> l) → a ∈ l → foldl (λ m a, <[f a := v a]> m) m l !! f a = Some (v a).
Proof.
  revert m. induction l as [|b l IH]; intros m Hnd Ha; [inversion Ha|]. cbn [foldl].
  rewrite fmap_cons in Hnd. apply NoDup_cons in Hnd as [Hb Hnd].
  apply elem_of_cons in Ha as [->|Ha].
  - rewrite foldl_insert_other by done. by rewrite lookup_insert_eq.
  - by apply IH.
Qed.

Lemma enumerate_keys (cs : list (string * list string)) :
  (λ ik : nat * (string * list string), ik.2.1) <$> zip (seq 0 (length cs)) cs
  = fst <$> cs.
Proof.
  generalize 0. induction cs as [|kv cs IH]; intros j; [done|].
  cbn. f_equal. apply IH.
Qed.

(** The index of the confounder at position [i]. *)
Lemma source_index_at (self : ClusterMCMC) (i : nat) (kv : string * list string) :
  NoDup (fst <$> confounders self) →
  confounders self !! i = Some kv →
  get_source_index self !! kv.1 = Some (S i).
Proof.
  intros Hnd Hi. unfold get_source_index.
  apply (foldl_insert_member (λ ik : nat * (string * list string), ik.2.1)
           (λ ik, S ik.1) _ ∅ (i, kv)).
  - by rewrite enumerate_keys.
  - apply list_elem_of_lookup. exists i. apply lookup_zip_with_Some. exists i, kv.
    split_and!; [done | | done].
    apply lookup_seq. split; [done|]. by eapply lookup_lt_Some.
Qed.

(** X9. With distinct confounder names, [get_source_index] numbers the
    confounders 1, 2, ... in their order: the i-th confounder (from 0) has
    index i + 1, every index in the table is between 1 and n_sources - 1
    and belongs to the confounder at that position; index 0 is left to the
    cluster effect. *)
Theorem source_index_numbering (self : ClusterMCMC) :
  NoDup (fst <$> confounders self) →
  (∀ i kv, confounders self !! i = Some kv →
           get_source_index self !! kv.1 = Some (S i)) ∧
  (∀ k idx, get_source_index self !! k = Some idx →
            1 ≤ idx < n_sources self ∧
            ∃ v, confounders self !! (idx - 1) = Some (k, v)).
Proof.
  intros Hnd.
  split; [intros i kv; by apply source_index_at|].
  intros k idx Hk.
  destruct (decide (k ∈ fst <$> confounders self)) as [Hin|Hout].
  - apply list_elem_of_fmap in Hin as ([k' v] & -> & Hin).
    apply list_elem_of_lookup in Hin as [i Hi].
    pose proof (source_index_at self i (k', v) Hnd Hi) as Hs. cbn [fst] in *.
    rewrite Hk in Hs. injection Hs as ->.
    apply lookup_lt_Some in Hi as Hlt. unfold n_sources.
    split; [lia|]. exists v. by replace (S i - 1) with i by lia.
  - exfalso. unfold get_source_index in Hk.
    rewrite foldl_insert_other in Hk by (by rewrite enumerate_keys).
    by rewrite lookup_empty in Hk.
Qed.

Lemma source_index_numbering_witness :
  (∀ i kv, confounders (with_confounders true) !! i = Some kv →
           get_source_index (with_confounders true) !! kv.1 = Some (S i)) ∧
  (∀ k idx, get_source_index (with_confounders true) !! k = Some idx →
            1 ≤ idx < n_sources (with_confounders true) ∧
            ∃ v, confounders (with_confounders true) !! (idx - 1) = Some (k, v)).
Proof.
  apply (source_index_numbering (with_confounders true)).
  apply (bool_decide_eq_true_1 _). vm_compute. reflexivity.
Defined.

(** X10. With distinct confounder names, [get_groups_per_confounder] maps
    every confounder to the number of its groups and holds no other key. *)
Theorem groups_per_confounder (self : ClusterMCMC) :
  NoDup (fst <$> confounders self) →
  (∀ k v, (k, v) ∈ confounders self →
          get_groups_per_confounder self !! k = Some (length v)) ∧
  (∀ k, k ∉ fst <$> confounders self → get_groups_per_confounder self !! k = None).
Proof.
  intros Hnd. split.
  - intros k v Hin. unfold get_groups_per_confounder.
    apply (foldl_insert_member fst (λ kv : string * list string, length kv.2) _ ∅ (k, v));
      done.
  - intros k Hk. unfold get_groups_per_confounder.
    rewrite (foldl_insert_other fst (λ kv : string * list string, length kv.2)) by done.
    apply lookup_empty.
Qed.

Lemma groups_per_confounder_witness :
  (∀ k v, (k, v) ∈ confounders (with_confounders true) →
          get_groups_per_confounder (with_confounders true) !! k = Some (length v)) ∧
  (∀ k, k ∉ fst <$> confounders (with_confounders true) →
        get_groups_per_confounder (with_confounders true) !! k = None).
Proof.
  apply (groups_per_confounder (with_confounders true)).
  apply (bool_decide_eq_true_1 _). vm_compute. reflexivity.
Defined.


(** ** Which operators are built, and when *)

Lemma dict_set_fresh {V} (k : string) (v : V) (d : dict V) :
  k ∉ fst <$> d → dict_set k v d = d ++ [(k, v)].
Proof.
  induction d as [|[k' v'] d IH]; intros Hk; [done|].
  rewrite fmap_cons, not_elem_of_cons in Hk. destruct Hk as [Hne Hk]. cbn in Hne.
  cbn. rewrite decide_False by done. by rewrite IH.
Qed.

Lemma dict_set_head {V} (k : string) (v : V) (kv : string * V) (d : dict V) :
  k ≠ kv.1 → dict_set k v (kv :: d) = kv :: dict_set k v d.
Proof. intros Hne. destruct kv as [k' v']. cbn in *. by rewrite decide_False. Qed.

Lemma gibbs_name_inj (k k' : string) :
  "gibbs_sample_confounding_effects_" +:+ k = "gibbs_sample_confounding_effects_" +:+ k' →
  k = k'.
Proof. intros H. by simplify_eq/=. Qed.

Lemma alter_name_inj (k k' : string) :
  "alter_confounding_effects_" +:+ k = "alter_confounding_effects_" +:+ k' → k = k'.
Proof. intros H. by simplify_eq/=. Qed.

(** Two operator names that differ in a character of their fixed parts. *)
Ltac name_neq :=
  let H := fresh in
  cbn [fst snd]; intros H; cbv [String.app String.append] in H; simplify_eq.

Ltac name_fresh H :=
  cbn [fmap list_fmap fst] in H;
  repeat (apply elem_of_cons in H as [H|H];
          [cbv [String.app String.append] in H; simplify_eq|]);
  inversion H.

Local Open Scope Q_scope.

Lemma total_weight_nonneg (l : dict Operator) :
  Forall (λ kv, 0 <= weight kv.2) l → 0 <= total_weight l.
Proof.
  induction 1 as [|kv l Hkv Hl IH].
  - unfold total_weight. cbn. lra.
  - rewrite total_weight_cons. lra.
Qed.

Lemma member_le_total_weight (l : dict Operator) (kv : string * Operator) :
  Forall (λ kv, 0 <= weight kv.2) l → kv ∈ l → weight kv.2 <= total_weight l.
Proof.
  induction 1 as [|kv' l Hkv Hl IH]; intros Hin; [inversion Hin|].
  rewrite total_weight_cons. pose proof (total_weight_nonneg l Hl).
  apply elem_of_cons in Hin as [->|Hin]; [lra|].
  specialize (IH Hin). lra.
Qed.

Section OperatorsBuilt.

Variable self : ClusterMCMC.
Variable cfg : OperatorsConfig.t.

Lemma gibbs_loop_append (r : Q) (l : list (string * list string)) (d : dict Operator) :
  NoDup (fst <$> l) →
  (∀ kv, kv ∈ l → "gibbs_sample_confounding_effects_" +:+ kv.1 ∉ fst <$> d) →
  (∀ kv, kv ∈ l → is_Some (get_source_index self !! kv.1)) →
  foldl (λ acc kv, operators ← acc; add_gibbs_confounding self cfg r operators kv)
        (Ok d) l
  = Ok (d ++ (gibbs_entry self cfg r <$> l)).
Proof.
  revert d. induction l as [|kv l IH]; intros d Hnd Hfresh Hidx.
  - cbn. by rewrite app_nil_r.
  - rewrite fmap_cons in Hnd. apply NoDup_cons in Hnd as [Hkv Hnd].
    cbn [foldl]. unfold mbind at 2, outcome_bind at 2.
    unfold add_gibbs_confounding at 2.
    destruct (Hidx kv ltac:(left)) as [idx Eidx]. rewrite Eidx.
    rewrite dict_set_fresh by (apply Hfresh; left).
    rewrite IH; [| done | |].
    + rewrite <- app_assoc. cbn. unfold gibbs_entry at 2. by rewrite Eidx.
    + intros kv' Hin. rewrite fmap_app, elem_of_app. intros [H|H].
      * revert H. apply Hfresh. by right.
      * cbn [fmap list_fmap fst] in H. apply list_elem_of_singleton in H.
        apply gibbs_name_inj in H. apply Hkv. apply list_elem_of_fmap.
        exists kv'. done.
    + intros kv' Hin. apply Hidx. by right.
Qed.

Lemma alter_loop_append (r : Q) (l : list (string * list string)) (d : dict Operator) :
  NoDup (fst <$> l) →
  (∀ kv, kv ∈ l → "alter_confounding_effects_" +:+ kv.1 ∉ fst <$> d) →
  foldl (add_alter_confounding cfg r) d l = d ++ (alter_entry cfg r <$> l).
Proof.
  revert d. induction l as [|kv l IH]; intros d Hnd Hfresh.
  - cbn. by rewrite app_nil_r.
  - rewrite fmap_cons in Hnd. apply NoDup_cons in Hnd as [Hkv Hnd].
    cbn [foldl]. unfold add_alter_confounding at 2, dict_update. cbn [foldl fst snd].
    rewrite dict_set_fresh by (apply Hfresh; left).
    rewrite IH; [| done |].
    + by rewrite <- app_assoc.
    + intros kv' Hin. rewrite fmap_app, elem_of_app. intros [H|H].
      * revert H. apply Hfresh. by right.
      * cbn [fmap list_fmap fst] in H. apply list_elem_of_singleton in H.
        apply alter_name_inj in H. apply Hkv. apply list_elem_of_fmap.
        exists kv'. done.
Qed.

(** The dictionary before normalisation, for distinct confounder names. *)
Lemma build_operators_distinct (ops0 : dict Operator) :
  NoDup (fst <$> confounders self) →
  build_operators self cfg = Ok ops0 →
  ∃ r, confounder_fraction self = Ok r ∧
    ops0 =
    if sample_source self then
      [("sample_cluster",
        mkOperator (AlterCluster true) (OperatorsConfig.clusters cfg));
       ("gibbs_sample_sources",
        mkOperator GibbsSampleSource (OperatorsConfig.source cfg));
       ("gibbs_sample_weights",
        mkOperator GibbsSampleWeights (OperatorsConfig.weights cfg));
       ("gibbs_sample_cluster_effect",
        mkOperator GibbsSampleClusterEffect (OperatorsConfig.cluster_effect cfg))]%string
      ++ (gibbs_entry self cfg r <$> confounders self)
    else
      [("sample_cluster",
        mkOperator (AlterCluster false) (OperatorsConfig.clusters cfg));
       ("alter_weights",
        mkOperator AlterWeights (OperatorsConfig.weights cfg));
       ("alter_cluster_effect",
        mkOperator AlterClusterEffect (OperatorsConfig.cluster_effect cfg))]%string
      ++ (alter_entry cfg r <$> confounders self).
Proof.
  intros Hnd. unfold build_operators.
  destruct (confounder_fraction self) as [r|] eqn:Er.
  2:{ destruct (sample_source self); done. }
  destruct (sample_source self) eqn:Es; unfold mbind at 1, outcome_bind at 1.
  - rewrite gibbs_loop_append; [intros [= <-]; by exists r | done | |].
    + intros kv _ Hin. name_fresh Hin.
    + intros kv. apply get_source_index_lookup.
  - rewrite alter_loop_append; [intros [= <-]; by exists r | done |].
    intros kv _ Hin. name_fresh Hin.
Qed.

(** The first entry is never overwritten, whatever the confounders are
    called. *)
Lemma gibbs_loop_head (r : Q) (l : list (string * list string)) (x : string * Operator)
    (d ops0 : dict Operator) :
  x.1 = "sample_cluster"%string →
  foldl (λ acc kv, operators ← acc; add_gibbs_confounding self cfg r operators kv)
        (Ok (x :: d)) l = Ok ops0 →
  ∃ rest, ops0 = x :: rest.
Proof.
  intros Hx. revert d. induction l as [|kv l IH]; intros d.
  - cbn. intros [= <-]. by eexists.
  - cbn [foldl]. unfold mbind at 2, outcome_bind at 2. unfold add_gibbs_confounding at 2.
    destruct (get_source_index self !! kv.1) as [idx|].
    + rewrite dict_set_head by (rewrite Hx; name_neq). apply IH.
    + intros Hf. exfalso. clear -Hf. induction l as [|kv' l IH]; [done|]. apply IH. exact Hf.
Qed.

Lemma alter_loop_head (r : Q) (l : list (string * list string)) (x : string * Operator)
    (d : dict Operator) :
  x.1 = "sample_cluster"%string →
  ∃ rest, foldl (add_alter_confounding cfg r) (x :: d) l = x :: rest.
Proof.
  intros Hx. revert d. induction l as [|kv l IH]; intros d.
  - cbn. by eexists.
  - cbn [foldl]. unfold add_alter_confounding at 2, dict_update. cbn [foldl fst snd].
    rewrite dict_set_head by (rewrite Hx; name_neq). apply IH.
Qed.

Lemma build_operators_head (ops0 : dict Operator) :
  build_operators self cfg = Ok ops0 →
  ∃ rest, ops0 = ("sample_cluster"%string,
                  mkOperator (AlterCluster (sample_source self))
                             (OperatorsConfig.clusters cfg)) :: rest.
Proof.
  unfold build_operators.
  destruct (confounder_fraction self) as [r|] eqn:Er.
  2:{ destruct (sample_source self); done. }
  destruct (sample_source self) eqn:Es; unfold mbind at 1, outcome_bind at 1.
  - cbn [dict_update foldl fst snd].
    rewrite !dict_set_head by name_neq. cbn [dict_set].
    intros Hf. eapply gibbs_loop_head in Hf; [exact Hf | done].
  - cbn [dict_update foldl fst snd].
    rewrite !dict_set_head by name_neq. cbn [dict_set].
    intros [= <-]. by apply alter_loop_head.
Qed.

Lemma built_operator_nonneg (r : Q) (op : Operator) :
  0 <= r →
  0 <= OperatorsConfig.clusters cfg → 0 <= OperatorsConfig.weights cfg →
  0 <= OperatorsConfig.cluster_effect cfg →
  0 <= OperatorsConfig.confounding_effects cfg → 0 <= OperatorsConfig.source cfg →
  built_operator self cfg r op → 0 <= weight op.
Proof.
  intros Hr H1 H2 H3 H4 H5 Hb. destruct Hb; cbn; try done;
    by apply Qmult_le_0_compat.
Qed.

(** X11. [get_operators] raises nothing but [ZeroDivisionError], and it
    raises it exactly when the model has no confounder or the built
    operators have total weight zero. *)
Theorem get_operators_failure (e : exn) :
  get_operators self cfg = Raise e ↔
  e = ZeroDivisionError ∧
  (confounders self = [] ∨
   ∃ ops0, build_operators self cfg = Ok ops0 ∧ total_weight ops0 == 0).
Proof.
  unfold get_operators.
  destruct (confounders self) as [|kv cs] eqn:Ec.
  - assert (Hb : build_operators self cfg = Raise ZeroDivisionError).
    { unfold build_operators, confounder_fraction. rewrite Ec.
      by destruct (sample_source self). }
    rewrite Hb. cbn. split; [intros [= <-]; split; [done | by left]|].
    intros [-> _]. done.
  - destruct (build_operators_Ok self cfg) as [ops0 Hb]; [by rewrite Ec|].
    rewrite Hb. cbn.
    destruct (build_operators_head ops0 Hb) as [rest ->].
    unfold normalize_operator_weights.
    destruct (Qeq_bool _ 0) eqn:Et.
    + apply Qeq_bool_iff in Et. split; [intros [= <-] | by intros [-> _]].
      split; [done|]. right. eexists. split; [done|exact Et].
    + split; [done|]. intros [_ [H|(ops0' & [= <-] & Hz)]]; [done|].
      apply Qeq_bool_neq in Et. done.
Qed.

(** X12. With at least one confounder, a positive weight for the cluster
    operator and no negative weight in the table, [get_operators] succeeds
    and every operator carries a weight between 0 and 1. *)
Theorem get_operators_succeeds :
  confounders self ≠ [] →
  0 < OperatorsConfig.clusters cfg → 0 <= OperatorsConfig.weights cfg →
  0 <= OperatorsConfig.cluster_effect cfg →
  0 <= OperatorsConfig.confounding_effects cfg → 0 <= OperatorsConfig.source cfg →
  ∃ ops, get_operators self cfg = Ok ops ∧
         ∀ name op, (name, op) ∈ ops → 0 <= weight op <= 1.
Proof.
  intros Hne H1 H2 H3 H4 H5.
  destruct (build_operators_Ok self cfg Hne) as [ops0 Hb].
  destruct (build_operators_members self cfg ops0 Hb) as (r & Hr & Hall).
  apply confounder_fraction_Ok in Hr.
  assert (Hr0 : 0 <= r).
  { rewrite Hr. unfold Qdiv. rewrite Qmult_1_l. apply Qinv_le_0_compat.
    unfold Qle. cbn. lia. }
  assert (Hnn : Forall (λ kv : string * Operator, 0 <= weight kv.2) ops0).
  { eapply Forall_impl; [exact Hall|]. intros kv Hkv.
    eapply built_operator_nonneg; eauto. lra. }
  assert (Htot : 0 < total_weight ops0).
  { destruct (build_operators_head ops0 Hb) as [rest ->].
    rewrite total_weight_cons. cbn [snd weight].
    apply Forall_cons in Hnn as [_ Hrest].
    pose proof (total_weight_nonneg rest Hrest). lra. }
  unfold get_operators. rewrite Hb. cbn.
  rewrite normalize_operator_weights_Ok by lra.
  eexists. split; [done|]. intros name op Hin.
  apply list_elem_of_fmap in Hin as ([k o] & [= -> ->] & Hin). cbn.
  pose proof (member_le_total_weight ops0 (k, o) Hnn Hin) as Hle. cbn in Hle.
  rewrite Forall_forall in Hnn. specialize (Hnn (k, o) Hin). cbn in Hnn.
  split.
  - apply Qle_shift_div_l; [done|]. lra.
  - apply Qle_shift_div_r; [done|]. lra.
Qed.

Local Close Scope Q_scope.

(** X13. With distinct confounder names, the dictionary [get_operators]
    returns lists the fixed operators of the branch first (four when the
    source is sampled, three otherwise) and then one operator per confounder
    in the order of the confounders, named after the confounder; when the
    source is sampled that operator carries the confounder's source index
    i + 1. *)
Theorem get_operators_names (ops : dict Operator) :
  NoDup (fst <$> confounders self) →
  get_operators self cfg = Ok ops →
  fst <$> ops
  = (if sample_source self
     then ["sample_cluster"; "gibbs_sample_sources"; "gibbs_sample_weights";
           "gibbs_sample_cluster_effect"]
     else ["sample_cluster"; "alter_weights"; "alter_cluster_effect"])%string
    ++ ((λ kv : string * list string,
           ((if sample_source self then "gibbs_sample_confounding_effects_"
             else "alter_confounding_effects_") +:+ kv.1)%string)
        <$> confounders self) ∧
  ∀ i kv, confounders self !! i = Some kv →
    ∃ op, ops !! ((if sample_source self then 4 else 3) + i)
          = Some (((if sample_source self then "gibbs_sample_confounding_effects_"
                    else "alter_confounding_effects_") +:+ kv.1)%string, op) ∧
          kind op = if sample_source self
                    then GibbsSampleConfoundingEffects kv.1 (S i)
                    else AlterConfoundingEffects kv.1.
Proof.
  intros Hnd. unfold get_operators.
  destruct (build_operators self cfg) as [ops0|] eqn:Hb; [|done]. cbn.
  destruct (build_operators_distinct ops0 Hnd Hb) as (r & _ & Hops0).
  destruct (build_operators_head ops0 Hb) as [rest Hhd].
  unfold normalize_operator_weights. rewrite Hhd at 1.
  destruct (Qeq_bool _ 0); [done|]. intros [= <-].
  set (t := total_weight _). clearbody t. clear Hhd rest.
  pose proof (λ i kv, source_index_at self i kv Hnd) as Hidx.
  destruct (sample_source self); subst ops0.
  - split.
    + rewrite !fmap_app, <- !list_fmap_compose. done.
    + intros i kv Hi. eexists. unfold dict.
      rewrite fmap_app, lookup_app_r by (cbn; lia). cbn [length fmap list_fmap].
      replace (4 + i - 4) with i by lia.
      rewrite !list_lookup_fmap, Hi. cbn. split; [done|].
      by rewrite (Hidx i kv Hi).
  - split.
    + rewrite !fmap_app, <- !list_fmap_compose. done.
    + intros i kv Hi. eexists. unfold dict.
      rewrite fmap_app, lookup_app_r by (cbn; lia). cbn [length fmap list_fmap].
      replace (3 + i - 3) with i by lia.
      rewrite !list_lookup_fmap, Hi. cbn. done.
Qed.

End OperatorsBuilt.

Local Open Scope Q_scope.

Lemma get_operators_succeeds_witness :
  ∃ ops, get_operators (with_confounders true) some_weights = Ok ops ∧
         ∀ name op, (name, op) ∈ ops → 0 <= weight op <= 1.
Proof.
  apply (get_operators_succeeds (with_confounders true) some_weights);
    vm_compute; congruence.
Defined.

Local Close Scope Q_scope.

Lemma get_operators_names_witness :
  ∃ ops, get_operators (with_confounders true) some_weights = Ok ops ∧
    fst <$> ops
    = ["sample_cluster"; "gibbs_sample_sources"; "gibbs_sample_weights";
       "gibbs_sample_cluster_effect"; "gibbs_sample_confounding_effects_family";
       "gibbs_sample_confounding_effects_area"]%string ∧
    ∀ i kv, confounders (with_confounders true) !! i = Some kv →
      ∃ op, ops !! (4 + i)
            = Some (("gibbs_sample_confounding_effects_" +:+ kv.1)%string, op) ∧
            kind op = GibbsSampleConfoundingEffects kv.1 (S i).
Proof.
  eexists. split; [vm_compute; reflexivity|].
  apply (get_operators_names (with_confounders true) some_weights).
  - apply (bool_decide_eq_true_1 _). vm_compute. reflexivity.
  - vm_compute. reflexivity.
Defined.



(** ** Defaults and updates of the configuration *)

Lemma value_ind_nested {A} (P : value A → Prop) :
  (∀ a, P (Leaf a)) →
  (∀ items, Forall (λ kv, P kv.2) items → P (Dict items)) →
  ∀ v, P v.
Proof.
  intros HL HD. fix IH 1. intros [a|items]; [apply HL|]. apply HD.
  induction items as [|[k v] items IHi]; constructor; [apply IH | apply IHi].
Qed.

Lemma dict_get_None {V} (k : string) (d : dict V) :
  dict_get k d = None ↔ k ∉ fst <$> d.
Proof.
  induction d as [|[k' v] d IH]; cbn.
  - split; [intros _ H; inversion H | done].
  - rewrite not_elem_of_cons. destruct (decide (k = k')) as [->|Hne].
    + split; [done | by intros [? _]].
    + rewrite IH. split; [by intros ? | by intros [_ ?]].
Qed.

Lemma dict_get_Some_elem {V} (k : string) (v : V) (d : dict V) :
  dict_get k d = Some v → (k, v) ∈ d.
Proof.
  induction d as [|[k' v'] d IH]; cbn; [done|].
  destruct (decide (k = k')) as [->|Hne].
  - intros [= ->]. by left.
  - intros H. right. by apply IH.
Qed.

Lemma dict_get_unique {V} (k : string) (v : V) (d : dict V) :
  NoDup (fst <$> d) → (k, v) ∈ d → dict_get k d = Some v.
Proof.
  induction d as [|[k' v'] d IH]; intros Hnd Hin; [inversion Hin|].
  rewrite fmap_cons in Hnd. apply NoDup_cons in Hnd as [Hk' Hnd]. cbn in *.
  apply elem_of_cons in Hin as [[= -> ->]|Hin].
  - by rewrite decide_True.
  - rewrite decide_False; [by apply IH|]. intros ->. apply Hk'.
    apply list_elem_of_fmap. by exists (k', v).
Qed.

Lemma dict_get_set_eq {V} (k : string) (v : V) (d : dict V) :
  dict_get k (dict_set k v d) = Some v.
Proof.
  induction d as [|[k' v'] d IH]; cbn.
  - by rewrite decide_True.
  - destruct (decide (k = k')) as [->|Hne]; cbn.
    + by rewrite decide_True.
    + by rewrite decide_False.
Qed.

Lemma dict_get_set_ne {V} (k k' : string) (v : V) (d : dict V) :
  k ≠ k' → dict_get k' (dict_set k v d) = dict_get k' d.
Proof.
  intros Hne. induction d as [|[k0 v0] d IH]; cbn.
  - by rewrite decide_False.
  - destruct (decide (k = k0)) as [->|Hne0]; cbn.
    + by rewrite !decide_False.
    + destruct (decide (k' = k0)); [done | exact IH].
Qed.

Lemma dict_set_keys_present {V} (k : string) (v : V) (d : dict V) :
  k ∈ fst <$> d → fst <$> dict_set k v d = fst <$> d.
Proof.
  induction d as [|[k' v'] d IH]; intros Hin; [inversion Hin|]. cbn.
  destruct (decide (k = k')) as [->|Hne]; [done|]. cbn. f_equal. apply IH.
  rewrite fmap_cons in Hin. apply elem_of_cons in Hin as [Hin|Hin]; [done | exact Hin].
Qed.

Lemma set_defaults_nil {A} (cfg : dict (value A)) : set_defaults cfg [] = cfg.
Proof. reflexivity. Qed.

Lemma set_defaults_cons {A} (cfg : dict (value A)) (key : string) (dv : value A)
    (rest : dict (value A)) :
  set_defaults cfg ((key, dv) :: rest)
  = set_defaults
      match dict_get key cfg with
      | None => dict_set key dv cfg
      | Some cv =>
          match dv, cv with
          | Dict dd, Dict sub => dict_set key (Dict (set_defaults sub dd)) cfg
          | _, _ => cfg
          end
      end rest.
Proof. destruct dv; reflexivity. Qed.

Lemma update_recursive_cons {A} (cfg : dict (value A)) (key : string) (nv : value A)
    (rest : dict (value A)) :
  update_recursive cfg ((key, nv) :: rest)
  = update_recursive
      match dict_get key cfg, nv with
      | Some (Dict sub), Dict nd => dict_set key (Dict (update_recursive sub nd)) cfg
      | _, _ => dict_set key nv cfg
      end rest.
Proof. destruct nv; reflexivity. Qed.

(** One step of either loop leaves what the other keys hold. *)
Lemma set_defaults_step_other {A} (cfg : dict (value A)) (key k : string) (dv : value A) :
  k ≠ key →
  dict_get k
    match dict_get key cfg with
    | None => dict_set key dv cfg
    | Some cv =>
        match dv, cv with
        | Dict dd, Dict sub => dict_set key (Dict (set_defaults sub dd)) cfg
        | _, _ => cfg
        end
    end
  = dict_get k cfg.
Proof.
  intros Hne. destruct (dict_get key cfg) as [[a|sub]|]; destruct dv as [b|dd];
    try done; by apply dict_get_set_ne.
Qed.

Lemma update_recursive_step_other {A} (cfg : dict (value A)) (key k : string)
    (nv : value A) :
  k ≠ key →
  dict_get k
    match dict_get key cfg, nv with
    | Some (Dict sub), Dict nd => dict_set key (Dict (update_recursive sub nd)) cfg
    | _, _ => dict_set key nv cfg
    end
  = dict_get k cfg.
Proof.
  intros Hne. destruct (dict_get key cfg) as [[a|sub]|]; destruct nv as [b|nd];
    by apply dict_get_set_ne.
Qed.

(** The defaults never replace a value that is not a dictionary. *)
Lemma set_defaults_into_keeps {A} (d : value A) (cfg : dict (value A))
    (path : list string) (a : A) :
  lookup_path path (Dict cfg) = Some (Leaf a) →
  lookup_path path (Dict (set_defaults_into d cfg)) = Some (Leaf a).
Proof.
  revert cfg path a.
  induction d as [b|items IH] using value_ind_nested; intros cfg path a; [done|].
  change (set_defaults_into (Dict items) cfg) with (set_defaults cfg items).
  revert cfg. induction IH as [|[key dv] rest Hdv _ IHrest]; intros cfg Hcfg; [done|].
  rewrite set_defaults_cons. apply IHrest.
  destruct path as [|k path]; [done|]. cbn [lookup_path] in *.
  destruct (decide (k = key)) as [->|Hne].
  2:{ by rewrite set_defaults_step_other. }
  destruct (dict_get key cfg) as [cv|] eqn:Eg; [|done].
  destruct dv as [b|dd]; [by rewrite Eg|].
  destruct cv as [c|sub]; [by rewrite Eg|].
  rewrite dict_get_set_eq. cbn [snd] in Hdv. apply (Hdv sub path a Hcfg).
Qed.

(** A default at a path the configuration lacks is filled in. *)
Lemma set_defaults_into_fills {A} (d : value A) (cfg : dict (value A))
    (path : list string) (a : A) :
  lookup_path path d = Some (Leaf a) →
  undefined_in path cfg →
  lookup_path path (Dict (set_defaults_into d cfg)) = Some (Leaf a).
Proof.
  revert cfg path a.
  induction d as [b|items IH] using value_ind_nested; intros cfg path a.
  { by destruct path. }
  change (set_defaults_into (Dict items) cfg) with (set_defaults cfg items).
  revert cfg. induction IH as [|[key dv] rest Hdv _ IHrest]; intros cfg Hd Hun.
  { by destruct path. }
  destruct path as [|k path]; [done|].
  rewrite set_defaults_cons. cbn [lookup_path dict_get] in Hd.
  destruct (decide (k = key)) as [->|Hne].
  - apply (set_defaults_into_keeps (Dict rest)). cbn [lookup_path undefined_in] in *.
    destruct (dict_get key cfg) as [[c|sub]|] eqn:Eg; [done | |].
    + destruct dv as [b|dd]; [by destruct path|].
      rewrite dict_get_set_eq. cbn [snd] in Hdv. by apply Hdv.
    + by rewrite dict_get_set_eq.
  - apply IHrest; [exact Hd|].
    cbn [undefined_in] in *. by rewrite set_defaults_step_other.
Qed.

(** X16. [set_defaults] never overwrites a setting: a value that is not a
    dictionary and that the configuration holds at some path of keys is still
    there, unchanged, after the defaults were filled in. *)
Theorem set_defaults_keeps_settings {A} (cfg default_cfg : dict (value A))
    (path : list string) (a : A) :
  lookup_path path (Dict cfg) = Some (Leaf a) →
  lookup_path path (Dict (set_defaults cfg default_cfg)) = Some (Leaf a).
Proof.
  intros Hcfg. unfold set_defaults.
  exact (set_defaults_into_keeps (Dict default_cfg) cfg path a Hcfg).
Qed.

Lemma set_defaults_keeps_settings_witness :
  lookup_path ["1"; "1"]%string (Dict (set_defaults doctest_cfg doctest_other))
  = Some (Leaf 0).
Proof.
  apply (set_defaults_keeps_settings doctest_cfg doctest_other ["1"; "1"]%string 0).
  reflexivity.
Defined.

(** X17. [set_defaults] fills in every default the configuration does not
    define: a default value that is not a dictionary, at a path on which the
    configuration lacks a key, is in the result at that path. *)
Theorem set_defaults_fills_missing {A} (cfg default_cfg : dict (value A))
    (path : list string) (a : A) :
  lookup_path path (Dict default_cfg) = Some (Leaf a) →
  undefined_in path cfg →
  lookup_path path (Dict (set_defaults cfg default_cfg)) = Some (Leaf a).
Proof.
  intros Hd Hun. unfold set_defaults.
  exact (set_defaults_into_fills (Dict default_cfg) cfg path a Hd Hun).
Qed.

Lemma set_defaults_fills_missing_witness :
  lookup_path ["2"; "1"]%string (Dict (set_defaults doctest_cfg doctest_other))
  = Some (Leaf 1).
Proof.
  apply (set_defaults_fills_missing doctest_cfg doctest_other ["2"; "1"]%string 1).
  - reflexivity.
  - exact I.
Defined.


(** ** Custom settings *)

Lemma update_recursive_other {A} (cfg new_cfg : dict (value A)) (k : string) :
  k ∉ fst <$> new_cfg →
  dict_get k (update_recursive cfg new_cfg) = dict_get k cfg.
Proof.
  revert cfg. induction new_cfg as [|[key nv] rest IH]; intros cfg Hk; [done|].
  rewrite fmap_cons, not_elem_of_cons in Hk. destruct Hk as [Hne Hk]. cbn in Hne.
  rewrite update_recursive_cons, IH by done. by apply update_recursive_step_other.
Qed.

Lemma unique_keys_cons {A} (key : string) (v : value A) (rest : dict (value A)) :
  unique_keys (Dict ((key, v) :: rest)) →
  (key ∉ fst <$> rest) ∧ unique_keys v ∧ unique_keys (Dict rest).
Proof.
  intros Hu. inversion Hu as [|items Hnd Hall]; subst.
  rewrite fmap_cons in Hnd. apply NoDup_cons in Hnd as [Hk Hnd].
  apply Forall_cons in Hall as [Hv Hall].
  split_and!; [done | done | by constructor].
Qed.

(** The settings of [new_cfg] are in the result. *)
Lemma update_recursive_into_wins {A} (new : value A) (cfg : dict (value A))
    (path : list string) (a : A) :
  unique_keys new → path ≠ [] →
  lookup_path path new = Some (Leaf a) →
  lookup_path path (Dict (update_recursive_into new cfg)) = Some (Leaf a).
Proof.
  revert cfg path a.
  induction new as [b|items IH] using value_ind_nested; intros cfg path a Hu Hp.
  { by destruct path. }
  change (update_recursive_into (Dict items) cfg) with (update_recursive cfg items).
  revert cfg Hu. induction IH as [|[key nv] rest Hnv _ IHrest]; intros cfg Hu Hnew.
  { by destruct path. }
  apply unique_keys_cons in Hu as (Hkey & Hunv & Hurest).
  destruct path as [|k path]; [done|].
  rewrite update_recursive_cons. cbn [lookup_path dict_get] in Hnew.
  destruct (decide (k = key)) as [->|Hne].
  - cbn [lookup_path]. rewrite update_recursive_other by done.
    cbn [snd] in Hnv.
    destruct nv as [b|nd].
    + destruct (dict_get key cfg) as [[c|sub]|]; by rewrite dict_get_set_eq.
    + destruct (dict_get key cfg) as [[c|sub]|]; rewrite dict_get_set_eq; try done.
      destruct path as [|k' path]; [done|]. by apply Hnv.
  - by apply IHrest.
Qed.

(** The settings [new_cfg] does not define are kept. *)
Lemma update_recursive_into_keeps {A} (new : value A) (cfg : dict (value A))
    (path : list string) (a : A) :
  unique_keys new →
  lookup_path path (Dict cfg) = Some (Leaf a) →
  match new with Dict new_cfg => undefined_in path new_cfg | Leaf _ => True end →
  lookup_path path (Dict (update_recursive_into new cfg)) = Some (Leaf a).
Proof.
  revert cfg path a.
  induction new as [b|items IH] using value_ind_nested; intros cfg path a Hu; [done|].
  change (update_recursive_into (Dict items) cfg) with (update_recursive cfg items).
  revert cfg Hu. induction IH as [|[key nv] rest Hnv _ IHrest]; intros cfg Hu Hcfg Hun.
  { done. }
  apply unique_keys_cons in Hu as (Hkey & Hunv & Hurest).
  destruct path as [|k path]; [done|].
  rewrite update_recursive_cons. cbn [undefined_in dict_get] in Hun.
  destruct (decide (k = key)) as [->|Hne].
  - apply IHrest; [done | |].
    + cbn [lookup_path] in *. cbn [snd] in Hnv.
      destruct nv as [b|nd]; [done|].
      destruct (dict_get key cfg) as [[c|sub]|] eqn:Eg; [by destruct path | | done].
      rewrite dict_get_set_eq. by apply Hnv.
    + cbn [undefined_in]. apply dict_get_None in Hkey. by rewrite Hkey.
  - apply IHrest; [done | | exact Hun].
    cbn [lookup_path] in *. by rewrite update_recursive_step_other.
Qed.

(** X18. [update_recursive] lets the new settings win: for dictionaries
    without repeated keys, every value of [new_cfg] that is not a dictionary
    is in the result at its path, whatever the configuration held there. *)
Theorem update_recursive_new_settings_win {A} (cfg new_cfg : dict (value A))
    (path : list string) (a : A) :
  unique_keys (Dict new_cfg) →
  lookup_path path (Dict new_cfg) = Some (Leaf a) →
  lookup_path path (Dict (update_recursive cfg new_cfg)) = Some (Leaf a).
Proof.
  intros Hu Hnew. unfold update_recursive.
  apply update_recursive_into_wins; [done | | done]. by intros ->.
Qed.

Lemma update_recursive_new_settings_win_witness :
  lookup_path ["1"; "1"]%string (Dict (update_recursive doctest_cfg doctest_other))
  = Some (Leaf 1).
Proof.
  apply (update_recursive_new_settings_win doctest_cfg doctest_other
           ["1"; "1"]%string 1).
  - repeat first [ by apply (bool_decide_eq_true_1 _); vm_compute
                 | constructor ].
  - reflexivity.
Defined.

(** X19. [update_recursive] keeps what it is not told to change: for a
    [new_cfg] without repeated keys, a setting of the configuration at a
    path on which [new_cfg] lacks a key is still there afterwards. *)
Theorem update_recursive_keeps_other_settings {A} (cfg new_cfg : dict (value A))
    (path : list string) (a : A) :
  unique_keys (Dict new_cfg) →
  lookup_path path (Dict cfg) = Some (Leaf a) →
  undefined_in path new_cfg →
  lookup_path path (Dict (update_recursive cfg new_cfg)) = Some (Leaf a).
Proof.
  intros Hu Hcfg Hun. unfold update_recursive.
  by apply update_recursive_into_keeps.
Qed.

Lemma update_recursive_keeps_other_settings_witness :
  lookup_path ["0"]%string (Dict (update_recursive doctest_cfg doctest_other))
  = Some (Leaf 0).
Proof.
  apply (update_recursive_keeps_other_settings doctest_cfg doctest_other
           ["0"]%string 0).
  - repeat first [ by apply (bool_decide_eq_true_1 _); vm_compute
                 | constructor ].
  - reflexivity.
  - exact I.
Defined.


(** ** The entries [iter_items_recursive] yields, and the required fields *)

Lemma iter_items_cons_leaf {A} (key : string) (a : A) (rest : dict (value A))
    (loc : list string) :
  iter_items_recursive ((key, Leaf a) :: rest) loc
  = (key, a, loc) :: iter_items_recursive rest loc.
Proof. reflexivity. Qed.

Lemma iter_items_cons_dict {A} (key : string) (sub rest : dict (value A))
    (loc : list string) :
  iter_items_recursive ((key, Dict sub) :: rest) loc
  = iter_items_recursive sub (loc ++ [key]) ++ iter_items_recursive rest loc.
Proof. reflexivity. Qed.

Lemma iter_items_leaf_member {A} (cfg : dict (value A)) (key : string) (a : A)
    (loc : list string) :
  (key, Leaf a) ∈ cfg → (key, a, loc) ∈ iter_items_recursive cfg loc.
Proof.
  induction cfg as [|[k [b|sub]] rest IH]; intros Hin; [inversion Hin | |].
  - rewrite iter_items_cons_leaf. apply elem_of_cons in Hin as [[= -> ->]|Hin].
    + by left.
    + right. by apply IH.
  - rewrite iter_items_cons_dict. apply elem_of_cons in Hin as [[=]|Hin].
    apply elem_of_app. right. by apply IH.
Qed.

Lemma iter_items_dict_member {A} (cfg sub : dict (value A)) (key : string)
    (loc : list string) (x : string * A * list string) :
  (key, Dict sub) ∈ cfg →
  x ∈ iter_items_recursive sub (loc ++ [key]) → x ∈ iter_items_recursive cfg loc.
Proof.
  induction cfg as [|[k [b|sub']] rest IH]; intros Hin Hx; [inversion Hin | |].
  - rewrite iter_items_cons_leaf. apply elem_of_cons in Hin as [[=]|Hin].
    right. by apply IH.
  - rewrite iter_items_cons_dict. apply elem_of_app.
    apply elem_of_cons in Hin as [[= -> ->]|Hin]; [by left|].
    right. by apply IH.
Qed.

(** A value at a path is yielded with its key and the keys above it. *)
Lemma lookup_path_yielded {A} (p : list string) (cfg : dict (value A)) (key : string)
    (a : A) (loc : list string) :
  lookup_path (p ++ [key]) (Dict cfg) = Some (Leaf a) →
  (key, a, loc ++ p) ∈ iter_items_recursive cfg loc.
Proof.
  revert cfg loc. induction p as [|k p IH]; intros cfg loc; cbn [app lookup_path].
  - destruct (dict_get key cfg) as [[b|sub]|] eqn:Eg; [|done|done].
    intros [= ->]. rewrite app_nil_r.
    by apply iter_items_leaf_member, dict_get_Some_elem.
  - destruct (dict_get k cfg) as [[b|sub]|] eqn:Eg; [by destruct p | | done].
    intros Hsub. apply (iter_items_dict_member cfg sub k); [by apply dict_get_Some_elem|].
    specialize (IH sub (loc ++ [k]) Hsub). by rewrite <- app_assoc in IH.
Qed.

(** What is yielded is a value at the path of its keys. *)
Lemma yielded_lookup_path {A} (v : value A) (loc : list string)
    (x : string * A * list string) :
  unique_keys v →
  x ∈ iter_items_of v loc →
  ∃ p, x.2 = loc ++ p ∧ lookup_path (p ++ [x.1.1]) v = Some (Leaf x.1.2).
Proof.
  revert loc. induction v as [b|items IH] using value_ind_nested; intros loc Hu Hx.
  { inversion Hx. }
  change (iter_items_of (Dict items) loc) with (iter_items_recursive items loc) in Hx.
  revert Hu Hx. induction IH as [|[key v] rest Hv _ IHrest]; intros Hu Hx.
  { inversion Hx. }
  apply unique_keys_cons in Hu as (Hkey & Huv & Hurest).
  assert (Hrest : x ∈ iter_items_recursive rest loc →
            ∃ p, x.2 = loc ++ p ∧
                 lookup_path (p ++ [x.1.1]) (Dict ((key, v) :: rest)) = Some (Leaf x.1.2)).
  { intros Hin. destruct (IHrest Hurest Hin) as (p & Hloc & Hp).
    exists p. split; [done|].
    destruct (p ++ [x.1.1]) as [|k q] eqn:Epq; [done|]. cbn [lookup_path dict_get] in *.
    destruct (decide (k = key)) as [->|Hne]; [|done].
    apply dict_get_None in Hkey. by rewrite Hkey in Hp. }
  destruct v as [b|sub].
  - rewrite iter_items_cons_leaf in Hx. apply elem_of_cons in Hx as [->|Hx]; [|by apply Hrest].
    exists []. cbn. rewrite app_nil_r, decide_True by done. done.
  - rewrite iter_items_cons_dict in Hx. apply elem_of_app in Hx as [Hx|Hx]; [|by apply Hrest].
    cbn [snd] in Hv. destruct (Hv (loc ++ [key]) Huv Hx) as (p & Hloc & Hp).
    exists (key :: p). split; [by rewrite Hloc, <- app_assoc|].
    cbn [app lookup_path dict_get]. by rewrite decide_True.
Qed.

(** X20. For a configuration without repeated keys,
    [iter_items_recursive] yields exactly the values that are not
    dictionaries, each with its key and the keys of the dictionaries above
    it: (key, value, loc) is yielded if and only if the configuration holds
    the value at the path loc + (key,). *)
Theorem iter_items_recursive_yields {A} (cfg : dict (value A)) (key : string) (a : A)
    (loc : list string) :
  unique_keys (Dict cfg) →
  (key, a, loc) ∈ iter_items_recursive cfg [] ↔
  lookup_path (loc ++ [key]) (Dict cfg) = Some (Leaf a).
Proof.
  intros Hu. split.
  - intros Hx. destruct (yielded_lookup_path (Dict cfg) [] _ Hu Hx) as (p & Hloc & Hp).
    cbn in Hloc, Hp. by subst p.
  - intros Hp. by apply (lookup_path_yielded loc cfg key a []).
Qed.

Lemma iter_items_recursive_yields_witness :
  ("1"%string, 1, ["2"%string])
    ∈ iter_items_recursive (set_defaults doctest_cfg doctest_other) [] ↔
  lookup_path (["2"%string] ++ ["1"%string]) (Dict (set_defaults doctest_cfg doctest_other))
  = Some (Leaf 1).
Proof.
  apply (iter_items_recursive_yields (set_defaults doctest_cfg doctest_other)
           "1"%string 1 ["2"%string]).
  repeat first [ by apply (bool_decide_eq_true_1 _); vm_compute
               | constructor ].
Defined.

(** X21. A required field that is missing is reported: when the defaults
    mark a value as required at a path on which the configuration lacks a
    key, the first check of [verify_config] raises [NameError] on the
    configuration completed by [set_defaults]. *)
Theorem missing_required_field_is_reported {A} (is_required : A → bool)
    (cfg default_cfg : dict (value A)) (path : list string) (a : A) :
  lookup_path path (Dict default_cfg) = Some (Leaf a) →
  is_required a = true →
  undefined_in path cfg →
  ∃ where_, required_check is_required (set_defaults cfg default_cfg)
            = NameError where_.
Proof.
  intros Hd Hreq Hun.
  pose proof (set_defaults_into_fills (Dict default_cfg) cfg path a Hd Hun) as Hres.
  fold (set_defaults cfg default_cfg) in Hres.
  destruct path as [|k path] using rev_ind; [done|]. clear IHpath.
  pose proof (lookup_path_yielded path _ k a [] Hres) as Hin.
  unfold required_check.
  destruct (find _ _) as [[[key b] loc]|] eqn:Ef; [by eexists|].
  exfalso. apply list_elem_of_In in Hin.
  pose proof (find_none _ _ Ef _ Hin) as Hno. cbn in Hno. congruence.
Qed.

Lemma missing_required_field_is_reported_witness :
  ∃ where_,
    required_check (λ a, a =? 2)
      (set_defaults [("1", Dict [("1", Leaf 0)])]%string doctest_other)
    = NameError where_.
Proof.
  apply (missing_required_field_is_reported (λ a, a =? 2)
           [("1", Dict [("1", Leaf 0)])]%string doctest_other ["2"; "2"]%string 2).
  - reflexivity.
  - reflexivity.
  - exact I.
Defined.

(** The doctests of the three functions. *)
Example set_defaults_doctest :
  set_defaults doctest_cfg doctest_other
  = [("0", Leaf 0); ("1", Dict [("1", Leaf 0)]);
     ("2", Dict [("2", Leaf 1); ("1", Leaf 1)])]%string ∧
  set_defaults doctest_flat_cfg doctest_other = doctest_flat_cfg.
Proof. split; reflexivity. Qed.

Example update_recursive_doctest :
  update_recursive doctest_cfg doctest_other
  = [("0", Leaf 0); ("1", Dict [("1", Leaf 1)]);
     ("2", Dict [("2", Leaf 2); ("1", Leaf 1)])]%string ∧
  update_recursive doctest_flat_cfg doctest_other
  = [("0", Leaf 0); ("1", Dict [("1", Leaf 1)]);
     ("2", Dict [("1", Leaf 1); ("2", Leaf 2)])]%string.
Proof. split; reflexivity. Qed.

Example iter_items_recursive_doctest :
  iter_items_recursive (set_defaults doctest_cfg doctest_other) []
  = [("0", 0, []); ("1", 0, ["1"]); ("2", 1, ["2"]); ("1", 1, ["2"])]%string.
Proof. reflexivity. Qed.


(** ** The order of the keys *)

Lemma filter_fresh_snoc (l keys : list string) (key : string) :
  key ∉ l →
  filter (λ k, k ∉ keys ++ [key]) l = filter (λ k, k ∉ keys) l.
Proof.
  induction l as [|k l IH]; intros Hkey; [done|].
  apply not_elem_of_cons in Hkey as [Hne Hkey].
  rewrite !filter_cons, IH by done.
  destruct (decide (k ∉ keys ++ [key])) as [H1|H1];
    destruct (decide (k ∉ keys)) as [H2|H2]; try done.
  - exfalso. apply H2. intros Hin. apply H1, elem_of_app. by left.
  - exfalso. apply H1. intros Hin. apply elem_of_app in Hin as [Hin|Hin]; [done|].
    apply list_elem_of_singleton in Hin. congruence.
Qed.

(** Both loops handle a key by a step that keeps the keys of [cfg] in place
    and appends the key when it is new. *)
Lemma keys_after_loop {A} (step : string → value A → dict (value A) → dict (value A))
    (run : dict (value A) → dict (value A) → dict (value A)) :
  (∀ cfg, run cfg [] = cfg) →
  (∀ cfg key v rest, run cfg ((key, v) :: rest) = run (step key v cfg) rest) →
  (∀ cfg key v, fst <$> step key v cfg
                = if decide (key ∈ fst <$> cfg) then fst <$> cfg
                  else (fst <$> cfg) ++ [key]) →
  ∀ other cfg, NoDup (fst <$> other) →
    fst <$> run cfg other
    = (fst <$> cfg) ++ filter (λ k, k ∉ fst <$> cfg) (fst <$> other).
Proof.
  intros Hnil Hcons Hstep other.
  induction other as [|[key v] rest IH]; intros cfg Hnd.
  - rewrite Hnil. cbn. by rewrite app_nil_r.
  - rewrite fmap_cons in Hnd. apply NoDup_cons in Hnd as [Hkey Hnd].
    rewrite Hcons, IH, Hstep by done. rewrite fmap_cons, filter_cons. cbn [fst].
    destruct (decide (key ∈ fst <$> cfg)) as [Hin|Hout].
    + by rewrite decide_False by (by intros H).
    + rewrite decide_True by done. rewrite filter_fresh_snoc by done.
      by rewrite <- app_assoc.
Qed.

Lemma dict_set_keys {V} (k : string) (v : V) (d : dict V) :
  fst <$> dict_set k v d
  = if decide (k ∈ fst <$> d) then fst <$> d else (fst <$> d) ++ [k].
Proof.
  destruct (decide (k ∈ fst <$> d)) as [Hin|Hout].
  - by apply dict_set_keys_present.
  - rewrite dict_set_fresh by done. by rewrite fmap_app.
Qed.

(** X22. [set_defaults] and [update_recursive] keep the keys of the
    configuration in their places and append, in the order of the second
    dictionary, the keys the configuration did not have (the second
    dictionary having no key twice). *)
Theorem keys_in_insertion_order {A} (cfg other : dict (value A)) :
  NoDup (fst <$> other) →
  fst <$> set_defaults cfg other
  = (fst <$> cfg) ++ filter (λ k, k ∉ fst <$> cfg) (fst <$> other) ∧
  fst <$> update_recursive cfg other
  = (fst <$> cfg) ++ filter (λ k, k ∉ fst <$> cfg) (fst <$> other).
Proof.
  intros Hnd. split.
  - apply (keys_after_loop
             (λ key dv cfg,
                match dict_get key cfg with
                | None => dict_set key dv cfg
                | Some cv =>
                    match dv, cv with
                    | Dict dd, Dict sub => dict_set key (Dict (set_defaults sub dd)) cfg
                    | _, _ => cfg
                    end
                end)); [done | apply set_defaults_cons | | done].
    intros c key v. destruct (dict_get key c) as [cv|] eqn:Eg.
    + assert (Hin : key ∈ fst <$> c).
      { apply dec_stable. intros Hout. apply dict_get_None in Hout. congruence. }
      rewrite decide_True by done.
      destruct v as [b|dd]; [done|]. destruct cv as [b|sub]; [done|].
      by apply dict_set_keys_present.
    + apply dict_get_None in Eg as Hout. rewrite dict_set_keys. done.
  - apply (keys_after_loop
             (λ key nv cfg,
                match dict_get key cfg, nv with
                | Some (Dict sub), Dict nd =>
                    dict_set key (Dict (update_recursive sub nd)) cfg
                | _, _ => dict_set key nv cfg
                end)); [done | apply update_recursive_cons | | done].
    intros c key v.
    destruct (dict_get key c) as [[b|sub]|]; destruct v as [b'|nd]; apply dict_set_keys.
Qed.

Lemma keys_in_insertion_order_witness :
  fst <$> set_defaults doctest_cfg [("3", Leaf 3); ("1", Leaf 1); ("4", Leaf 4)]%string
  = (fst <$> doctest_cfg)
    ++ filter (λ k, k ∉ fst <$> doctest_cfg)
              (fst <$> [("3", Leaf 3); ("1", Leaf 1); ("4", Leaf 4)]%string) ∧
  fst <$> update_recursive doctest_cfg
            [("3", Leaf 3); ("1", Leaf 1); ("4", Leaf 4)]%string
  = (fst <$> doctest_cfg)
    ++ filter (λ k, k ∉ fst <$> doctest_cfg)
              (fst <$> [("3", Leaf 3); ("1", Leaf 1); ("4", Leaf 4)]%string).
Proof.
  apply (keys_in_insertion_order doctest_cfg
           [("3", Leaf 3); ("1", Leaf 1); ("4", Leaf 4)]%string).
  apply (bool_decide_eq_true_1 _). vm_compute. reflexivity.
Defined.

(** ** The spacing of the samples *)

(** X23. The spacing check of [verify_config] passes exactly when
    [samples] is not zero and divides [steps]; it raises [ValueError] when
    [samples] is not zero and does not divide [steps], and
    [ZeroDivisionError], not [ValueError], when [samples] is zero. *)
Theorem spacing_check_outcomes (steps samples : Z) :
  (spacing_check steps samples = Passed ↔ samples ≠ 0%Z ∧ (samples | steps)%Z) ∧
  (spacing_check steps samples = SpacingError ↔ samples ≠ 0%Z ∧ ¬ (samples | steps)%Z) ∧
  (spacing_check steps samples = DivisionByZero ↔ samples = 0%Z).
Proof.
  unfold spacing_check. destruct (Z.eqb_spec samples 0) as [->|Hne].
  { split_and!; split; try done; by intros [? _]. }
  pose proof (Z.mod_divide steps samples Hne) as Hdiv.
  destruct (Z.eqb_spec (steps mod samples) 0) as [Hz|Hnz].
  - apply Hdiv in Hz. split_and!; split; try done. by intros [_ ?].
  - assert (¬ (samples | steps)%Z) by (intros Hd; by apply Hdiv in Hd).
    split_and!; split; try done. by intros [_ ?].
Qed.


(** ** Effects of the clusters and groups that are not resumed *)

Lemma copy_rows_lookup {A} (ok : A → bool) (prev M M' : list A) (i n : nat) :
  copy_rows ok prev M i = Ok (M', n) →
  (∀ j v, prev !! j = Some v → M' !! (i + j) = Some v) ∧
  (∀ k, k < i ∨ i + length prev ≤ k → M' !! k = M !! k).
Proof.
  revert M i. induction prev as [|v prev IH]; intros M i; cbn [copy_rows].
  - intros [= <- <-]. split; [by intros j v H | done].
  - destruct (assign_row ok M i v) as [M1|] eqn:Ha; [|done].
    unfold mbind, outcome_bind. apply assign_row_inv in Ha as (Hi & _ & ->).
    intros Hrun. apply IH in Hrun as [Hcopied Hother]. split.
    + intros [|j] w Hw.
      * injection Hw as ->. rewrite Nat.add_0_r, Hother by lia.
        by apply list_lookup_insert_eq.
      * replace (i + S j) with (S i + j) by lia. by apply Hcopied.
    + intros k Hk. cbn [length] in Hk. rewrite Hother by lia.
      apply list_lookup_insert_ne. lia.
Qed.

Section EffectsNotResumed.

Variable self : ClusterMCMC.

Lemma fill_effects_lookup (members : list (list bool)) (todo : list nat)
    (eff0 eff : tensor) :
  NoDup todo →
  fill_effects self members todo eff0 = Ok eff →
  length eff = length eff0 ∧
  (∀ i, i ∈ todo →
        ∃ row m, members !! i = Some row ∧
                 smoothed_mle self (nonzero row) = Ok m ∧ eff !! i = Some m) ∧
  (∀ i, i ∉ todo → eff !! i = eff0 !! i).
Proof.
  intros Hnd. revert eff0.
  induction Hnd as [|j todo Hj Hnd IH]; intros eff0; cbn [fill_effects].
  - intros [= <-]. split_and!; [done | intros i Hi; inversion Hi | done].
  - destruct (members !! j) as [row|] eqn:Erow; [|done].
    destruct (smoothed_mle self (nonzero row)) as [e|] eqn:He; [|done].
    unfold mbind at 1, outcome_bind at 1.
    destruct (assign_row _ eff0 j e) as [eff1|] eqn:Ha; [|done].
    unfold mbind, outcome_bind. apply assign_row_inv in Ha as (Hlt & _ & ->).
    intros Hrun. apply IH in Hrun as (Hlen & Hdone & Hother).
    rewrite length_insert in Hlen. split_and!; [done | |].
    + intros i Hi. apply elem_of_cons in Hi as [->|Hi]; [|by apply Hdone].
      exists row, e. split_and!; [done | done |].
      rewrite Hother by done. by apply list_lookup_insert_eq.
    + intros i Hi. apply not_elem_of_cons in Hi as [Hne Hi].
      rewrite Hother by done. by apply list_lookup_insert_ne.
Qed.

(** X24. When [generate_initial_cluster_effect] returns, it returns one
    effect per cluster; the effects of a previous sample, if any, are the
    first ones, unchanged, and every later cluster has the smoothed
    estimate computed from its own sites. *)
Theorem cluster_effect_resumed_then_estimated (initial_clusters : list (list bool))
    (eff : tensor) :
  generate_initial_cluster_effect self initial_clusters = Ok eff →
  length eff = n_clusters self ∧
  n_resumed self ≤ n_clusters self ∧
  (∀ prev i m, initial_sample self = Some prev →
               cluster_effect prev !! i = Some m → eff !! i = Some m) ∧
  (∀ i, n_resumed self ≤ i < n_clusters self →
        ∃ row m, initial_clusters !! i = Some row ∧
                 smoothed_mle self (nonzero row) = Ok m ∧ eff !! i = Some m).
Proof.
  unfold generate_initial_cluster_effect, n_resumed.
  assert (Hfill : ∀ ice ng,
    length ice = n_clusters self →
    fill_effects self initial_clusters (seq ng (n_clusters self - ng)) ice = Ok eff →
    length eff = n_clusters self ∧
    (∀ i, i < ng → eff !! i = ice !! i) ∧
    (∀ i, ng ≤ i < n_clusters self →
          ∃ row m, initial_clusters !! i = Some row ∧
                   smoothed_mle self (nonzero row) = Ok m ∧ eff !! i = Some m)).
  { intros ice ng Hlen Hrun.
    apply fill_effects_lookup in Hrun as (Hl & Hdone & Hother); [|apply NoDup_seq].
    split_and!; [lia | |].
    - intros i Hi. apply Hother. rewrite elem_of_seq. lia.
    - intros i Hi. apply Hdone. rewrite elem_of_seq. lia. }
  destruct (initial_sample self) as [prev|].
  - destruct (copy_rows _ (cluster_effect prev) _ 0) as [[ice ng]|] eqn:Hc; [|done].
    unfold mbind, outcome_bind. intros Hrun.
    pose proof (copy_rows_inv _ _ _ _ _ _ Hc) as [Hl ->].
    pose proof (copy_rows_lookup _ _ _ _ _ _ Hc) as [Hcopied _].
    rewrite zero_tensor_length in Hl. cbn [Nat.add] in *.
    destruct (Hfill ice _ Hl Hrun) as (Hlen & Hkept & Hnew).
    split_and!; [done | | | done].
    + destruct (decide (length (cluster_effect prev) ≤ n_clusters self)) as [|Hgt]; [done|].
      exfalso.
      destruct (lookup_lt_is_Some_2 (cluster_effect prev) (n_clusters self) ltac:(lia))
        as [m Hm].
      specialize (Hcopied _ _ Hm). apply lookup_lt_Some in Hcopied. cbn in Hcopied. lia.
    + intros prev' i m [= <-] Hm. rewrite Hkept by (by eapply lookup_lt_Some).
      by apply (Hcopied i m).
  - unfold mbind, outcome_bind. intros Hrun.
    destruct (Hfill _ 0 (zero_tensor_length self _) Hrun) as (Hlen & _ & Hnew).
    split_and!; [done | lia | done | done].
Qed.

(** X25. [generate_initial_confounding_effect] raises [KeyError] for a
    name that is not a confounder of the model; and when it returns without
    an initial sample, it returns one effect per group of the confounder,
    the smoothed estimate computed from the sites of that group. *)
Theorem confounding_effect_per_group (conf : string) :
  (conf ∉ fst <$> confounders self →
   generate_initial_confounding_effect self conf = Raise KeyError) ∧
  (∀ eff, initial_sample self = None →
     generate_initial_confounding_effect self conf = Ok eff →
     ∃ n_groups groups,
       get_groups_per_confounder self !! conf = Some n_groups ∧
       data_confounders self !! conf = Some groups ∧
       length eff = n_groups ∧
       ∀ g, g < n_groups →
            ∃ row m, groups !! g = Some row ∧
                     smoothed_mle self (nonzero row) = Ok m ∧ eff !! g = Some m).
Proof.
  unfold generate_initial_confounding_effect, getitem. split.
  - intros Hout.
    assert (Hnone : get_groups_per_confounder self !! conf = None).
    { unfold get_groups_per_confounder.
      rewrite (foldl_insert_other fst (λ kv : string * list string, length kv.2)) by done.
      apply lookup_empty. }
    by rewrite Hnone.
  - intros eff Hinit. rewrite Hinit.
    destruct (get_groups_per_confounder self !! conf) as [n_groups|]; [|done].
    destruct (data_confounders self !! conf) as [groups|]; [|done].
    unfold mbind, outcome_bind. intros Hrun.
    apply fill_effects_lookup in Hrun as (Hl & Hdone & _); [|apply NoDup_seq].
    rewrite zero_tensor_length in Hl.
    exists n_groups, groups. split_and!; [done | done | done |].
    intros g Hg. apply Hdone. rewrite elem_of_seq. lia.
Qed.

End EffectsNotResumed.

Lemma cluster_effect_resumed_then_estimated_witness :
  ∃ eff,
    generate_initial_cluster_effect extended_sampler
      [[true; true; false; false; false]; [false; false; false; true; true];
       [false; false; true; false; false]] = Ok eff ∧
    length eff = n_clusters extended_sampler ∧
    n_resumed extended_sampler ≤ n_clusters extended_sampler ∧
    (∀ prev i m, initial_sample extended_sampler = Some prev →
                 cluster_effect prev !! i = Some m → eff !! i = Some m) ∧
    (∀ i, n_resumed extended_sampler ≤ i < n_clusters extended_sampler →
          ∃ row m,
            [[true; true; false; false; false]; [false; false; false; true; true];
             [false; false; true; false; false]] !! i = Some row ∧
            smoothed_mle extended_sampler (nonzero row) = Ok m ∧ eff !! i = Some m).
Proof.
  eexists. split; [vm_compute; reflexivity|].
  apply (cluster_effect_resumed_then_estimated extended_sampler
           [[true; true; false; false; false]; [false; false; false; true; true];
            [false; false; true; false; false]]).
  vm_compute. reflexivity.
Defined.

Lemma confounding_effect_per_group_witness :
  generate_initial_confounding_effect resuming_sampler "area" = Raise KeyError.
Proof.
  apply (proj1 (confounding_effect_per_group resuming_sampler "area")).
  apply (bool_decide_eq_true_1 _). vm_compute. reflexivity.
Defined.


(** ** A cluster or group without sites *)

Local Open Scope Q_scope.

Lemma row_sum_add_one (app : list bool) :
  row_sum (zip_with (λ x (a : bool), if a then x + 1 else x)
                    (replicate (length app) 0) app)
  == inject_Z (Z.of_nat (count_nonzero app)).
Proof.
  induction app as [|a app IH]; [done|].
  cbn [length replicate zip_with]. unfold row_sum in *. cbn [foldr].
  rewrite IH, count_nonzero_cons, Nat2Z.inj_add, inject_Z_plus.
  destruct a; cbn; ring.
Qed.

(** X26. For an empty set of sites (a confounder group that no site
    belongs to), the smoothed estimate of a feature with at least one
    applicable state is the uniform distribution over its applicable states:
    1 / (number of applicable states) at each of them and 0 elsewhere. *)
Theorem no_sites_uniform_effect (self : ClusterMCMC) (f : nat) (app_row : list bool) :
  (f < n_features self)%nat →
  applicable_states self !! f = Some app_row →
  length app_row = n_states self →
  (0 < count_nonzero app_row)%nat →
  ∃ m row,
    smoothed_mle self [] = Ok m ∧ m !! f = Some row ∧
    ∀ s (a : bool), app_row !! s = Some a →
      ∃ e, row !! s = Some e ∧
           e == if a then 1 / inject_Z (Z.of_nat (count_nonzero app_row)) else 0.
Proof.
  intros Hf Happ Hlen Hpos. unfold smoothed_mle. cbn [take_sites].
  unfold mbind, outcome_bind. eexists _, _. split; [reflexivity|].
  unfold divide_by_row_sums, add_one_applicable, nansum_sites. cbn [foldr].
  rewrite list_lookup_fmap, lookup_zip_with, lookup_replicate_2, Happ by done.
  cbn [mbind option_bind fmap option_fmap option_map]. split; [reflexivity|].
  intros s a Hs. rewrite <- Hlen.
  rewrite list_lookup_fmap, lookup_zip_with, lookup_replicate_2, Hs
    by (by eapply lookup_lt_Some).
  cbn [mbind option_bind fmap option_fmap option_map]. eexists. split; [reflexivity|].
  rewrite row_sum_add_one.
  destruct a; unfold Qdiv; ring.
Qed.

Lemma no_sites_uniform_effect_witness :
  ∃ m row,
    smoothed_mle two_state_sampler [] = Ok m ∧ m !! 0%nat = Some row ∧
    ∀ s (a : bool), [true; true] !! s = Some a →
      ∃ e, row !! s = Some e ∧
           e == if a then 1 / inject_Z (Z.of_nat (count_nonzero [true; true])) else 0.
Proof.
  apply (no_sites_uniform_effect two_state_sampler 0 [true; true]).
  - vm_compute. lia.
  - reflexivity.
  - reflexivity.
  - vm_compute. lia.
Defined.

Local Close Scope Q_scope.


(** ** What the check of the required fields reports *)

(** X27. For a configuration without repeated keys, the check of the
    required fields passes exactly when no path of keys leads to a value
    that is [REQUIRED], and the keys a [NameError] reports are the path of
    such a value. *)
Theorem required_check_sound_and_complete {A} (is_required : A → bool)
    (cfg : dict (value A)) :
  unique_keys (Dict cfg) →
  (required_check is_required cfg = Passed ↔
   ∀ path a, lookup_path path (Dict cfg) = Some (Leaf a) → is_required a = false) ∧
  (∀ where_, required_check is_required cfg = NameError where_ →
     ∃ a, lookup_path where_ (Dict cfg) = Some (Leaf a) ∧ is_required a = true).
Proof.
  intros Hu. unfold required_check.
  destruct (find _ _) as [[[key b] loc]|] eqn:Ef.
  - apply find_some in Ef as [Hin Hreq]. cbn in Hreq.
    apply list_elem_of_In in Hin.
    destruct (yielded_lookup_path (Dict cfg) [] _ Hu Hin) as (p & Hloc & Hp).
    cbn in Hloc, Hp. subst p. split.
    + split; [done|]. intros Hall. specialize (Hall _ _ Hp). congruence.
    + intros w [= <-]. by exists b.
  - split; [|done]. split; [|done]. intros _ path a Hp.
    destruct path as [|k path] using rev_ind; [done|]. clear IHpath.
    pose proof (lookup_path_yielded path cfg k a [] Hp) as Hin.
    apply list_elem_of_In in Hin. exact (find_none _ _ Ef _ Hin).
Qed.

Lemma required_check_sound_and_complete_witness :
  (required_check (λ a, a =? 2) (update_recursive doctest_cfg doctest_other) = Passed ↔
   ∀ path a,
     lookup_path path (Dict (update_recursive doctest_cfg doctest_other)) = Some (Leaf a) →
     (a =? 2) = false) ∧
  (∀ where_,
     required_check (λ a, a =? 2) (update_recursive doctest_cfg doctest_other)
     = NameError where_ →
     ∃ a, lookup_path where_ (Dict (update_recursive doctest_cfg doctest_other))
          = Some (Leaf a) ∧ (a =? 2) = true).
Proof.
  apply (required_check_sound_and_complete (λ a, a =? 2)
           (update_recursive doctest_cfg doctest_other)).
  repeat first [ by apply (bool_decide_eq_true_1 _); vm_compute
               | constructor ].
Defined.

(** The report of the witness: the value 2 under the keys "2", "2". *)
Example required_check_reports_path :
  required_check (λ a, a =? 2) (update_recursive doctest_cfg doctest_other)
  = NameError ["2"; "2"]%string.
Proof. reflexivity. Qed.


(** * Operator weights after normalisation *)


Local Open Scope Q_scope.



Local Close Scope Q_scope.


(** * Resuming from a previous sample: what is reproduced *)

(** The weights of a fresh start with one feature and six sources are six
    times 1/6, which sum to 0.9999999999999999 in doubles (added one after
    the other, or the first one added last). A run resumed from them divides
    them by that sum: each weight changes from 0.16666666666666666 to
    0.16666666666666669. *)
Lemma resume_weights_counterexample :
  Double.generate_initial_weights None 1 6
  = [replicate 6 0x1.5555555555555p-3%float] ∧
  Double.row_sum (replicate 6 0x1.5555555555555p-3%float)
  = 0x1.fffffffffffffp-1%float ∧
  (0x1.5555555555555p-3 + Double.row_sum (replicate 5 0x1.5555555555555p-3))%float
  = 0x1.fffffffffffffp-1%float ∧
  Double.generate_initial_weights (Some (Double.generate_initial_weights None 1 6)) 1 6
  = [replicate 6 0x1.5555555555556p-3%float] ∧
  Double.generate_initial_weights (Some (Double.generate_initial_weights None 1 6)) 1 6
  ≠ Double.generate_initial_weights None 1 6.
Proof.
  split_and!; [vm_compute; reflexivity.. |].
  intros H.
  assert (E : match Double.generate_initial_weights
                      (Some (Double.generate_initial_weights None 1 6)) 1 6 with
              | (x :: _) :: _ => PrimFloat.eqb x 0x1.5555555555555p-3%float
              | _ => false
              end = true).
  { rewrite H. vm_compute. reflexivity. }
  vm_compute in E. discriminate E.
Qed.

Local Open Scope Q_scope.

(** C7 (as amended). A chain initialised from a previous sample that fits
    the run (the same numbers of clusters, confounder groups and features)
    starts with the previous clusters, cluster effect and confounding
    effects, unchanged. Its weights are the previous weights passed through
    [normalize] once more: they are the previous weights when every row of
    them sums to exactly 1, and every row divided by its sum otherwise. *)
Theorem resume_roundtrip (self : ClusterMCMC) (prev : Sample)
    (gibbs : Sample → Rand → list (list (list bool)) * Rand)
    (c fuel : nat) (g : Rand) :
  initial_sample self = Some prev →
  fits_run self prev →
  has_nan (weights prev) = false →
  (0 < fuel)%nat →
  ∃ s g',
    generate_initial_sample self gibbs c fuel g = Some (Ok s, g') ∧
    clusters s = clusters prev ∧
    cluster_effect s = cluster_effect prev ∧
    confounding_effects s = confounding_effects prev ∧
    weights s = normalize (weights prev) ∧
    (Forall (λ row, row_sum row == 1) (weights prev) →
     Forall2 (Forall2 Qeq) (weights s) (weights prev)).
Proof.
  intros Hprev Hres Hnan Hfuel.
  destruct (resume_clusters self prev Hprev Hres fuel g Hfuel) as (st & Hcl & Hrand).
  destruct (resume_confounding_effects self prev Hprev Hres (confounders self) ∅)
    as (m & Hm & Hlookup); [done|].
  assert (Hmap : m = confounding_effects prev).
  { apply map_eq. intros k. rewrite Hlookup.
    destruct (decide (k ∈ (confounders self).*1)) as [_|Hk]; [done|].
    rewrite lookup_empty. symmetry. apply eq_None_not_Some.
    intros Hsome. apply Hk. by apply Hres. }
  unfold generate_initial_sample. rewrite Hcl.
  rewrite (resume_cluster_effect self prev Hprev Hres), Hm, Hprev.
  unfold mbind, outcome_bind. rewrite Hnan.
  assert (Hweights : generate_initial_weights self = normalize (weights prev)).
  { unfold generate_initial_weights. by rewrite Hprev. }
  assert (Hunit : Forall (λ row, row_sum row == 1) (weights prev) →
                  Forall2 (Forall2 Qeq) (generate_initial_weights self) (weights prev)).
  { intros Hw. unfold generate_initial_weights. rewrite Hprev.
    by apply normalize_unit_rows. }
  destruct (sample_source self).
  - destruct (gibbs _ (rand st)) as [v g']. eexists _, g'. split; [done|].
    cbn. by rewrite Hmap.
  - eexists _, (rand st). split; [done|]. cbn. by rewrite Hmap.
Qed.

Lemma resume_roundtrip_witness :
  ∃ s g',
    generate_initial_sample resuming_sampler (λ _ g, ([], g)) 0 1 (mkRand (λ _, 0%nat) 0)
    = Some (Ok s, g') ∧
    clusters s = clusters previous_sample ∧
    cluster_effect s = cluster_effect previous_sample ∧
    confounding_effects s = confounding_effects previous_sample ∧
    weights s = normalize (weights previous_sample) ∧
    (Forall (λ row, row_sum row == 1) (weights previous_sample) →
     Forall2 (Forall2 Qeq) (weights s) (weights previous_sample)).
Proof.
  apply (resume_roundtrip resuming_sampler previous_sample (λ _ g, ([], g)) 0 1
           (mkRand (λ _, 0%nat) 0)).
  - reflexivity.
  - unfold fits_run. split_and!.
    + reflexivity.
    + repeat constructor.
    + reflexivity.
    + repeat constructor.
    + intros kv Hin. apply list_elem_of_singleton in Hin as ->.
      exists [[[2 # 5; 3 # 5]]]. split_and!.
      * reflexivity.
      * reflexivity.
      * repeat constructor.
      * by eexists.
    + intros k [t Ht]. cbn in Ht. apply lookup_singleton_Some in Ht as [<- _].
      cbn. by left.
  - reflexivity.
  - lia.
Defined.

Local Close Scope Q_scope.


(** * The warm-up schedule and the initial size *)

(** With an initial size of 14 and a nominal maximum of 10 the schedule is
    12, 12, 13, 14: three of the four chains get a maximal size below the
    initial size. *)
Lemma warmup_schedule_counterexample :
  max_size_per_chain (warmup_init oversized_start (mkRand (λ n, n) 0)).1
  = [12; 12; 13; 14]%Z ∧
  ¬ (∀ c v, max_size_per_chain (warmup_init oversized_start (mkRand (λ n, n) 0)).1 !! c
            = Some v →
            (initial_size oversized_start ≤ v)%Z).
Proof.
  split; [vm_compute; reflexivity|].
  intros H. specialize (H 0 12%Z eq_refl). vm_compute in H. by apply H.
Qed.

(** C8 (as amended). Every warm-up chain [c] gets the [max_size] of its
    group [c / chains_per_group] in a schedule of 4 stages that lies between
    the midpoint of initial size and nominal maximum,
    int((initial_size + max_size) / 2), and int(1.5 * max_size); chains of
    one group share the value. The values are between the initial size and
    1.5 times the nominal maximum when the initial size is between 0 and
    the nominal maximum. The chain's [p_grow_connected] is 0.95 or the
    configured value. *)
Theorem warmup_schedule (self : ClusterMCMC) (g : Rand) (c : nat) :
  c < n_chains self →
  length (max_size_per_chain (warmup_init self g).1) = n_chains self ∧
  length (p_grow_connected_per_chain (warmup_init self g).1) = n_chains self ∧
  ∃ (v : Z) (p : Q),
    max_size_per_chain (warmup_init self g).1 !! c = Some v ∧
    linspace_int (warmup_start self) (warmup_end self) 4 !! (c / chains_per_group self)
    = Some v ∧
    (Z.min (warmup_start self) (warmup_end self) ≤ v
     ≤ Z.max (warmup_start self) (warmup_end self))%Z ∧
    ((0 ≤ initial_size self ≤ max_size self)%Z →
     (initial_size self ≤ warmup_start self ≤ v)%Z ∧
     (v ≤ warmup_end self)%Z ∧ (2 * v ≤ 3 * max_size self)%Z) ∧
    (∀ c', c' < n_chains self →
       c' / chains_per_group self = c / chains_per_group self →
       max_size_per_chain (warmup_init self g).1 !! c' = Some v) ∧
    p_grow_connected_per_chain (warmup_init self g).1 !! c = Some p ∧
    (p = (95 # 100)%Q ∨ p = p_grow_connected self).
Proof.
  intros Hc. unfold warmup_init.
  pose proof (choices_spec [(95 # 100)%Q; p_grow_connected self] (n_chains self) g
                ltac:(done)) as [Hlp Hinp].
  destruct (choices _ (n_chains self) g) as [ps g']. cbn [fst] in *.
  cbn [max_size_per_chain p_grow_connected_per_chain].
  set (m := chains_per_group self).
  assert (Hm : 0 < m ∧ n_chains self ≤ m * 4).
  { unfold m, chains_per_group.
    pose proof (Nat.div_mod (n_chains self + 4 - 1) 4 ltac:(lia)).
    pose proof (Nat.mod_upper_bound (n_chains self + 4 - 1) 4 ltac:(lia)). lia. }
  assert (Hlookup : ∀ c', c' < n_chains self →
            get_max_size_list (warmup_start self) (warmup_end self) (n_chains self) 4 !! c'
            = linspace_int (warmup_start self) (warmup_end self) 4 !! (c' / m)).
  { intros c' Hc'. unfold get_max_size_list. rewrite lookup_take_lt by done.
    exact (lookup_flat_map_replicate m _ c' (proj1 Hm)). }
  destruct Hm as [Hm0 Hm4].
  assert (Hgroup : c / m < 4) by (apply Nat.Div0.div_lt_upper_bound; lia).
  split_and!.
  - unfold get_max_size_list.
    rewrite length_take, length_flat_map_replicate.
    unfold linspace_int. rewrite length_fmap, length_seq. fold (chains_per_group self).
    fold m. lia.
  - done.
  - destruct (lookup_lt_is_Some_2 ps c ltac:(lia)) as [p Hp].
    eexists _, p. rewrite Hlookup by done.
    rewrite (linspace_int_lookup _ _ 4 (c / m)) by done.
    set (d := (warmup_end self - warmup_start self)%Z) in *.
    set (i := Z.of_nat (c / m)).
    assert (Hi : (0 ≤ i < 4)%Z) by lia.
    change (Z.of_nat 4) with 4%Z.
    assert (Hup : (0 ≤ d → 0 ≤ i * d / 4 ≤ d)%Z).
    { intros Hd. split; [apply Z.div_pos; nia|]. apply Z.div_le_upper_bound; nia. }
    assert (Hdown : (d < 0 → d ≤ i * d / 4 ≤ 0)%Z).
    { intros Hd. split; [apply Z.div_le_lower_bound; nia|].
      apply Z.div_le_upper_bound; nia. }
    split; [done|]. split; [done|]. split; [|split; [|split; [|split; [done|]]]].
    + destruct (Z_le_gt_dec 0 d) as [Hd|Hd].
      * specialize (Hup Hd). clear Hdown. subst d i. lia.
      * specialize (Hdown ltac:(lia)). clear Hup. subst d i. lia.
    + intros Hsize.
      assert (Hstart : (initial_size self ≤ warmup_start self ≤ max_size self)%Z).
      { unfold warmup_start. rewrite Z.quot_div_nonneg by lia.
        pose proof (Z.div_mod (initial_size self + max_size self) 2 ltac:(lia)).
        pose proof (Z.mod_pos_bound (initial_size self + max_size self) 2 ltac:(lia)).
        lia. }
      assert (Hend : (max_size self ≤ warmup_end self
                      ∧ 2 * warmup_end self ≤ 3 * max_size self)%Z).
      { unfold warmup_end. rewrite Z.quot_div_nonneg by lia.
        pose proof (Z.div_mod (3 * max_size self) 2 ltac:(lia)).
        pose proof (Z.mod_pos_bound (3 * max_size self) 2 ltac:(lia)). lia. }
      assert (Hd : (0 ≤ d)%Z) by (subst d; lia).
      specialize (Hup Hd). clear Hdown. subst d i. lia.
    + intros c' Hc' Hsame. rewrite Hlookup by done. rewrite Hsame.
      by rewrite (linspace_int_lookup _ _ 4 (c / m)) by done.
    + apply list_elem_of_lookup_2, Hinp in Hp.
      apply elem_of_cons in Hp as [->|Hp]; [by left|].
      apply list_elem_of_singleton in Hp as ->. by right.
Qed.

(** Ten chains, initial size 5, nominal maximum 20: chain 7 is in group 2. *)
Lemma warmup_schedule_witness :
  length (max_size_per_chain (warmup_init ten_chains (mkRand (λ n, n) 0)).1)
  = n_chains ten_chains ∧
  length (p_grow_connected_per_chain (warmup_init ten_chains (mkRand (λ n, n) 0)).1)
  = n_chains ten_chains ∧
  ∃ (v : Z) (p : Q),
    max_size_per_chain (warmup_init ten_chains (mkRand (λ n, n) 0)).1 !! 7 = Some v ∧
    linspace_int (warmup_start ten_chains) (warmup_end ten_chains) 4
      !! (7 / chains_per_group ten_chains) = Some v ∧
    (Z.min (warmup_start ten_chains) (warmup_end ten_chains) ≤ v
     ≤ Z.max (warmup_start ten_chains) (warmup_end ten_chains))%Z ∧
    ((0 ≤ initial_size ten_chains ≤ max_size ten_chains)%Z →
     (initial_size ten_chains ≤ warmup_start ten_chains ≤ v)%Z ∧
     (v ≤ warmup_end ten_chains)%Z ∧ (2 * v ≤ 3 * max_size ten_chains)%Z) ∧
    (∀ c', c' < n_chains ten_chains →
       c' / chains_per_group ten_chains = 7 / chains_per_group ten_chains →
       max_size_per_chain (warmup_init ten_chains (mkRand (λ n, n) 0)).1 !! c' = Some v) ∧
    p_grow_connected_per_chain (warmup_init ten_chains (mkRand (λ n, n) 0)).1 !! 7 = Some p ∧
    (p = (95 # 100)%Q ∨ p = p_grow_connected ten_chains).
Proof.
  apply (warmup_schedule ten_chains (mkRand (λ n, n) 0) 7).
  vm_compute. lia.
Defined.


(** * Smoothed effects and the observation counts *)

Local Open Scope Q_scope.





Section SmoothedCounts.

Variable self : ClusterMCMC.



End SmoothedCounts.



Local Close Scope Q_scope.


(** * Failed growth and the retries of the initialisation *)

Section Retries.

Variable self : ClusterMCMC.




End Retries.



(** The run of the witness: one retry, then the cluster {1, 2}. *)
Example generate_initial_clusters_retries :
  ∃ st, generate_initial_clusters (growth_only 3 isolated_and_edge 1 2) 1001
          (mkRand (λ _, 0) 0)
        = Returned [[false; true; true]] st ∧ attempts st = 1.
Proof. eexists. split; vm_compute; reflexivity. Qed.


(** * The subsample of the candidate pool is drawn uniformly *)

Lemma choice_no_replace_pick (k : nat) (pool : list nat) (g : Rand) :
  (choice_no_replace pool k g).1 = pick pool (tape_indices (length pool) k g).
Proof.
  revert pool g. induction k as [|k IH]; intros pool g; [done|].
  cbn [choice_no_replace tape_indices draw pick].
  destruct (pool !! (tape g (pos g) mod length pool)) as [x|] eqn:Ex; [|done].
  specialize (IH (delete (tape g (pos g) mod length pool) pool)
                 (mkRand (tape g) (S (pos g)))).
  rewrite length_delete in IH by by eexists.
  destruct (choice_no_replace _ k _) as [rest g2]. cbn [fst] in *. by rewrite IH.
Qed.

Lemma choice_no_replace_rand (k : nat) (pool : list nat) (g : Rand) :
  k ≤ length pool →
  (choice_no_replace pool k g).2 = mkRand (tape g) (pos g + k).
Proof.
  revert pool g. induction k as [|k IH]; intros pool g Hk.
  - cbn. destruct g. cbn. f_equal. lia.
  - cbn [choice_no_replace draw].
    set (j := tape g (pos g) mod length pool).
    assert (Hj : j < length pool) by (apply Nat.mod_upper_bound; lia).
    destruct (lookup_lt_is_Some_2 pool j Hj) as [x Hx]. rewrite Hx.
    specialize (IH (delete j pool) (mkRand (tape g) (S (pos g)))).
    rewrite length_delete in IH by by eexists.
    specialize (IH ltac:(lia)).
    destruct (choice_no_replace _ k _) as [rest g2]. cbn [snd tape pos] in *.
    rewrite IH. f_equal. lia.
Qed.

Lemma tape_indices_in (k n : nat) (g : Rand) :
  k ≤ n → tape_indices n k g ∈ index_vectors n k.
Proof.
  revert n g. induction k as [|k IH]; intros n g Hk.
  - cbn. apply list_elem_of_singleton. done.
  - cbn [tape_indices draw index_vectors]. apply list_elem_of_bind.
    exists (tape g (pos g) mod n). split.
    + apply list_elem_of_fmap. eexists. split; [done|]. apply IH. lia.
    + apply elem_of_seq. pose proof (Nat.mod_upper_bound (tape g (pos g)) n). lia.
Qed.

Lemma length_bind_const {A B} (f : A → list B) (l : list A) (c : nat) :
  (∀ x, x ∈ l → length (f x) = c) → length (l ≫= f) = length l * c.
Proof.
  induction l as [|x l IH]; intros Hall; [done|].
  cbn. rewrite length_app, Hall by left. rewrite IH; [lia|].
  intros y Hy. apply Hall. by right.
Qed.

Lemma index_vectors_length (k n : nat) :
  k ≤ n → length (index_vectors n k) * fact (n - k) = fact n.
Proof.
  revert n. induction k as [|k IH]; intros n Hk.
  - cbn [index_vectors length]. rewrite Nat.sub_0_r. lia.
  - cbn [index_vectors].
    rewrite (length_bind_const _ _ (length (index_vectors (n - 1) k)))
      by (intros; by rewrite length_fmap).
    rewrite length_seq. specialize (IH (n - 1) ltac:(lia)).
    replace (n - S k) with (n - 1 - k) by lia.
    rewrite <- Nat.mul_assoc, IH.
    destruct n as [|n]; [lia|]. replace (S n - 1) with n by lia. done.
Qed.

Lemma pick_subset (js pool : list nat) (x : nat) : x ∈ pick pool js → x ∈ pool.
Proof.
  revert pool. induction js as [|j js IH]; intros pool; cbn [pick].
  - intros H. inversion H.
  - destruct (pool !! j) as [y|] eqn:Ey; [|intros H; inversion H].
    intros [->|H]%elem_of_cons.
    + by eapply list_elem_of_lookup_2.
    + apply IH in H. by eapply list_elem_of_delete_inv.
Qed.

Lemma pick_fmap (f : nat → nat) (js pool : list nat) :
  pick (f <$> pool) js = f <$> pick pool js.
Proof.
  revert pool. induction js as [|j js IH]; intros pool; [done|].
  cbn [pick]. rewrite list_lookup_fmap.
  destruct (pool !! j) as [x|] eqn:Ex; [|done]. cbn.
  rewrite <- IH. f_equal. f_equal.
  rewrite !delete_take_drop, fmap_app, fmap_take, fmap_drop. done.
Qed.

Lemma NoDup_delete_lookup (pool : list nat) (j x : nat) :
  NoDup pool → pool !! j = Some x →
  NoDup (delete j pool) ∧ (x ∉ delete j pool) ∧
  ∀ y, y ∈ pool ↔ y = x ∨ y ∈ delete j pool.
Proof.
  intros Hnd Hx.
  assert (Hsplit : pool = take j pool ++ x :: drop (S j) pool)
    by (symmetry; by apply take_drop_middle).
  rewrite delete_take_drop. rewrite Hsplit in Hnd.
  apply NoDup_app in Hnd as (H1 & H2 & H3).
  apply NoDup_cons in H3 as [H3 H4]. split_and!.
  - apply NoDup_app. split_and!; [done | | done].
    intros y Hy1 Hy2. apply (H2 y Hy1). by right.
  - rewrite elem_of_app. intros [Hin|Hin]; [|done]. apply (H2 x Hin). by left.
  - intros y. rewrite Hsplit at 1. rewrite !elem_of_app, elem_of_cons. tauto.
Qed.

Lemma length_filter_bind {A B} (P : B → Prop) `{!∀ x, Decision (P x)}
    (f : A → list B) (l : list A) :
  length (filter P (l ≫= f)) = sum_list ((λ x, length (filter P (f x))) <$> l).
Proof.
  induction l as [|x l IH]; [done|].
  cbn. rewrite filter_app, length_app, IH. done.
Qed.

Lemma length_filter_iff {A} (P Q : A → Prop) `{!∀ x, Decision (P x)}
    `{!∀ x, Decision (Q x)} (l : list A) :
  (∀ x, x ∈ l → P x ↔ Q x) → length (filter P l) = length (filter Q l).
Proof.
  induction l as [|x l IH]; intros Hall; [done|].
  rewrite !filter_cons.
  pose proof (Hall x ltac:(left)) as Hx.
  specialize (IH (λ y Hy, Hall y ltac:(by right))).
  destruct (decide (P x)), (decide (Q x)); cbn; try tauto; by rewrite IH.
Qed.

Lemma length_filter_fmap {A B} (P : B → Prop) `{!∀ x, Decision (P x)}
    (f : A → B) (l : list A) :
  length (filter P (f <$> l)) = length (filter (λ x, P (f x)) l).
Proof.
  induction l as [|x l IH]; [done|].
  cbn [fmap list_fmap]. rewrite !filter_cons.
  destruct (decide (P (f x))); cbn; by rewrite IH.
Qed.

Lemma length_filter_none {A} (P : A → Prop) `{!∀ x, Decision (P x)} (l : list A) :
  (∀ x, x ∈ l → ¬ P x) → length (filter P l) = 0.
Proof.
  induction l as [|x l IH]; intros Hall; [done|].
  rewrite filter_cons. destruct (decide (P x)) as [Hp|_].
  - destruct (Hall x ltac:(left) Hp).
  - apply IH. intros y Hy. apply Hall. by right.
Qed.

(** A sum over the positions of a pool of a term that is [c] on the elements
    of [T] and 0 elsewhere. *)
Lemma sum_over_pool (pool : list nat) (T : gset nat) (h : nat → nat) (c : nat) :
  NoDup pool → T ⊆ list_to_set pool →
  (∀ j x, pool !! j = Some x → h j = if decide (x ∈ T) then c else 0) →
  sum_list (h <$> seq 0 (length pool)) = size T * c.
Proof.
  revert T h. induction pool as [|x pool IH]; intros T h Hnd HT Hh.
  - cbn. assert (T = ∅) as -> by (apply leibniz_equiv, equiv_empty; exact HT).
    by rewrite size_empty.
  - apply NoDup_cons in Hnd as [Hx Hnd].
    cbn [length seq fmap list_fmap sum_list].
    rewrite <- fmap_S_seq, <- list_fmap_compose.
    rewrite (IH (T ∖ {[x]}) (h ∘ S)); [|done| |].
    + rewrite (Hh 0 x eq_refl). destruct (decide (x ∈ T)) as [Hin|Hout].
      * rewrite (size_difference T {[x]}) by by apply singleton_subseteq_l.
        rewrite size_singleton.
        assert (0 < size T); [|unfold id; nia].
        destruct (size T) eqn:E; [|lia]. apply size_empty_inv in E. exfalso.
        apply (not_elem_of_empty (C := gset nat) x). by rewrite <- E.
      * assert (T ∖ {[x]} = T) as ->
          by by apply difference_disjoint_L, disjoint_singleton_r.
        unfold id. lia.
    + intros y Hy. apply elem_of_difference in Hy as [Hy Hne].
      apply HT in Hy. rewrite list_to_set_cons in Hy.
      by apply elem_of_union in Hy as [Hy|Hy].
    + intros j y Hy. cbn. rewrite (Hh (S j) y Hy).
      assert (y ≠ x). { intros ->. apply Hx. by eapply list_elem_of_lookup_2. }
      destruct (decide (y ∈ T)) as [Hy1|Hy1], (decide (y ∈ T ∖ {[x]})) as [Hy2|Hy2];
        try done.
      * destruct Hy2. apply elem_of_difference. by rewrite elem_of_singleton.
      * by apply elem_of_difference in Hy2 as [? _].
Qed.

(** Every set of [k] elements of a pool is selected by exactly [k!] of the
    sequences of positions. *)
Lemma pick_count (k : nat) (pool : list nat) (T : gset nat) :
  NoDup pool → T ⊆ list_to_set pool → size T = k →
  length (filter (λ js, T = list_to_set (pick pool js))
                 (index_vectors (length pool) k)) = fact k.
Proof.
  revert pool T. induction k as [|k IH]; intros pool T Hnd HT Hsize.
  - apply size_empty_inv in Hsize. apply leibniz_equiv in Hsize as ->.
    cbn [index_vectors]. rewrite filter_cons. cbn [pick]. rewrite decide_True by done.
    done.
  - cbn [index_vectors]. rewrite length_filter_bind.
    rewrite (sum_over_pool pool T _ (fact k) Hnd HT).
    + rewrite Hsize. cbn [fact]. lia.
    + intros j x Hx.
      destruct (NoDup_delete_lookup pool j x Hnd Hx) as (Hnd' & Hnx & Hmem).
      assert (Hlen : length (delete j pool) = length pool - 1)
        by (apply length_delete; by eexists).
      rewrite length_filter_fmap. cbn [pick]. rewrite Hx.
      destruct (decide (x ∈ T)) as [Hin|Hout].
      * rewrite <- (IH (delete j pool) (T ∖ {[x]}) Hnd').
        -- rewrite Hlen. apply length_filter_iff. intros js _.
           assert (Hfresh : x ∉ (list_to_set (pick (delete j pool) js) : gset nat)).
           { rewrite elem_of_list_to_set. intros H. by apply Hnx, (pick_subset js). }
           rewrite list_to_set_cons. split.
           ++ intros ->. apply set_eq. intros y.
              rewrite elem_of_difference, elem_of_union, elem_of_singleton.
              split; [tauto|]. intros Hy. split; [by right|]. by intros ->.
           ++ intros <-. apply set_eq. intros y. rewrite elem_of_union,
                elem_of_difference, elem_of_singleton.
              destruct (decide (y = x)) as [->|]; tauto.
        -- intros y [Hy Hne]%elem_of_difference. apply HT in Hy.
           rewrite elem_of_list_to_set in Hy |- *. apply Hmem in Hy as [->|Hy]; [|done].
           destruct Hne. by apply elem_of_singleton.
        -- rewrite size_difference by by apply singleton_subseteq_l.
           rewrite size_singleton. lia.
      * apply length_filter_none. intros js _ ->. apply Hout.
        rewrite list_to_set_cons. by apply elem_of_union_l, elem_of_singleton.
Qed.

Lemma nonzero_from_S (v : list bool) (i : nat) :
  nonzero_from (S i) v = S <$> nonzero_from i v.
Proof.
  revert i. induction v as [|b v IH]; intros i; [done|].
  cbn [nonzero_from]. rewrite fmap_app, <- IH. by destruct b.
Qed.

Lemma lookup_fmap_S (l : list nat) (j s : nat) :
  (S <$> l) !! j = Some s ↔ ∃ s', s = S s' ∧ l !! j = Some s'.
Proof.
  rewrite list_lookup_fmap. destruct (l !! j) as [y|]; cbn.
  - split; [intros [= <-]; by exists y | intros (s' & -> & [= ->]); done].
  - split; [done | intros (s' & _ & [=])].
Qed.

(** [a[m] &= v] at a site selected by [m]: the site stays on when the value
    at its rank among the selected sites is on. *)
Lemma mask_and_rank (a m v : list bool) (s : nat) :
  Forall2 (λ x y, y = true → x = true) a m →
  length v = count_nonzero m →
  on m s →
  on (mask_and a m v) s ↔ ∃ j, nonzero m !! j = Some s ∧ on v j.
Proof.
  intros Hall. revert v s. induction Hall as [|x y a m Hxy Hall IH]; intros v s Hv Hs.
  { inversion Hs. }
  rewrite count_nonzero_cons in Hv. unfold nonzero. cbn [nonzero_from].
  rewrite nonzero_from_S. fold (nonzero m). destruct y.
  - rewrite Hxy by done. destruct v as [|v0 v]; [cbn in Hv; lia|].
    cbn [length] in Hv. cbn [mask_and app]. destruct s as [|s].
    + unfold on. cbn [lookup list_lookup andb]. split.
      * intros [= ->]. exists 0. done.
      * intros ([|j] & Hj & Hon).
        -- exact Hon.
        -- change ((S <$> nonzero m) !! j = Some 0) in Hj.
           apply lookup_fmap_S in Hj as (s' & ? & _). discriminate.
    + change (on m s) in Hs.
      change (on (mask_and a m v) s ↔
              ∃ j, (0 :: (S <$> nonzero m)) !! j = Some (S s) ∧ on (v0 :: v) j).
      rewrite (IH v s) by (done || lia). split.
      * intros (j & Hj & Hon). exists (S j). split; [|exact Hon].
        change ((S <$> nonzero m) !! j = Some (S s)). apply lookup_fmap_S. by exists s.
      * intros ([|j] & Hj & Hon); [discriminate Hj|].
        change ((S <$> nonzero m) !! j = Some (S s)) in Hj.
        apply lookup_fmap_S in Hj as (s' & [= <-] & Hj). exists j. split; [done|exact Hon].
  - cbn [mask_and app]. destruct s as [|s]; [inversion Hs|].
    change (on m s) in Hs.
    change (on (mask_and a m v) s ↔
            ∃ j, (S <$> nonzero m) !! j = Some (S s) ∧ on v j).
    rewrite (IH v s) by done. split.
    + intros (j & Hj & Hon). exists j. split; [|done]. apply lookup_fmap_S. by exists s.
    + intros (j & Hj & Hon). exists j. split; [|done].
      apply lookup_fmap_S in Hj as (s' & [= <-] & Hj). done.
Qed.

Lemma on_unoccupied_in (pool occ : list bool) (s : nat) :
  on (unoccupied_in pool occ) s ↔ on pool s ∧ on (negb <$> occ) s.
Proof.
  unfold on, unoccupied_in. rewrite lookup_zip_with.
  destruct (pool !! s) as [[]|], ((negb <$> occ) !! s) as [[]|]; cbn;
    (split; [done || intros [=] | done || intros [[=] [=]]]).
Qed.

(** The unoccupied sites that stay in the pool are the sites that the
    positions select among the unoccupied sites. *)
Lemma kept_unoccupied_pool_of_draws (occ cluster : list bool) (js : list nat) :
  length occ = length cluster →
  kept_unoccupied (pool_of_draws occ cluster js) occ
  = list_to_set (pick (nonzero (negb <$> occ)) js).
Proof.
  intros Hlen. unfold kept_unoccupied, pool_of_draws.
  assert (Hlm : length (negb <$> occ) = length cluster) by (rewrite length_fmap; lia).
  pose proof (vor_covers _ _ Hlm) as Hcov.
  set (free := nonzero (negb <$> occ)).
  change (count_nonzero (negb <$> occ)) with (length free).
  destruct (indicator_spec (length free) (pick (seq 0 (length free)) js)) as [Hl Hon].
  set (sub := foldr _ _ _) in *.
  assert (Hfree : free = (λ j, default 0 (free !! j)) <$> seq 0 (length free)).
  { apply list_eq. intros j. rewrite list_lookup_fmap.
    destruct (decide (j < length free)) as [Hj|Hj].
    - rewrite lookup_seq_lt by done. cbn.
      destruct (lookup_lt_is_Some_2 free j Hj) as [x ->]. done.
    - rewrite lookup_seq_ge by lia. cbn. apply lookup_ge_None. lia. }
  assert (Hpick : pick free js
                  = (λ j, default 0 (free !! j)) <$> pick (seq 0 (length free)) js).
  { rewrite <- pick_fmap. by rewrite <- Hfree. }
  apply set_eq. intros s.
  rewrite !elem_of_list_to_set, elem_of_nonzero, on_unoccupied_in.
  rewrite Hpick, list_elem_of_fmap. split.
  - intros [Hp Hs]. apply (mask_and_rank _ _ sub s Hcov Hl Hs) in Hp as (j & Hj & Hv).
    apply Hon in Hv as [Hv _]. exists j. fold free in Hj. by rewrite Hj.
  - intros (j & -> & Hj).
    assert (Hlt : j < length free).
    { apply pick_subset, elem_of_seq in Hj. lia. }
    destruct (lookup_lt_is_Some_2 free j Hlt) as [s Hs]. rewrite Hs. cbn.
    assert (Hfs : on (negb <$> occ) s).
    { apply elem_of_nonzero. by eapply list_elem_of_lookup_2. }
    split; [|done]. apply (mask_and_rank _ _ sub s Hcov Hl Hfs).
    exists j. split; [done|]. apply Hon. done.
Qed.

Lemma candidate_pool_draws (occ cluster : list bool) (max_size : Z) (g : Rand) :
  (max_size < Z.of_nat (count_nonzero (vor (negb <$> occ) cluster)))%Z →
  candidate_pool occ cluster max_size g
  = if 10 <? length (nonzero (negb <$> occ))
    then (pool_of_draws occ cluster
            (tape_indices (length (nonzero (negb <$> occ))) 10 g),
          mkRand (tape g) (pos g + 10))
    else (vor (negb <$> occ) cluster, g).
Proof.
  intros Hcap. unfold candidate_pool, pool_of_draws.
  destruct (Z.ltb_spec max_size
              (Z.of_nat (count_nonzero (vor (negb <$> occ) cluster)))) as [_|?]; [|lia].
  change (count_nonzero (negb <$> occ)) with (length (nonzero (negb <$> occ))).
  destruct (Nat.ltb_spec 10 (length (nonzero (negb <$> occ)))) as [Hmany|Hfew]; [|done].
  unfold random_subset.
  pose proof (choice_no_replace_pick 10 (seq 0 (length (nonzero (negb <$> occ)))) g) as Hp.
  pose proof (choice_no_replace_rand 10 (seq 0 (length (nonzero (negb <$> occ)))) g) as Hr.
  rewrite length_seq in Hp, Hr. specialize (Hr ltac:(lia)).
  destruct (choice_no_replace _ 10 g) as [s g']. cbn [fst snd] in *. by subst.
Qed.

(** C4. When the available set exceeds the cap [max_size], the pool keeps
    every site of the chosen cluster and holds nothing but sites of the
    cluster and unoccupied sites; of the unoccupied sites it keeps
    min(10, their number). With at most 10 unoccupied sites nothing is drawn
    and all of them stay. With more than 10, the generator is read 10 times,
    draw [i] selecting a position among the [n - i] unoccupied sites not yet
    selected, and exactly the selected sites stay. The subsample is uniform:
    of the n! / (n - 10)! equally likely sequences of positions, each set of
    10 unoccupied sites is the outcome of exactly 10!. *)
Theorem candidate_pool_subsample (n : nat) (rows : list (list bool)) (i : nat)
    (cluster : list bool) (max_size : Z) (g : Rand) :
  Forall (λ r, length r = n) rows →
  rows !! i = Some cluster →
  (max_size < Z.of_nat (count_nonzero (vor (negb <$> np_any_axis0 n rows) cluster)))%Z →
  (∀ s, on cluster s → on (candidate_pool (np_any_axis0 n rows) cluster max_size g).1 s) ∧
  (∀ s, on (candidate_pool (np_any_axis0 n rows) cluster max_size g).1 s →
        on cluster s ∨ np_any_axis0 n rows !! s = Some false) ∧
  count_nonzero (unoccupied_in (candidate_pool (np_any_axis0 n rows) cluster max_size g).1
                               (np_any_axis0 n rows))
  = Nat.min 10 (count_nonzero (negb <$> np_any_axis0 n rows)) ∧
  (count_nonzero (negb <$> np_any_axis0 n rows) ≤ 10 →
   candidate_pool (np_any_axis0 n rows) cluster max_size g
   = (vor (negb <$> np_any_axis0 n rows) cluster, g)) ∧
  (10 < count_nonzero (negb <$> np_any_axis0 n rows) →
   candidate_pool (np_any_axis0 n rows) cluster max_size g
   = (pool_of_draws (np_any_axis0 n rows) cluster
        (tape_indices (count_nonzero (negb <$> np_any_axis0 n rows)) 10 g),
      mkRand (tape g) (pos g + 10)) ∧
   tape_indices (count_nonzero (negb <$> np_any_axis0 n rows)) 10 g
   ∈ index_vectors (count_nonzero (negb <$> np_any_axis0 n rows)) 10 ∧
   (∀ js, kept_unoccupied (pool_of_draws (np_any_axis0 n rows) cluster js)
                          (np_any_axis0 n rows)
          = list_to_set (pick (nonzero (negb <$> np_any_axis0 n rows)) js)) ∧
   length (index_vectors (count_nonzero (negb <$> np_any_axis0 n rows)) 10)
   * fact (count_nonzero (negb <$> np_any_axis0 n rows) - 10)
   = fact (count_nonzero (negb <$> np_any_axis0 n rows)) ∧
   ∀ T : gset nat,
     T ⊆ list_to_set (nonzero (negb <$> np_any_axis0 n rows)) → size T = 10 →
     length (filter (λ js, T = kept_unoccupied
                                 (pool_of_draws (np_any_axis0 n rows) cluster js)
                                 (np_any_axis0 n rows))
                    (index_vectors (count_nonzero (negb <$> np_any_axis0 n rows)) 10))
     = fact 10).
Proof.
  intros Hrect Hi Hcap.
  destruct (np_any_axis0_spec n rows Hrect) as [Hlocc Hsub].
  set (occ := np_any_axis0 n rows) in *.
  assert (Hlc : length cluster = n).
  { rewrite Forall_lookup in Hrect. by eapply Hrect. }
  assert (Hlm : length (negb <$> occ) = length cluster) by (rewrite length_fmap; lia).
  pose proof (vor_covers _ _ Hlm) as Hcov.
  assert (Hcl : ∀ s, on cluster s → (negb <$> occ) !! s ≠ Some true).
  { intros s Hs. specialize (Hsub i cluster s Hi Hs). unfold on in Hsub.
    rewrite list_lookup_fmap, Hsub. done. }
  pose proof (candidate_pool_draws occ cluster max_size g Hcap) as Hpool.
  change (length (nonzero (negb <$> occ))) with (count_nonzero (negb <$> occ)) in Hpool.
  assert (Hkept : ∀ js, kept_unoccupied (pool_of_draws occ cluster js) occ
                        = list_to_set (pick (nonzero (negb <$> occ)) js)).
  { intros js. apply kept_unoccupied_pool_of_draws. lia. }
  assert (Hfirst :
    (∀ s, on cluster s → on (candidate_pool occ cluster max_size g).1 s) ∧
    (∀ s, on (candidate_pool occ cluster max_size g).1 s →
          on cluster s ∨ occ !! s = Some false) ∧
    count_nonzero (unoccupied_in (candidate_pool occ cluster max_size g).1 occ)
    = Nat.min 10 (count_nonzero (negb <$> occ))).
  { clear Hpool. unfold candidate_pool.
    destruct (Z.ltb_spec max_size
                (Z.of_nat (count_nonzero (vor (negb <$> occ) cluster)))) as [_|?]; [|lia].
    destruct (Nat.ltb_spec 10 (count_nonzero (negb <$> occ))) as [Hmany|Hfew].
    - pose proof (random_subset_spec (count_nonzero (negb <$> occ)) 10 g ltac:(lia))
        as [Hlsub Hcsub].
      destruct (random_subset _ 10 g) as [sub g']. cbn [fst] in *.
      assert (Hcount : count_nonzero (unoccupied_in
                (mask_and (vor (negb <$> occ) cluster) (negb <$> occ) sub) occ) = 10).
      { unfold unoccupied_in.
        rewrite mask_and_count; [exact Hcsub | exact Hcov | exact Hlsub]. }
      split_and!.
      + intros s Hs. unfold on. rewrite mask_and_keep by by apply Hcl.
        apply on_vor; [done | by right].
      + intros s Hs. apply mask_and_on in Hs. apply on_vor in Hs; [|done].
        destruct Hs as [Hs|Hs]; [right; by apply on_negb | by left].
      + rewrite Hcount. lia.
    - cbn [fst].
      assert (Hcount : count_nonzero (unoccupied_in (vor (negb <$> occ) cluster) occ)
                       = count_nonzero (negb <$> occ)).
      { unfold unoccupied_in. by apply zip_with_andb_self_count. }
      split_and!.
      + intros s Hs. apply on_vor; [done | by right].
      + intros s Hs. apply on_vor in Hs; [|done].
        destruct Hs as [Hs|Hs]; [right; by apply on_negb | by left].
      + rewrite Hcount. lia. }
  destruct Hfirst as (H1 & H2 & H3). split_and!; [done | done | done | |].
  - intros Hfew. rewrite Hpool.
    destruct (Nat.ltb_spec 10 (count_nonzero (negb <$> occ))); [lia | done].
  - intros Hmany. split_and!.
    + rewrite Hpool.
      destruct (Nat.ltb_spec 10 (count_nonzero (negb <$> occ))); [done | lia].
    + apply tape_indices_in. lia.
    + exact Hkept.
    + apply index_vectors_length. lia.
    + intros T HT Hsize.
      rewrite <- (pick_count 10 (nonzero (negb <$> occ)) T (NoDup_nonzero _) HT Hsize).
      apply length_filter_iff. intros js _. by rewrite Hkept.
Qed.

Lemma candidate_pool_subsample_witness :
  candidate_pool (np_any_axis0 13 one_of_13) (true :: replicate 12 false) 2 stride_tape
  = (pool_of_draws (np_any_axis0 13 one_of_13) (true :: replicate 12 false)
       (tape_indices (count_nonzero (negb <$> np_any_axis0 13 one_of_13)) 10 stride_tape),
     mkRand (tape stride_tape) (pos stride_tape + 10)) ∧
  tape_indices (count_nonzero (negb <$> np_any_axis0 13 one_of_13)) 10 stride_tape
  ∈ index_vectors (count_nonzero (negb <$> np_any_axis0 13 one_of_13)) 10 ∧
  (∀ js, kept_unoccupied
           (pool_of_draws (np_any_axis0 13 one_of_13) (true :: replicate 12 false) js)
           (np_any_axis0 13 one_of_13)
         = list_to_set (pick (nonzero (negb <$> np_any_axis0 13 one_of_13)) js)) ∧
  length (index_vectors (count_nonzero (negb <$> np_any_axis0 13 one_of_13)) 10)
  * fact (count_nonzero (negb <$> np_any_axis0 13 one_of_13) - 10)
  = fact (count_nonzero (negb <$> np_any_axis0 13 one_of_13)) ∧
  ∀ T : gset nat,
    T ⊆ list_to_set (nonzero (negb <$> np_any_axis0 13 one_of_13)) → size T = 10 →
    length (filter (λ js, T = kept_unoccupied
                                (pool_of_draws (np_any_axis0 13 one_of_13)
                                   (true :: replicate 12 false) js)
                                (np_any_axis0 13 one_of_13))
                   (index_vectors (count_nonzero (negb <$> np_any_axis0 13 one_of_13)) 10))
    = fact 10.
Proof.
  destruct (candidate_pool_subsample 13 one_of_13 0 (true :: replicate 12 false) 2
              stride_tape) as (_ & _ & _ & _ & Hmany).
  - repeat constructor.
  - reflexivity.
  - vm_compute. reflexivity.
  - apply Hmany. apply Nat.ltb_lt. vm_compute. reflexivity.
Defined.

(** The pool of the witness: the draws select the positions 1, 4, 7, 1, 5,
    2, 1, 2, 1, 1 among the unoccupied sites that are left, so that the free
    sites 1 and 12 are the two that leave the pool. *)
Example candidate_pool_stride :
  tape_indices 12 10 stride_tape = [1; 4; 7; 1; 5; 2; 1; 2; 1; 1] ∧
  pick (nonzero (negb <$> np_any_axis0 13 one_of_13)) (tape_indices 12 10 stride_tape)
  = [2; 6; 10; 3; 9; 5; 4; 8; 7; 11] ∧
  (candidate_pool (np_any_axis0 13 one_of_13) (true :: replicate 12 false) 2
                  stride_tape).1
  = [true; false; true; true; true; true; true; true; true; true; true; true; false].
Proof. vm_compute. done. Qed.
